(** * FFG_GEO: a shallow embedding of the triangulation engine and of the
    BSP solid-geometry core, with the properties stated about them.

    Layout: the embedding of [vector2.py], [predicates.py], [triangle2.py]
    and [triangulation2.py] comes first, then [vector3.py], [plane3.py] and
    [bsp3.py]; the theorems follow the definitions.

    Numbers.  A [Vector2] holds whatever Python numbers it is given, and
    the two predicates of [predicates.py] use only [+], [-], [*] and
    comparisons on them: the triangulation engine is embedded once, over
    a structure of numbers ([Number]), with its two instances, Python's
    [int] (exact, [Z]) and Python's [float] (IEEE binary64, [PrimFloat]).
    The 3D code divides and takes square roots; it is on [PrimFloat]. *)

From Stdlib Require Import ZArith List Bool Lia Arith PeanoNat Floats Permutation Sorted.
Import ListNotations.

Set Warnings "-register-all".

(** ** Exceptions and the state-and-exception monad

    A Python method mutates [self] and may raise.  The state reached when
    the exception is raised is kept: the object stays mutated. *)

Inductive exn : Type :=
| NotImplementedExc   (* Exception('NOT IMPLEMENTED.') *)
| MissingIndexExc     (* Exception('Source triangle index missing in neighbor triangle.') *)
| IndexError          (* a list index out of range *)
| TypeError           (* None used where an int is needed *)
| ZeroDivisionError   (* float division by zero *)
| ValueError          (* math domain error *)
| OutOfFuel.          (* the model's loop bound was reached: no Python counterpart *)

Inductive res (A : Type) : Type :=
| Ok (a : A)
| Raise (e : exn).
Arguments Ok {A} a.
Arguments Raise {A} e.

Definition M (S A : Type) : Type := S -> res A * S.

Definition ret {S A : Type} (a : A) : M S A := fun s => (Ok a, s).

Definition bind {S A B : Type} (m : M S A) (k : A -> M S B) : M S B :=
  fun s => match m s with
           | (Ok a, s') => k a s'
           | (Raise e, s') => (Raise e, s')
           end.

Definition raise {S A : Type} (e : exn) : M S A := fun s => (Raise e, s).

Definition get_state {S : Type} : M S S := fun s => (Ok s, s).

Definition put_state {S : Type} (s : S) : M S unit := fun _ => (Ok tt, s).

(** [o] must be there, otherwise [e] is raised. *)
Definition need {S A : Type} (e : exn) (o : option A) : M S A :=
  match o with
  | Some a => ret a
  | None => raise e
  end.

Declare Scope monad_scope.
Delimit Scope monad_scope with monad.
Notation "x <- c1 ;; c2" := (bind c1 (fun x => c2))
  (at level 61, c1 at next level, right associativity) : monad_scope.
Notation "' pat <- c1 ;; c2" := (bind c1 (fun x => match x with pat => c2 end))
  (at level 61, pat pattern, c1 at next level, right associativity) : monad_scope.
Notation "c1 ;; c2" := (bind c1 (fun _ => c2))
  (at level 61, right associativity) : monad_scope.
Open Scope monad_scope.

(** ** Python numbers *)

(** What the engine asks of the coordinates it is given: the literal
    [0.0], [+], [-], [*], [<] and [==]. *)
Class Number : Type := mkNumber {
  num : Type;
  n_zero : num;
  n_add : num -> num -> num;
  n_sub : num -> num -> num;
  n_mul : num -> num -> num;
  n_lt : num -> num -> bool;
  n_eq : num -> num -> bool
}.

Declare Scope num_scope.
Delimit Scope num_scope with num.
Notation "a + b" := (n_add a b) : num_scope.
Notation "a - b" := (n_sub a b) : num_scope.
Notation "a * b" := (n_mul a b) : num_scope.
Notation "a <? b" := (n_lt a b) : num_scope.
Notation "a >? b" := (n_lt b a) : num_scope.
Notation "a =? b" := (n_eq a b) : num_scope.

(** ** vector2.py *)

Section Vector2Py.

Context {N : Number}.

(** A [Vector2] object.  The class defines no [__eq__], so Python's [==] on
    two vectors is object identity: [ident] is the identity of the object,
    [x] and [y] its (immutable) coordinates. *)
Record Vector2 : Type := mkVector2 { ident : nat; x : num; y : num }.

(** [a == b] on two [Vector2] objects. *)
Definition py_eq (a b : Vector2) : bool := Nat.eqb (ident a) (ident b).

(** Equal coordinates, whatever the objects. *)
Definition same_coords (a b : Vector2) : bool :=
  (x a =? x b)%num && (y a =? y b)%num.

End Vector2Py.

(** ** predicates.py *)

Inductive Orientation : Type := CO_LINEAR | LEFT | RIGHT.

Inductive Position : Type := ON | INSIDE | OUTSIDE.

Definition Orientation_eqb (a b : Orientation) : bool :=
  match a, b with
  | CO_LINEAR, CO_LINEAR | LEFT, LEFT | RIGHT, RIGHT => true
  | _, _ => false
  end.

Definition Position_eqb (a b : Position) : bool :=
  match a, b with
  | ON, ON | INSIDE, INSIDE | OUTSIDE, OUTSIDE => true
  | _, _ => false
  end.

Section PredicatesPy.

Context {N : Number}.

(** The signed area that [side] computes. *)
Definition area (a b c : Vector2) : num :=
  ((x b - x a) * (y c - y a) - (x c - x a) * (y b - y a))%num.

Definition side (a b c : Vector2) : Orientation :=
  if (area a b c >? n_zero)%num then LEFT
  else if (area a b c <? n_zero)%num then RIGHT
  else CO_LINEAR.

(** The determinant that [in_circle] computes ([retval]). *)
Definition in_circle_det (a b c d : Vector2) : num :=
  (let adx := x a - x d in
   let ady := y a - y d in
   let bdx := x b - x d in
   let bdy := y b - y d in
   let cdx := x c - x d in
   let cdy := y c - y d in
   let abdet := adx * bdy - bdx * ady in
   let bcdet := bdx * cdy - cdx * bdy in
   let cadet := cdx * ady - adx * cdy in
   let alift := adx * adx + ady * ady in
   let blift := bdx * bdx + bdy * bdy in
   let clift := cdx * cdx + cdy * cdy in
   alift * bcdet + blift * cadet + clift * abdet)%num.

Definition in_circle (a b c d : Vector2) : Position :=
  if (in_circle_det a b c d >? n_zero)%num then INSIDE
  else if (in_circle_det a b c d =? n_zero)%num then ON
  else OUTSIDE.

End PredicatesPy.

(** ** triangle2.py *)

(** A Python list of three items, as [Triangle2.v] and [Triangle2.n] are:
    every [Triangle2] of the engine is built from two 3-tuples. *)
Record triple (A : Type) : Type := mk3 { s0 : A; s1 : A; s2 : A }.
Arguments mk3 {A} s0 s1 s2.
Arguments s0 {A} t.
Arguments s1 {A} t.
Arguments s2 {A} t.

(** [t[i]]: [None] stands for Python's IndexError. *)
Definition tget {A : Type} (t : triple A) (i : nat) : option A :=
  match i with
  | 0 => Some (s0 t)
  | 1 => Some (s1 t)
  | 2 => Some (s2 t)
  | _ => None
  end.

(** [t[i] = a]. *)
Definition tset {A : Type} (t : triple A) (i : nat) (a : A) : option (triple A) :=
  match i with
  | 0 => Some (mk3 a (s1 t) (s2 t))
  | 1 => Some (mk3 (s0 t) a (s2 t))
  | 2 => Some (mk3 (s0 t) (s1 t) a)
  | _ => None
  end.

(** [v]: vertex indices, [None] in slot 2 for a ghost; [n]: neighbour
    triangle indices. *)
Record Triangle2 : Type := mkTriangle2 { v : triple (option nat); n : triple nat }.

Definition is_ghost (t : Triangle2) : bool :=
  match s2 (v t) with
  | None => true
  | Some _ => false
  end.

(** ** triangulation2.py *)

Inductive MergeMethod : Type := ARBITRARY | FLIP | DELAUNAY.

Inductive CutMethod : Type := VERTICAL | HORIZONTAL | ALTERNATING.

Section Engine.

Context {N : Number}.

(** The fields of a [Triangulation2] that the engine reads and writes.
    [window] is taken to be [None], so [draw] returns at once; [print] is
    not modelled. *)
Record Triangulation2 : Type := mkTriangulation2 {
  vertices : list Vector2;
  indices : list (option nat);
  segments : list (nat * nat);
  triangles : list Triangle2
}.

Definition T2 (A : Type) : Type := M Triangulation2 A.

Definition set_vertices (l : list Vector2) : T2 unit :=
  fun s => (Ok tt, mkTriangulation2 l (indices s) (segments s) (triangles s)).

Definition set_indices (l : list (option nat)) : T2 unit :=
  fun s => (Ok tt, mkTriangulation2 (vertices s) l (segments s) (triangles s)).

Definition set_segments (l : list (nat * nat)) : T2 unit :=
  fun s => (Ok tt, mkTriangulation2 (vertices s) (indices s) l (triangles s)).

Definition set_triangles (l : list Triangle2) : T2 unit :=
  fun s => (Ok tt, mkTriangulation2 (vertices s) (indices s) (segments s) l).

(** [l[i] = a] on a Python list, [None] when [i] is out of range. *)
Fixpoint list_set {A : Type} (l : list A) (i : nat) (a : A) : option (list A) :=
  match l, i with
  | [], _ => None
  | _ :: tl, 0 => Some (a :: tl)
  | h :: tl, S j => option_map (cons h) (list_set tl j a)
  end.

(** [self.triangles[k]]. *)
Definition get_tri (k : nat) : T2 Triangle2 :=
  s <- get_state ;; need IndexError (nth_error (triangles s) k).

(** [self.triangles[k] = t] (all the fields of the object at index [k]). *)
Definition put_tri (k : nat) (t : Triangle2) : T2 unit :=
  s <- get_state ;;
  l <- need IndexError (list_set (triangles s) k t) ;;
  set_triangles l.

(** [self.triangles[k].v[i]]. *)
Definition get_v (k i : nat) : T2 (option nat) :=
  t <- get_tri k ;; need IndexError (tget (v t) i).

(** [self.triangles[k].n[i]]. *)
Definition get_n (k i : nat) : T2 nat :=
  t <- get_tri k ;; need IndexError (tget (n t) i).

(** [self.triangles[k].v[i] = a]. *)
Definition set_v (k i : nat) (a : option nat) : T2 unit :=
  t <- get_tri k ;;
  v' <- need IndexError (tset (v t) i a) ;;
  put_tri k (mkTriangle2 v' (n t)).

(** [self.triangles[k].n[i] = a]. *)
Definition set_n (k i : nat) (a : nat) : T2 unit :=
  t <- get_tri k ;;
  n' <- need IndexError (tset (n t) i a) ;;
  put_tri k (mkTriangle2 (v t) n').

(** [self.triangles.append(t)]. *)
Definition append_tri (t : Triangle2) : T2 unit :=
  s <- get_state ;; set_triangles (triangles s ++ [t]).

(** [len(self.triangles)]. *)
Definition num_triangles : T2 nat :=
  s <- get_state ;; ret (length (triangles s)).

(** [self.vertices[a]] where [a] may be [None]. *)
Definition get_vertex (a : option nat) : T2 Vector2 :=
  i <- need TypeError a ;;
  s <- get_state ;;
  need IndexError (nth_error (vertices s) i).

(** [__side]. *)
Definition side_idx (a b c : option nat) : T2 Orientation :=
  pa <- get_vertex a ;;
  pb <- get_vertex b ;;
  pc <- get_vertex c ;;
  ret (side pa pb pc).

(** [__in_circle]. *)
Definition in_circle_idx (t : nat) (d : Vector2) : T2 Position :=
  tr <- get_tri t ;;
  a <- get_vertex (s0 (v tr)) ;;
  b <- get_vertex (s1 (v tr)) ;;
  c <- get_vertex (s2 (v tr)) ;;
  ret (in_circle a b c d).

(** *** [__sort] *)

(** [enumerate(l)], counting from [i]. *)
Fixpoint enumerate_from {A : Type} (i : nat) (l : list A) : list (nat * A) :=
  match l with
  | [] => []
  | a :: tl => (i, a) :: enumerate_from (S i) tl
  end.

(** The sort key of [sorted(enumerate(self.vertices), key=...)]. *)
Definition sort_key (c : CutMethod) (vp : nat * Vector2) : num * num :=
  match c with
  | HORIZONTAL => (y (snd vp), x (snd vp))
  | _ => (x (snd vp), y (snd vp))
  end.

(** [k1 < k2] on two key tuples. *)
Definition key_ltb (k1 k2 : num * num) : bool :=
  (fst k1 <? fst k2)%num || ((fst k1 =? fst k2)%num && (snd k1 <? snd k2)%num).

(** [sorted] is stable: an item goes after the items whose key is not
    greater, in the order of arrival. *)
Fixpoint insert_stable (c : CutMethod) (e : nat * Vector2) (l : list (nat * Vector2))
  : list (nat * Vector2) :=
  match l with
  | [] => [e]
  | h :: tl =>
      if key_ltb (sort_key c e) (sort_key c h) then e :: l
      else h :: insert_stable c e tl
  end.

Definition sorted_enumerated (c : CutMethod) (l : list Vector2) : list (nat * Vector2) :=
  fold_left (fun acc e => insert_stable c e acc) (enumerate_from 0 l) [].

(** [for a in l: body(a)]. *)
Fixpoint for_each {S A : Type} (l : list A) (body : A -> M S unit) : M S unit :=
  match l with
  | [] => ret tt
  | a :: tl => body a ;; for_each tl body
  end.

(** The body of the loop that eliminates duplicates. *)
Definition dedup_step (iv : nat * Vector2) : T2 unit :=
  let (index, vertex) := iv in
  s <- get_state ;;
  last <- need IndexError (nth_error (vertices s) (length (vertices s) - 1)) ;;
  if py_eq last vertex then
    ind <- need IndexError (list_set (indices s) index (Some (length (vertices s) - 1))) ;;
    set_indices ind
  else
    ind <- need IndexError (list_set (indices s) index (Some (length (vertices s)))) ;;
    set_indices ind ;;
    set_vertices (vertices s ++ [vertex]).

(** The body of the loop that adjusts the segments. *)
Definition adjust_segment (old : nat * nat) : T2 unit :=
  s <- get_state ;;
  a <- need IndexError (nth_error (indices s) (fst old)) ;;
  b <- need IndexError (nth_error (indices s) (snd old)) ;;
  a' <- need TypeError a ;;
  b' <- need TypeError b ;;
  set_segments (segments s ++ [(Nat.min a' b', Nat.max a' b')]).

Definition sort (cut_method : CutMethod) : T2 unit :=
  s <- get_state ;;
  if length (vertices s) <? 2 then ret tt
  else
    let enumerated_vertices := sorted_enumerated cut_method (vertices s) in
    match enumerated_vertices with
    | [] => raise IndexError
    | (i0, v0) :: rest =>
        set_vertices [] ;;
        set_indices (repeat None (length enumerated_vertices)) ;;
        set_vertices [v0] ;;
        s1 <- get_state ;;
        ind <- need IndexError (list_set (indices s1) i0 (Some 0)) ;;
        set_indices ind ;;
        for_each rest dedup_step ;;
        match cut_method with
        | ALTERNATING => raise NotImplementedExc
        | _ =>
            s2 <- get_state ;;
            set_segments [] ;;
            for_each (segments s2) adjust_segment
        end
    end.

(** *** [__trivial_triangulation] *)

Definition Tri (a b c : option nat) (n0 n1 n2 : nat) : Triangle2 :=
  mkTriangle2 (mk3 a b c) (mk3 n0 n1 n2).

Definition trivial_triangulation (begin end_ : nat) : T2 (nat * nat * nat * nat) :=
  let num := end_ - begin in
  num_t <- num_triangles ;;
  if num <? 3 then
    append_tri (Tri (Some begin) (Some (begin + 1)) None (num_t + 1) (num_t + 1) (num_t + 1)) ;;
    append_tri (Tri (Some (begin + 1)) (Some begin) None num_t num_t num_t) ;;
    ret (num_t, num_t + 1, num_t + 1, num_t)
  else
    orientation <- side_idx (Some begin) (Some (begin + 1)) (Some (begin + 2)) ;;
    match orientation with
    | LEFT =>
        let end_pt := begin + 1 in
        let left_pt := begin + 2 in
        append_tri (Tri (Some begin) (Some end_pt) (Some left_pt) (num_t + 1) (num_t + 2) (num_t + 3)) ;;
        append_tri (Tri (Some end_pt) (Some begin) None num_t (num_t + 3) (num_t + 2)) ;;
        append_tri (Tri (Some left_pt) (Some end_pt) None num_t (num_t + 1) (num_t + 3)) ;;
        append_tri (Tri (Some begin) (Some left_pt) None num_t (num_t + 2) (num_t + 1)) ;;
        ret (num_t + 3, num_t + 1, num_t + 2, num_t + 3)
    | RIGHT =>
        let end_pt := begin + 2 in
        let left_pt := begin + 1 in
        append_tri (Tri (Some begin) (Some end_pt) (Some left_pt) (num_t + 1) (num_t + 2) (num_t + 3)) ;;
        append_tri (Tri (Some end_pt) (Some begin) None num_t (num_t + 3) (num_t + 2)) ;;
        append_tri (Tri (Some left_pt) (Some end_pt) None num_t (num_t + 1) (num_t + 3)) ;;
        append_tri (Tri (Some begin) (Some left_pt) None num_t (num_t + 2) (num_t + 1)) ;;
        ret (num_t + 3, num_t + 1, num_t + 1, num_t + 2)
    | CO_LINEAR =>
        append_tri (Tri (Some begin) (Some (begin + 1)) None (num_t + 1) (num_t + 2) (num_t + 1)) ;;
        append_tri (Tri (Some (begin + 1)) (Some begin) None num_t num_t (num_t + 3)) ;;
        append_tri (Tri (Some (begin + 1)) (Some (begin + 2)) None (num_t + 3) (num_t + 3) num_t) ;;
        append_tri (Tri (Some (begin + 2)) (Some (begin + 1)) None (num_t + 2) (num_t + 1) (num_t + 2)) ;;
        ret (num_t, num_t + 1, num_t + 3, num_t + 2)
    end.

(** *** [__merge_arbitrary] *)

(** The [if]/[elif] chain that picks the ghost to resurrect first:
    [(initial_tri, initial_v, initial_based_left, initial_opposite_tri,
    later_opposite_tri)], or [None] in the co-linear case. *)
Definition choose_initial (tri_l6 tri_l7 tri_r2 tri_r3 : nat)
    (lr_v lru_v lrd_v rl_v rlu_v rld_v : option nat)
  : T2 (option (nat * option nat * bool * nat * nat)) :=
  o1 <- side_idx lru_v lr_v rl_v ;;
  if Orientation_eqb o1 LEFT then ret (Some (tri_l7, rl_v, true, tri_r2, tri_r3))
  else
    o2 <- side_idx lrd_v lr_v rl_v ;;
    if Orientation_eqb o2 RIGHT then ret (Some (tri_l6, rl_v, true, tri_r2, tri_r3))
    else
      o3 <- side_idx lr_v rl_v rlu_v ;;
      if Orientation_eqb o3 LEFT then ret (Some (tri_r2, lr_v, false, tri_l7, tri_l6))
      else
        o4 <- side_idx lr_v rl_v rld_v ;;
        if Orientation_eqb o4 RIGHT then ret (Some (tri_r3, lr_v, false, tri_l7, tri_l6))
        else ret None.

(** The loop that stitches above the initial triangle. *)
Fixpoint stitch_up (fuel : nat) (based_left : bool) (current_tri opposite_tri : nat)
  : T2 unit :=
  match fuel with
  | 0 => raise OutOfFuel
  | S fuel' =>
      '(l_v, r_v, lg_tri, rg_tri, lu_v, ru_v, c_tri_neighbor) <-
        (if based_left then
           l_v <- get_v current_tri 0 ;;
           r_v <- get_v current_tri 2 ;;
           lg_tri <- get_n current_tri 2 ;;
           lu_v <- get_v lg_tri 0 ;;
           ru_v <- get_v opposite_tri 1 ;;
           ret (l_v, r_v, lg_tri, opposite_tri, lu_v, ru_v, 2)
         else
           l_v <- get_v current_tri 2 ;;
           r_v <- get_v current_tri 1 ;;
           rg_tri <- get_n current_tri 1 ;;
           lu_v <- get_v opposite_tri 0 ;;
           ru_v <- get_v rg_tri 1 ;;
           ret (l_v, r_v, opposite_tri, rg_tri, lu_v, ru_v, 1)) ;;
      o1 <- side_idx lu_v l_v r_v ;;
      if Orientation_eqb o1 LEFT then
        set_v lg_tri 2 r_v ;;
        set_n lg_tri 1 current_tri ;;
        set_n current_tri c_tri_neighbor lg_tri ;;
        stitch_up fuel' true lg_tri (if based_left then opposite_tri else rg_tri)
      else
        o2 <- side_idx ru_v r_v l_v ;;
        if Orientation_eqb o2 RIGHT then
          set_v rg_tri 2 l_v ;;
          set_n rg_tri 2 current_tri ;;
          set_n current_tri c_tri_neighbor rg_tri ;;
          stitch_up fuel' false rg_tri (if based_left then lg_tri else opposite_tri)
        else
          num_tri <- num_triangles ;;
          '(rg_tri', lg_tri') <-
            (if based_left then
               lg <- get_n current_tri 2 ;;
               set_n current_tri 2 num_tri ;;
               ret (opposite_tri, lg)
             else
               rg <- get_n current_tri 1 ;;
               set_n current_tri 1 num_tri ;;
               ret (rg, opposite_tri)) ;;
          set_n rg_tri' 2 num_tri ;;
          set_n lg_tri' 1 num_tri ;;
          append_tri (Tri l_v r_v None current_tri rg_tri' lg_tri')
  end.

(** The loop that stitches below the initial triangle. *)
Fixpoint stitch_down (fuel : nat) (based_left : bool) (current_tri opposite_tri : nat)
  : T2 unit :=
  match fuel with
  | 0 => raise OutOfFuel
  | S fuel' =>
      '(l_v, r_v, lg_tri, rg_tri, ld_v, rd_v, c_tri_neighbor) <-
        (if based_left then
           l_v <- get_v current_tri 1 ;;
           r_v <- get_v current_tri 2 ;;
           lg_tri <- get_n current_tri 1 ;;
           ld_v <- get_v lg_tri 1 ;;
           rd_v <- get_v opposite_tri 0 ;;
           ret (l_v, r_v, lg_tri, opposite_tri, ld_v, rd_v, 1)
         else
           l_v <- get_v current_tri 2 ;;
           r_v <- get_v current_tri 0 ;;
           rg_tri <- get_n current_tri 2 ;;
           ld_v <- get_v opposite_tri 1 ;;
           rd_v <- get_v rg_tri 0 ;;
           ret (l_v, r_v, opposite_tri, rg_tri, ld_v, rd_v, 2)) ;;
      o1 <- side_idx ld_v l_v r_v ;;
      if Orientation_eqb o1 RIGHT then
        set_v lg_tri 2 r_v ;;
        set_n lg_tri 2 current_tri ;;
        set_n current_tri c_tri_neighbor lg_tri ;;
        stitch_down fuel' true lg_tri (if based_left then opposite_tri else rg_tri)
      else
        o2 <- side_idx rd_v r_v l_v ;;
        if Orientation_eqb o2 LEFT then
          set_v rg_tri 2 l_v ;;
          set_n rg_tri 1 current_tri ;;
          set_n current_tri c_tri_neighbor rg_tri ;;
          stitch_down fuel' false rg_tri (if based_left then lg_tri else opposite_tri)
        else
          num_tri <- num_triangles ;;
          '(rg_tri', lg_tri') <-
            (if based_left then
               rg <- get_n current_tri 1 ;;
               set_n current_tri 1 num_tri ;;
               ret (rg, opposite_tri)
             else
               lg <- get_n current_tri 2 ;;
               set_n current_tri 2 num_tri ;;
               ret (opposite_tri, lg)) ;;
          set_n rg_tri' 2 num_tri ;;
          set_n lg_tri' 1 num_tri ;;
          append_tri (Tri r_v l_v None current_tri rg_tri' lg_tri')
  end.

Definition merge_arbitrary (fuel : nat) (tri_l6 tri_l7 tri_r2 tri_r3 : nat) : T2 unit :=
  num_t <- num_triangles ;;
  lr_v <- get_v tri_l6 0 ;;
  lru_v <- get_v tri_l7 0 ;;
  lrd_v <- get_v tri_l6 1 ;;
  rl_v <- get_v tri_r2 0 ;;
  rlu_v <- get_v tri_r2 1 ;;
  rld_v <- get_v tri_r3 0 ;;
  choice <- choose_initial tri_l6 tri_l7 tri_r2 tri_r3 lr_v lru_v lrd_v rl_v rlu_v rld_v ;;
  match choice with
  | None =>
      set_n tri_l7 1 (num_t + 0) ;;
      set_n tri_r2 2 (num_t + 0) ;;
      set_n tri_l6 2 (num_t + 1) ;;
      set_n tri_r3 1 (num_t + 1) ;;
      append_tri (Tri lr_v rl_v None (num_t + 1) tri_r2 tri_l7) ;;
      append_tri (Tri rl_v lr_v None (num_t + 0) tri_l6 tri_r3)
  | Some (initial_tri, initial_v, initial_based_left, initial_opposite_tri, later_opposite_tri) =>
      set_v initial_tri 2 initial_v ;;
      stitch_up fuel initial_based_left initial_tri initial_opposite_tri ;;
      stitch_down fuel initial_based_left initial_tri later_opposite_tri
  end.

(** *** [__find_ghosts] *)

(** One of the four [while] loops: the first step follows neighbour slot
    [first], the later ones slot [later]. *)
Fixpoint walk_to_ghost (fuel : nat) (first later : nat) (first_done : bool) (tri : nat)
  : T2 nat :=
  match fuel with
  | 0 => raise OutOfFuel
  | S fuel' =>
      v2 <- get_v tri 2 ;;
      match v2 with
      | None => ret tri
      | Some _ =>
          next <- get_n tri (if first_done then later else first) ;;
          walk_to_ghost fuel' first later true next
      end
  end.

Definition find_ghosts (fuel : nat) (tri_l2 tri_l3 tri_r6 tri_r7 : nat)
  : T2 (nat * nat * nat * nat) :=
  t2 <- walk_to_ghost fuel 2 1 false tri_l2 ;;
  t3 <- walk_to_ghost fuel 1 2 false tri_l3 ;;
  t6 <- walk_to_ghost fuel 2 1 false tri_r6 ;;
  t7 <- walk_to_ghost fuel 1 2 false tri_r7 ;;
  ret (t2, t3, t6, t7).

(** *** [__divide_and_conquer] and [triangulate]

    [lf] bounds each [while] loop of a merge, [fuel] the depth of the
    recursion. *)
Fixpoint divide_and_conquer (lf fuel : nat) (begin end_ : nat)
  : T2 (nat * nat * nat * nat) :=
  match fuel with
  | 0 => raise OutOfFuel
  | S fuel' =>
      if end_ - begin <? 4 then trivial_triangulation begin end_
      else
        let divider := Nat.shiftr (end_ - begin) 1 + begin in
        '(tri_l2, tri_l3, tri_l6, tri_l7) <- divide_and_conquer lf fuel' begin divider ;;
        '(tri_r2, tri_r3, tri_r6, tri_r7) <- divide_and_conquer lf fuel' divider end_ ;;
        merge_arbitrary lf tri_l6 tri_l7 tri_r2 tri_r3 ;;
        find_ghosts lf tri_l2 tri_l3 tri_r6 tri_r7
  end.

Definition triangulate (fuel : nat) (merge_method : MergeMethod) (cut_method : CutMethod)
  : T2 unit :=
  set_triangles [] ;;
  match merge_method with
  | FLIP | DELAUNAY => raise NotImplementedExc
  | ARBITRARY =>
      match cut_method with
      | HORIZONTAL | ALTERNATING => raise NotImplementedExc
      | VERTICAL =>
          sort cut_method ;;
          s <- get_state ;;
          if length (vertices s) <? 2 then ret tt
          else
            divide_and_conquer fuel fuel 0 (length (vertices s)) ;;
            ret tt
      end
  end.

(** *** [enforce_delaunay] *)

(** An item of [edge_queue]: the edge [(min, max)], the index of a triangle
    and the slot of the edge in it. *)
Definition entry : Type := (nat * nat) * nat * nat.

Definition edge_eqb (e1 e2 : nat * nat) : bool :=
  Nat.eqb (fst e1) (fst e2) && Nat.eqb (snd e1) (snd e2).

(** [edge = (a, b); edge = (min(edge), max(edge))]: [min] raises on [None]. *)
Definition canon {S : Type} (a b : option nat) : M S (nat * nat) :=
  a' <- need TypeError a ;;
  b' <- need TypeError b ;;
  ret (Nat.min a' b', Nat.max a' b').

(** The edge of [t] that begins at slot [i], as [(min, max)]. *)
Definition edge_at {S : Type} (t : Triangle2) (i : nat) : M S (nat * nat) :=
  a <- need IndexError (tget (v t) i) ;;
  b <- need IndexError (tget (v t) ((i + 1) mod 3)) ;;
  canon a b.

(** The inner [for n_i in range(3)] of the seeding loop, on the pair
    [(edge_set, edge_queue)]. *)
Definition seed_slot (t_i : nat) (t : Triangle2) (acc : list (nat * nat) * list entry)
    (n_i : nat) : T2 (list (nat * nat) * list entry) :=
  nb <- need IndexError (tget (n t) n_i) ;;
  tn <- get_tri nb ;;
  if is_ghost tn then ret acc
  else
    edge <- edge_at t n_i ;;
    if existsb (edge_eqb edge) (fst acc) then ret acc
    else ret (edge :: fst acc, snd acc ++ [(edge, t_i, n_i)]).

Definition seed_triangle (acc : list (nat * nat) * list entry) (it : nat * Triangle2)
  : T2 (list (nat * nat) * list entry) :=
  let (t_i, t) := it in
  if is_ghost t then ret acc
  else
    acc0 <- seed_slot t_i t acc 0 ;;
    acc1 <- seed_slot t_i t acc0 1 ;;
    seed_slot t_i t acc1 2.

Fixpoint fold_m {S A B : Type} (f : A -> B -> M S A) (l : list B) (a : A) : M S A :=
  match l with
  | [] => ret a
  | b :: tl => a' <- f a b ;; fold_m f tl a'
  end.

(** The queue after the seeding loop. *)
Definition seed_queue : T2 (list entry) :=
  s <- get_state ;;
  acc <- fold_m seed_triangle (enumerate_from 0 (triangles s)) ([], []) ;;
  ret (snd acc).

(** The loop that looks for the slot of [edge_i] in [triangle_j]. *)
Definition find_slot (triangle_j : Triangle2) (edge_i : nat * nat) : T2 (option nat) :=
  e0 <- edge_at triangle_j 0 ;;
  if edge_eqb edge_i e0 then ret (Some 0)
  else
    e1 <- edge_at triangle_j 1 ;;
    if edge_eqb edge_i e1 then ret (Some 1)
    else
      e2 <- edge_at triangle_j 2 ;;
      if edge_eqb edge_i e2 then ret (Some 2)
      else ret None.

(** [for i, n in enumerate(tri.n): if n == old: tri.n[i] = new; break],
    on the triangle at index [k]. *)
Definition repoint (k old new : nat) : T2 unit :=
  t <- get_tri k ;;
  if Nat.eqb (s0 (n t)) old then set_n k 0 new
  else if Nat.eqb (s1 (n t)) old then set_n k 1 new
  else if Nat.eqb (s2 (n t)) old then set_n k 2 new
  else ret tt.

(** One of the four pushes after a flip: the edge of [k] between the
    slots [a] and [b] of its vertices, queued at slot [slot] when the
    triangle [outer] exists. *)
Definition push_edge (outer k a b slot : nat) : T2 (list entry) :=
  o <- get_tri outer ;;
  if is_ghost o then ret []
  else
    t <- get_tri k ;;
    va <- need IndexError (tget (v t) a) ;;
    vb <- need IndexError (tget (v t) b) ;;
    edge <- canon va vb ;;
    ret [(edge, k, slot)].

(** The flip of the edge at slot [t_n_index_i] of [t_index_i]; the result
    is what is appended to the queue. *)
Definition flip (edge : nat * nat) (t_index_i t_n_index_i t_index_j t_n_index_j : nat)
    (triangle_i triangle_j : Triangle2) (v_index_i v_index_j : option nat)
  : T2 (list entry) :=
  t_index_i1 <- need IndexError (tget (n triangle_i) ((t_n_index_i + 1) mod 3)) ;;
  t_index_i2 <- need IndexError (tget (n triangle_i) ((t_n_index_i + 2) mod 3)) ;;
  t_index_j1 <- need IndexError (tget (n triangle_j) ((t_n_index_j + 1) mod 3)) ;;
  t_index_j2 <- need IndexError (tget (n triangle_j) ((t_n_index_j + 2) mod 3)) ;;
  get_tri t_index_i1 ;;
  get_tri t_index_i2 ;;
  get_tri t_index_j1 ;;
  get_tri t_index_j2 ;;
  repoint t_index_i1 t_index_i t_index_j ;;
  repoint t_index_j1 t_index_j t_index_i ;;
  ti <- get_tri t_index_i ;;
  put_tri t_index_i (mkTriangle2 (v ti) (mk3 t_index_j t_index_i2 t_index_j1)) ;;
  tj <- get_tri t_index_j ;;
  put_tri t_index_j (mkTriangle2 (v tj) (mk3 t_index_i t_index_j2 t_index_i1)) ;;
  ti' <- get_tri t_index_i ;;
  va <- need IndexError (tget (v ti') t_n_index_i) ;;
  let '(ci, cj) :=
    match va with
    | Some a => if Nat.eqb a (fst edge) then (fst edge, snd edge) else (snd edge, fst edge)
    | None => (snd edge, fst edge)
    end in
  put_tri t_index_i (mkTriangle2 (mk3 v_index_j v_index_i (Some ci)) (n ti')) ;;
  tj' <- get_tri t_index_j ;;
  put_tri t_index_j (mkTriangle2 (mk3 v_index_i v_index_j (Some cj)) (n tj')) ;;
  q1 <- push_edge t_index_i2 t_index_i 1 2 1 ;;
  q2 <- push_edge t_index_j1 t_index_i 0 2 2 ;;
  q3 <- push_edge t_index_j2 t_index_j 1 2 1 ;;
  q4 <- push_edge t_index_i1 t_index_j 0 2 2 ;;
  ret (q1 ++ q2 ++ q3 ++ q4).

(** The body of the [while] loop for one popped item; the result is what
    the iteration appends to the queue. *)
Definition flip_step (e : entry) : T2 (list entry) :=
  let '(edge, t_index_i, t_n_index_i) := e in
  triangle_i <- get_tri t_index_i ;;
  if is_ghost triangle_i then ret []
  else
    edge_i <- edge_at triangle_i t_n_index_i ;;
    if negb (edge_eqb edge edge_i) then ret []
    else
      t_index_j <- need IndexError (tget (n triangle_i) t_n_index_i) ;;
      triangle_j <- get_tri t_index_j ;;
      found <- find_slot triangle_j edge_i ;;
      match found with
      | None => raise MissingIndexExc
      | Some t_n_index_j =>
          v_index_i <- need IndexError (tget (v triangle_i) ((t_n_index_i + 2) mod 3)) ;;
          v_index_j <- need IndexError (tget (v triangle_j) ((t_n_index_j + 2) mod 3)) ;;
          vertex_j <- get_vertex v_index_j ;;
          pos <- in_circle_idx t_index_i vertex_j ;;
          if Position_eqb pos INSIDE then
            flip edge t_index_i t_n_index_i t_index_j t_n_index_j
                 triangle_i triangle_j v_index_i v_index_j
          else ret []
      end.

(** [while len(edge_queue) > 0], at most [fuel] iterations. *)
Fixpoint flip_loop (fuel : nat) (queue : list entry) : T2 unit :=
  match queue with
  | [] => ret tt
  | e :: rest =>
      match fuel with
      | 0 => raise OutOfFuel
      | S fuel' =>
          new <- flip_step e ;;
          flip_loop fuel' (rest ++ new)
      end
  end.

Definition enforce_delaunay (fuel : nat) : T2 unit :=
  queue <- seed_queue ;;
  flip_loop fuel queue.

End Engine.

(** Python's [int]: every operation is exact. *)
#[global] Instance py_int : Number :=
  {| num := Z; n_zero := 0%Z; n_add := Z.add; n_sub := Z.sub; n_mul := Z.mul;
     n_lt := Z.ltb; n_eq := Z.eqb |}.

(** Python's [float]: the operations of IEEE binary64. *)
Definition py_float : Number :=
  {| num := float; n_zero := 0%float; n_add := PrimFloat.add; n_sub := PrimFloat.sub;
     n_mul := PrimFloat.mul; n_lt := PrimFloat.ltb; n_eq := PrimFloat.eqb |}.

Bind Scope Z_scope with num.

Arguments area {N} a b c : simpl never.
Arguments in_circle_det {N} a b c d : simpl never.


(** ** Python floats *)

(** A computation that may raise and touches no state. *)
Definition rbind {A B : Type} (r : res A) (k : A -> res B) : res B :=
  match r with
  | Ok a => k a
  | Raise e => Raise e
  end.

Definition lift {S A : Type} (r : res A) : M S A := fun s => (r, s).

Module PyFloat.

(** [a / b]: Python raises on a zero divisor (of either sign). *)
Definition div (a b : float) : res float :=
  if PrimFloat.eqb b 0%float then Raise ZeroDivisionError
  else Ok (PrimFloat.div a b).

(** [math.sqrt(a)]: a math domain error on a negative argument. *)
Definition sqrt (a : float) : res float :=
  if PrimFloat.ltb a 0%float then Raise ValueError
  else Ok (PrimFloat.sqrt a).

(** [float(b)] for a [bool]. *)
Definition of_bool (b : bool) : float := if b then 1%float else 0%float.

End PyFloat.

(** ** vector3.py *)

Module Vector3.

Record Vector3 : Type := mk { x : float; y : float; z : float }.

Definition clone (a : Vector3) : Vector3 := mk (x a) (y a) (z a).

Definition negated (a : Vector3) : Vector3 :=
  mk (PrimFloat.opp (x a)) (PrimFloat.opp (y a)) (PrimFloat.opp (z a)).

Definition plus (a b : Vector3) : Vector3 :=
  mk (x a + x b) (y a + y b) (z a + z b)%float.

Definition minus (a b : Vector3) : Vector3 :=
  mk (x a - x b) (y a - y b) (z a - z b)%float.

Definition times (a : Vector3) (k : float) : Vector3 :=
  mk (x a * k) (y a * k) (z a * k)%float.

Definition divide (a : Vector3) (k : float) : res Vector3 :=
  rbind (PyFloat.div (x a) k) (fun qx =>
  rbind (PyFloat.div (y a) k) (fun qy =>
  rbind (PyFloat.div (z a) k) (fun qz =>
  Ok (mk qx qy qz)))).

Definition dot (a b : Vector3) : float :=
  (x a * x b + y a * y b + z a * z b)%float.

Definition lerp (a b : Vector3) (t : float) : Vector3 :=
  plus a (times (minus b a) t).

Definition length (a : Vector3) : res float := PyFloat.sqrt (dot a a).

Definition distance (a b : Vector3) : res float := length (minus a b).

Definition unit (a : Vector3) : res Vector3 :=
  rbind (length a) (fun l => divide a l).

Definition projection (a b : Vector3) : Vector3 := times a (dot b a).

Definition equivalent (a b : Vector3) (epsilon : float) : res bool :=
  rbind (distance a b) (fun d => Ok (PrimFloat.ltb d epsilon)).

Definition cross (a b : Vector3) : Vector3 :=
  mk (y a * z b - z a * y b) (z a * x b - x a * z b) (x a * y b - y a * x b)%float.

End Vector3.

(** ** plane3.py *)

Module Plane3.

Record Plane3 : Type := mk { normal : Vector3.Vector3; w : float }.

(** The default [epsilon] of [coplanar] and [equivalent]: the float
    [0.000001]. *)
Definition default_epsilon : float := 0x1.0c6f7a0b5ed8dp-20%float.

Definition clone (p : Plane3) : Plane3 := mk (Vector3.clone (normal p)) (w p).

Definition flipped (p : Plane3) : Plane3 :=
  mk (Vector3.negated (normal p)) (PrimFloat.opp (w p)).

Definition distance (p : Plane3) (vector : Vector3.Vector3) : float :=
  (Vector3.dot (normal p) vector - w p)%float.

Definition coplanar (p : Plane3) (vector : Vector3.Vector3) (epsilon : float) : bool :=
  PrimFloat.ltb (distance p vector) epsilon.

Definition equivalent (p other : Plane3) (epsilon : float) : res bool :=
  rbind (Vector3.equivalent (normal p) (normal other) default_epsilon) (fun e =>
  if e then Ok (PrimFloat.ltb (PrimFloat.abs (w p - w other)%float) epsilon)
  else Ok false).

Definition from_points (a b c : Vector3.Vector3) : res Plane3 :=
  rbind (Vector3.unit (Vector3.cross (Vector3.minus b a) (Vector3.minus c a)))
        (fun normal => Ok (mk normal (Vector3.dot normal a))).

End Plane3.

(** ** bsp3.py

    Polygons are objects that are shared between lists and flipped in
    place, so they live in a heap and lists hold references to them.  A
    polygon object owns its vertex list and its plane: the module builds a
    fresh list and a fresh plane for every polygon it constructs.  Vertices
    are never mutated ([BSPVertex3.flip] does nothing), so they are values.
    Tree nodes are owned by their parent; a node is a value whose polygon
    list holds references. *)

Module BSP.

Record BSPVertex3 : Type := mkVertex { pos : Vector3.Vector3 }.

(** [BSPVertex3(pos)] copies the coordinates. *)
Definition new_vertex (p : Vector3.Vector3) : BSPVertex3 :=
  mkVertex (Vector3.mk (Vector3.x p) (Vector3.y p) (Vector3.z p)).

Definition vertex_clone (a : BSPVertex3) : BSPVertex3 :=
  new_vertex (Vector3.clone (pos a)).

Definition vertex_interpolate (a other : BSPVertex3) (t : float) : BSPVertex3 :=
  new_vertex (Vector3.lerp (pos a) (pos other) t).

Record BSPPlane3 : Type := mkPlane { normal : Vector3.Vector3; w : float }.

(** [BSPPlane3.EPSILON]: the float [1.e-5]. *)
Definition EPSILON : float := 0x1.4f8b588e368f1p-17%float.

Definition plane_clone (p : BSPPlane3) : BSPPlane3 :=
  mkPlane (Vector3.clone (normal p)) (w p).

(** What [BSPPlane3.flip] leaves in the plane object. *)
Definition plane_flip (p : BSPPlane3) : BSPPlane3 :=
  mkPlane (Vector3.negated (normal p)) (PrimFloat.opp (w p)).

Definition plane_from_points (a b c : Vector3.Vector3) : res BSPPlane3 :=
  rbind (Vector3.unit (Vector3.cross (Vector3.minus b a) (Vector3.minus c a)))
        (fun n => Ok (mkPlane n (Vector3.dot n a))).

(** The opaque [shared] tag of a polygon: [None] or some object. *)
Definition tag : Type := option nat.

(** A polygon object. *)
Record BSPPolygon3 : Type := mkPolygon {
  vertices : list BSPVertex3;
  shared : tag;
  plane : BSPPlane3
}.

Definition ref : Type := nat.

(** The polygon objects, by address. *)
Definition heap : Type := list BSPPolygon3.

Definition H (A : Type) : Type := M heap A.

(** The object behind a reference. *)
Definition deref (r : ref) : H BSPPolygon3 :=
  h <- get_state ;; need IndexError (nth_error h r).

(** Overwrites the object behind a reference. *)
Definition store (r : ref) (p : BSPPolygon3) : H unit :=
  h <- get_state ;;
  h' <- need IndexError (list_set h r p) ;;
  put_state h'.

(** A new object. *)
Definition alloc (p : BSPPolygon3) : H ref :=
  h <- get_state ;;
  put_state (h ++ [p]) ;;
  ret (Datatypes.length h).

(** The plane that the constructor of a polygon computes:
    [BSPPlane3.from_points(vertices[0].pos, vertices[1].pos, vertices[2].pos)]. *)
Definition polygon_plane (vs : list BSPVertex3) : res BSPPlane3 :=
  match vs with
  | v0 :: v1 :: v2 :: _ => plane_from_points (pos v0) (pos v1) (pos v2)
  | _ => Raise IndexError
  end.

(** [BSPPolygon3(vertices, shared)]. *)
Definition new_polygon (vs : list BSPVertex3) (sh : tag) : H ref :=
  pl <- lift (polygon_plane vs) ;;
  alloc (mkPolygon vs sh pl).

(** [BSPPolygon3.clone]. *)
Definition polygon_clone (r : ref) : H ref :=
  p <- deref r ;;
  new_polygon (map vertex_clone (vertices p)) (shared p).

(** [BSPPolygon3.flip]. *)
Definition polygon_flip (r : ref) : H unit :=
  p <- deref r ;;
  store r (mkPolygon (rev (vertices p)) (shared p) (plane_flip (plane p))).

(** [[f(a) for a in l]]. *)
Fixpoint map_m {S A B : Type} (f : A -> M S B) (l : list A) : M S (list B) :=
  match l with
  | [] => ret []
  | a :: tl => b <- f a ;; bs <- map_m f tl ;; ret (b :: bs)
  end.

(** *** [BSPPlane3.split_polygon] *)

Definition coplanar_type : nat := 0.
Definition front_type : nat := 1.
Definition back_type : nat := 2.
Definition spanning_type : nat := 3.

(** The type of one vertex against the plane. *)
Definition vertex_type (pl : BSPPlane3) (a : BSPVertex3) : nat :=
  let t := (Vector3.dot (normal pl) (pos a) - w pl)%float in
  if PrimFloat.ltb t (PrimFloat.opp EPSILON) then back_type
  else if PrimFloat.ltb EPSILON t then front_type
  else coplanar_type.

(** The body of the loop over the edges of a spanning polygon: what it
    appends to [f] and to [b] for the edge from [vi] to [vj]. *)
Definition split_edge (pl : BSPPlane3) (ti tj : nat) (vi vj : BSPVertex3)
  : res (list BSPVertex3 * list BSPVertex3) :=
  let f1 := if Nat.eqb ti back_type then [] else [vi] in
  let b1 := if Nat.eqb ti front_type then []
            else if Nat.eqb ti back_type then [vi] else [vertex_clone vi] in
  if Nat.eqb (Nat.lor ti tj) spanning_type then
    rbind (PyFloat.div (w pl - Vector3.dot (normal pl) (pos vi))%float
                       (Vector3.dot (normal pl) (Vector3.minus (pos vj) (pos vi))))
          (fun t =>
             let vn := vertex_interpolate vi vj t in
             Ok (f1 ++ [vn], b1 ++ [vertex_clone vn]))
  else Ok (f1, b1).

(** The loop [for i in range(num_vertices)] of the spanning case, from
    index [i] on, with [f] and [b] as they are so far. *)
Fixpoint split_edges (pl : BSPPlane3) (vs : list BSPVertex3) (types : list nat)
    (count i : nat) (f b : list BSPVertex3) : res (list BSPVertex3 * list BSPVertex3) :=
  match count with
  | 0 => Ok (f, b)
  | S count' =>
      let j := (i + 1) mod Datatypes.length vs in
      match nth_error types i, nth_error types j, nth_error vs i, nth_error vs j with
      | Some ti, Some tj, Some vi, Some vj =>
          rbind (split_edge pl ti tj vi vj) (fun fb =>
          split_edges pl vs types count' (S i) (f ++ fst fb) (b ++ snd fb))
      | _, _, _, _ => Raise IndexError
      end
  end.

(** What one call appends to each of its four output lists. *)
Record routed : Type := mkRouted {
  to_coplanar_front : list ref;
  to_coplanar_back : list ref;
  to_front : list ref;
  to_back : list ref
}.

Definition split_polygon (pl : BSPPlane3) (polygon : ref) : H routed :=
  p <- deref polygon ;;
  let types := map (vertex_type pl) (vertices p) in
  let polygon_type := fold_left Nat.lor types 0 in
  if Nat.eqb polygon_type coplanar_type then
    if PrimFloat.ltb 0%float (Vector3.dot (normal pl) (normal (plane p)))
    then ret (mkRouted [polygon] [] [] [])
    else ret (mkRouted [] [polygon] [] [])
  else if Nat.eqb polygon_type front_type then ret (mkRouted [] [] [polygon] [])
  else if Nat.eqb polygon_type back_type then ret (mkRouted [] [] [] [polygon])
  else if Nat.eqb polygon_type spanning_type then
    fb <- lift (split_edges pl (vertices p) types (Datatypes.length (vertices p)) 0 [] []) ;;
    fr <- (if 3 <=? Datatypes.length (fst fb)
           then r <- new_polygon (fst fb) (shared p) ;; ret [r]
           else ret []) ;;
    bk <- (if 3 <=? Datatypes.length (snd fb)
           then r <- new_polygon (snd fb) (shared p) ;; ret [r]
           else ret []) ;;
    ret (mkRouted [] [] fr bk)
  else ret (mkRouted [] [] [] []).

(** *** [BSPNode3] *)

Inductive BSPNode3 : Type :=
| Node (node_plane : option BSPPlane3) (front back : option BSPNode3)
       (polygons : list ref).

Definition node_plane (nd : BSPNode3) : option BSPPlane3 :=
  match nd with Node p _ _ _ => p end.
Definition front (nd : BSPNode3) : option BSPNode3 :=
  match nd with Node _ f _ _ => f end.
Definition back (nd : BSPNode3) : option BSPNode3 :=
  match nd with Node _ _ b _ => b end.
Definition polygons (nd : BSPNode3) : list ref :=
  match nd with Node _ _ _ l => l end.

(** [BSPNode3()]. *)
Definition empty_node : BSPNode3 := Node None None None [].

(** [BSPNode3.invert]. *)
Fixpoint invert (nd : BSPNode3) : H BSPNode3 :=
  match nd with
  | Node pl fr bk ps =>
      for_each ps polygon_flip ;;
      let pl' := option_map plane_flip pl in
      fr' <- match fr with
             | Some f => f' <- invert f ;; ret (Some f')
             | None => ret None
             end ;;
      bk' <- match bk with
             | Some b => b' <- invert b ;; ret (Some b')
             | None => ret None
             end ;;
      ret (Node pl' bk' fr' ps)
  end.

(** The loop of [clip_polygons]: [split_polygon(polygon, front, back,
    front, back)] for every polygon, on the pair [(front, back)]. *)
Fixpoint clip_split (pl : BSPPlane3) (ps : list ref) (fr bk : list ref)
  : H (list ref * list ref) :=
  match ps with
  | [] => ret (fr, bk)
  | p :: tl =>
      r <- split_polygon pl p ;;
      clip_split pl tl (fr ++ to_coplanar_front r ++ to_front r)
                       (bk ++ to_coplanar_back r ++ to_back r)
  end.

(** [BSPNode3.clip_polygons]. *)
Fixpoint clip_polygons (nd : BSPNode3) (ps : list ref) : H (list ref) :=
  match nd with
  | Node None _ _ _ => ret ps
  | Node (Some pl) fr bk _ =>
      '(f, b) <- clip_split pl ps [] [] ;;
      f' <- match fr with
            | Some n => clip_polygons n f
            | None => ret f
            end ;;
      b' <- match bk with
            | Some n => clip_polygons n b
            | None => ret []
            end ;;
      ret (f' ++ b')
  end.

(** [BSPNode3.clip_to]. *)
Fixpoint clip_to (nd bsp : BSPNode3) : H BSPNode3 :=
  match nd with
  | Node pl fr bk ps =>
      ps' <- clip_polygons bsp ps ;;
      fr' <- match fr with
             | Some f => f' <- clip_to f bsp ;; ret (Some f')
             | None => ret None
             end ;;
      bk' <- match bk with
             | Some b => b' <- clip_to b bsp ;; ret (Some b')
             | None => ret None
             end ;;
      ret (Node pl fr' bk' ps')
  end.

(** [BSPNode3.all_polygons]. *)
Fixpoint all_polygons (nd : BSPNode3) : list ref :=
  match nd with
  | Node _ fr bk ps =>
      ps ++ match fr with Some f => all_polygons f | None => [] end
         ++ match bk with Some b => all_polygons b | None => [] end
  end.

(** The loop of [build]: [split_polygon(polygon, self.polygons,
    self.polygons, front, back)] for every polygon, on the triple
    [(self.polygons, front, back)]. *)
Fixpoint build_split (pl : BSPPlane3) (ps : list ref) (own fr bk : list ref)
  : H (list ref * list ref * list ref) :=
  match ps with
  | [] => ret (own, fr, bk)
  | p :: tl =>
      r <- split_polygon pl p ;;
      build_split pl tl (own ++ to_coplanar_front r ++ to_coplanar_back r)
                        (fr ++ to_front r) (bk ++ to_back r)
  end.

(** [BSPNode3.build], at most [fuel] nested calls. *)
Fixpoint build_fuel (fuel : nat) (nd : BSPNode3) (ps : list ref) : H BSPNode3 :=
  match ps with
  | [] => ret nd
  | p0 :: rest =>
      match fuel with
      | 0 => raise OutOfFuel
      | S fuel' =>
          match nd with
          | Node pl fr bk own =>
              pl' <- match pl with
                     | Some q => ret q
                     | None => p <- deref p0 ;; ret (plane_clone (plane p))
                     end ;;
              '(own', f, b) <- build_split pl' rest (own ++ [p0]) [] [] ;;
              fr' <- match f with
                     | [] => ret fr
                     | _ :: _ =>
                         n' <- build_fuel fuel'
                                 (match fr with Some n => n | None => empty_node end) f ;;
                         ret (Some n')
                     end ;;
              bk' <- match b with
                     | [] => ret bk
                     | _ :: _ =>
                         n' <- build_fuel fuel'
                                 (match bk with Some n => n | None => empty_node end) b ;;
                         ret (Some n')
                     end ;;
              ret (Node (Some pl') fr' bk' own')
          end
      end
  end.

(** A list of [k] polygons needs at most [k] nested calls: each call keeps
    the first polygon and hands at most one piece of every other polygon
    to each side. *)
Definition build (nd : BSPNode3) (ps : list ref) : H BSPNode3 :=
  build_fuel (Datatypes.length ps) nd ps.

(** [BSPNode3(polygons)]. *)
Definition new_node (ps : list ref) : H BSPNode3 := build empty_node ps.

(** *** [BSP3] *)

(** A [BSP3] object: its list of polygons. *)
Definition BSP3 : Type := list ref.

Definition from_polygons (ps : list ref) : BSP3 := ps.

Definition clone (self : BSP3) : H BSP3 := map_m polygon_clone self.

Definition union (self bsp : BSP3) : H BSP3 :=
  ca <- clone self ;;
  a <- new_node ca ;;
  cb <- clone bsp ;;
  b <- new_node cb ;;
  a <- clip_to a b ;;
  b <- clip_to b a ;;
  b <- invert b ;;
  b <- clip_to b a ;;
  b <- invert b ;;
  a <- build a (all_polygons b) ;;
  ret (from_polygons (all_polygons a)).

Definition subtract (self bsp : BSP3) : H BSP3 :=
  ca <- clone self ;;
  a <- new_node ca ;;
  cb <- clone bsp ;;
  b <- new_node cb ;;
  a <- invert a ;;
  a <- clip_to a b ;;
  b <- clip_to b a ;;
  b <- invert b ;;
  b <- clip_to b a ;;
  b <- invert b ;;
  a <- build a (all_polygons b) ;;
  a <- invert a ;;
  ret (from_polygons (all_polygons a)).

Definition intersect (self bsp : BSP3) : H BSP3 :=
  ca <- clone self ;;
  a <- new_node ca ;;
  cb <- clone bsp ;;
  b <- new_node cb ;;
  a <- invert a ;;
  b <- clip_to b a ;;
  b <- invert b ;;
  a <- clip_to a b ;;
  b <- clip_to b a ;;
  a <- build a (all_polygons b) ;;
  a <- invert a ;;
  ret (from_polygons (all_polygons a)).

Definition inverse (self : BSP3) : H BSP3 :=
  bsp <- clone self ;;
  for_each bsp polygon_flip ;;
  ret bsp.

End BSP.

(** ** Vocabulary of the statements about the triangulation *)

Definition count_ghosts (l : list Triangle2) : nat :=
  length (filter is_ghost l).

Definition count_existent (l : list Triangle2) : nat :=
  length (filter (fun t => negb (is_ghost t)) l).

(** The ghost [g] lies across the edge at slot [i] of the triangle [t]
    stored at index [k]: it carries the reverse directed edge and its
    neighbour 0 is [k]. *)
Definition ghost_across (g : Triangle2) (k : nat) (t : Triangle2) (i : nat) : Prop :=
  is_ghost g = true /\
  s0 (n g) = k /\
  tget (v t) i = Some (s1 (v g)) /\
  tget (v t) ((i + 1) mod 3) = Some (s0 (v g)).

(** A merge or cut method that [triangulate] does not implement. *)
Definition unsupported (m : MergeMethod) (c : CutMethod) : bool :=
  match m, c with
  | ARBITRARY, VERTICAL => false
  | _, _ => true
  end.

(** A computation that never raises the NOT IMPLEMENTED exception. *)
Definition never_ni {S A : Type} (m : M S A) : Prop :=
  forall s, fst (m s) <> Raise NotImplementedExc.

(** ** Vocabulary of the statements about the 3D code *)

(** What the band test |n.p - w| < epsilon would answer. *)
Definition in_band (p : Plane3.Plane3) (vector : Vector3.Vector3) (epsilon : float) : bool :=
  PrimFloat.ltb (PrimFloat.abs (Plane3.distance p vector)) epsilon.

Definition is_ok {A : Type} (r : res A) : bool :=
  match r with
  | Ok _ => true
  | Raise _ => false
  end.

(** What is observed of a polygon: the positions of its vertices, in
    order, and its shared tag. *)
Definition polygon_view (p : BSP.BSPPolygon3) : list Vector3.Vector3 * BSP.tag :=
  (map BSP.pos (BSP.vertices p), BSP.shared p).

(** The polygons of a [BSP3], in order, as they are in the heap. *)
Definition bsp_view (h : BSP.heap) (a : BSP.BSP3) : list (option (list Vector3.Vector3 * BSP.tag)) :=
  map (fun r => option_map polygon_view (nth_error h r)) a.

(** The polygon behind [r] can be cloned as it is and again once it is
    flipped: the constructor finds a plane for both vertex orders. *)
Definition twice_clonable (h : BSP.heap) (r : BSP.ref) : Prop :=
  exists p, nth_error h r = Some p /\
            is_ok (BSP.polygon_plane (BSP.vertices p)) = true /\
            is_ok (BSP.polygon_plane (rev (BSP.vertices p))) = true.

(** The computation [m], run on a heap that holds at least [b] objects,
    leaves the first [b] objects as they are, removes nothing, and its
    result, if there is one, satisfies [post]. *)
Definition keeps (b : nat) {A : Type} (m : BSP.H A) (post : A -> Prop) : Prop :=
  forall h, b <= length h ->
    length h <= length (snd (m h)) /\
    firstn b (snd (m h)) = firstn b h /\
    (forall a, fst (m h) = Ok a -> post a).

(** Every reference is to an object at address [b] or above. *)
Definition fresh (b : nat) (l : list BSP.ref) : Prop := Forall (fun r => b <= r) l.

Definition node_fresh (b : nat) (nd : BSP.BSPNode3) : Prop := fresh b (BSP.all_polygons nd).

Definition routed_fresh (b : nat) (r : BSP.routed) : Prop :=
  fresh b (BSP.to_coplanar_front r) /\ fresh b (BSP.to_coplanar_back r) /\
  fresh b (BSP.to_front r) /\ fresh b (BSP.to_back r).

(** What [BSPPolygon3.flip] leaves in the polygon object. *)
Definition flipped (p : BSP.BSPPolygon3) : BSP.BSPPolygon3 :=
  BSP.mkPolygon (rev (BSP.vertices p)) (BSP.shared p) (BSP.plane_flip (BSP.plane p)).

(** Two polygons in the plane z = 0, given by the coordinates of their
    vertices: a triangle, and a four-vertex ring whose last three vertices
    lie on one line. *)
Definition ring_of (l : list (float * float * float)) : list BSP.BSPVertex3 :=
  map (fun c => BSP.new_vertex (Vector3.mk (fst (fst c)) (snd (fst c)) (snd c))) l.

Definition triangle_ring : list BSP.BSPVertex3 :=
  ring_of [(0, 0, 0); (1, 0, 0); (0, 1, 0)]%float.

Definition flat_end_ring : list BSP.BSPVertex3 :=
  ring_of [(0, 1, 0); (0, 0, 0); (1, 0, 0); (2, 0, 0)]%float.

(** [l[k] = a], nothing when [k] is out of range. *)
Fixpoint upd {A : Type} (l : list A) (k : nat) (a : A) : list A :=
  match l, k with
  | [], _ => []
  | _ :: tl, 0 => a :: tl
  | h :: tl, S k' => h :: upd tl k' a
  end.

(** The heap after [polygon.flip()] on the polygons of [l], in turn; a
    reference to nothing is passed over. *)
Fixpoint flip_cells (l : list BSP.ref) (h : BSP.heap) : BSP.heap :=
  match l with
  | [] => h
  | r :: tl =>
      flip_cells tl (match nth_error h r with
                     | Some p => upd h r (flipped p)
                     | None => h
                     end)
  end.

(** The node that [invert] leaves: every plane flipped, the front and the
    back subtrees exchanged at every level. *)
Fixpoint mirror (nd : BSP.BSPNode3) : BSP.BSPNode3 :=
  match nd with
  | BSP.Node pl fr bk ps =>
      BSP.Node (option_map BSP.plane_flip pl)
               (match bk with Some k => Some (mirror k) | None => None end)
               (match fr with Some f => Some (mirror f) | None => None end)
               ps
  end.

(** Every reference is to an object of the heap. *)
Definition valid_refs (h : BSP.heap) (l : list BSP.ref) : Prop :=
  Forall (fun r => r < length h) l.

(** The four lists that [split_polygon] appends to, one after the other. *)
Definition routed_all (r : BSP.routed) : list BSP.ref :=
  BSP.to_coplanar_front r ++ BSP.to_coplanar_back r ++ BSP.to_front r ++ BSP.to_back r.

(** A result that is not the bound of the model. *)
Definition not_oof {A : Type} (r : res A) : Prop := r <> Raise OutOfFuel.

(** What [m] does on the heap [h]: it does not stop at the bound of the
    model, and when it returns no object is lost and [post] holds of the
    heap and the result that it leaves. *)
Definition sound {A : Type} (h : BSP.heap) (m : BSP.H A) (post : BSP.heap -> A -> Prop) : Prop :=
  match m h with
  | (Ok a, h') => length h <= length h' /\ post h' a
  | (Raise e, _) => e <> OutOfFuel
  end.


(** ** Vocabulary of the statements about [enforce_delaunay] *)

(** [t.v[i % 3]] and [t.n[i % 3]]. *)
Definition vtx (t : Triangle2) (i : nat) : option nat :=
  match i mod 3 with
  | 0 => s0 (v t)
  | 1 => s1 (v t)
  | _ => s2 (v t)
  end.

Definition nbr (t : Triangle2) (i : nat) : nat :=
  match i mod 3 with
  | 0 => s0 (n t)
  | 1 => s1 (n t)
  | _ => s2 (n t)
  end.

(** [self.vertices[a]], when [a] is an index of the list. *)
Definition point {N : Number} (V : list Vector2) (a : option nat) : option Vector2 :=
  match a with
  | Some i => nth_error V i
  | None => None
  end.

(** The three vertices of [t] are points of [V], in counter-clockwise
    order. *)
Definition ccw_triangle (V : list Vector2) (t : Triangle2) : Prop :=
  exists p0 p1 p2,
    point V (vtx t 0) = Some p0 /\ point V (vtx t 1) = Some p1 /\
    point V (vtx t 2) = Some p2 /\ (0 < area p0 p1 p2)%Z.

(** The properties of the class docstring that the flip pass relies on
    and keeps:
    - every existent triangle has its vertices in counter-clockwise order;
    - the neighbour across the edge at slot [i] of an existent triangle
      carries the reverse edge ([j] is its slot there) and points back;
    - a ghost lies on the hull: no vertex is strictly on its outer side. *)
Record triangulation (s : Triangulation2) : Prop := mk_triangulation {
  tri_ccw : forall k t,
    nth_error (triangles s) k = Some t -> is_ghost t = false ->
    ccw_triangle (vertices s) t;
  tri_adjacent : forall k t i,
    nth_error (triangles s) k = Some t -> is_ghost t = false -> i < 3 ->
    exists t' j,
      nth_error (triangles s) (nbr t i) = Some t' /\ j < 3 /\
      vtx t' j = vtx t (i + 1) /\ vtx t' (j + 1) = vtx t i /\ nbr t' j = k;
  tri_hull : forall k g pu pw p,
    nth_error (triangles s) k = Some g -> is_ghost g = true ->
    point (vertices s) (vtx g 0) = Some pu ->
    point (vertices s) (vtx g 1) = Some pw ->
    In p (vertices s) -> (0 <= area pw pu p)%Z
}.

(** Every directed edge belongs to one existent triangle at most. *)
Definition edges_once (s : Triangulation2) : Prop :=
  forall k1 k2 t1 t2 i1 i2,
    nth_error (triangles s) k1 = Some t1 -> is_ghost t1 = false -> i1 < 3 ->
    nth_error (triangles s) k2 = Some t2 -> is_ghost t2 = false -> i2 < 3 ->
    vtx t1 i1 = vtx t2 i2 -> vtx t1 (i1 + 1) = vtx t2 (i2 + 1) ->
    k1 = k2.

(** The precondition of [enforce_delaunay]: [triangles] is a complete
    triangulation of [vertices]. *)
Definition complete_triangulation (s : Triangulation2) : Prop :=
  triangulation s /\ edges_once s.

Definition opt_nat_eqb (a b : option nat) : bool :=
  match a, b with
  | Some x, Some y => Nat.eqb x y
  | None, None => true
  | _, _ => false
  end.

Section Criterion.

Context {N : Number}.

(** The local Delaunay criterion on every internal edge: [t], at index
    [k], and [t'], its neighbour across slot [i], are both existent, [t']
    carries the reverse edge at slot [j], and the apex of [t'] is not
    INSIDE the circle of the stored triple of [t] (the test that
    [__in_circle(k, apex)] makes). *)
Definition locally_delaunay (s : Triangulation2) : Prop :=
  forall k t i t' j p0 p1 p2 q,
    nth_error (triangles s) k = Some t -> is_ghost t = false -> i < 3 ->
    nth_error (triangles s) (nbr t i) = Some t' -> is_ghost t' = false -> j < 3 ->
    vtx t' j = vtx t (i + 1) -> vtx t' (j + 1) = vtx t i ->
    point (vertices s) (vtx t 0) = Some p0 ->
    point (vertices s) (vtx t 1) = Some p1 ->
    point (vertices s) (vtx t 2) = Some p2 ->
    point (vertices s) (vtx t' (j + 2)) = Some q ->
    in_circle p0 p1 p2 q <> INSIDE.

(** The criterion, decided on a given state. *)
Definition delaunay_slot_b (V : list Vector2) (T : list Triangle2) (t : Triangle2) (i : nat) : bool :=
  match nth_error T (nbr t i) with
  | Some t' =>
      is_ghost t' ||
      forallb (fun j =>
        negb (opt_nat_eqb (vtx t' j) (vtx t (i + 1)) &&
              opt_nat_eqb (vtx t' (j + 1)) (vtx t i)) ||
        match point V (vtx t 0), point V (vtx t 1), point V (vtx t 2),
              point V (vtx t' (j + 2)) with
        | Some p0, Some p1, Some p2, Some q => negb (Position_eqb (in_circle p0 p1 p2 q) INSIDE)
        | _, _, _, _ => true
        end) [0; 1; 2]
  | None => true
  end.

Definition locally_delaunay_b (s : Triangulation2) : bool :=
  forallb (fun t => is_ghost t ||
                    forallb (delaunay_slot_b (vertices s) (triangles s) t) [0; 1; 2])
          (triangles s).

(** [k] iterations of the loop of [enforce_delaunay] on the queue [Q],
    when the queue lasts that long and no iteration raises. *)
Fixpoint run_steps (k : nat) (Q : list entry) (s : Triangulation2)
  : option (list entry * Triangulation2) :=
  match k with
  | 0 => Some (Q, s)
  | S k' =>
      match Q with
      | [] => None
      | e :: rest =>
          match flip_step e s with
          | (Ok new, s') => run_steps k' (rest ++ new) s'
          | (Raise _, _) => None
          end
      end
  end.

End Criterion.

(** *** Checking the precondition on a given state *)

Definition ccw_b (V : list Vector2) (t : Triangle2) : bool :=
  match point V (vtx t 0), point V (vtx t 1), point V (vtx t 2) with
  | Some p0, Some p1, Some p2 => (0 <? area p0 p1 p2)%Z
  | _, _, _ => false
  end.

Definition adjacent_b (T : list Triangle2) (k : nat) (t : Triangle2) (i : nat) : bool :=
  match nth_error T (nbr t i) with
  | Some t' =>
      existsb (fun j => opt_nat_eqb (vtx t' j) (vtx t (i + 1)) &&
                        opt_nat_eqb (vtx t' (j + 1)) (vtx t i) &&
                        Nat.eqb (nbr t' j) k) [0; 1; 2]
  | None => false
  end.

Definition hull_b (V : list Vector2) (g : Triangle2) : bool :=
  match point V (vtx g 0), point V (vtx g 1) with
  | Some pu, Some pw => forallb (fun p => (0 <=? area pw pu p)%Z) V
  | _, _ => true
  end.

Definition triangle_b (V : list Vector2) (T : list Triangle2) (kt : nat * Triangle2) : bool :=
  let (k, t) := kt in
  if is_ghost t then hull_b V t
  else ccw_b V t && forallb (adjacent_b T k t) [0; 1; 2].

Definition triangulation_b (s : Triangulation2) : bool :=
  forallb (triangle_b (vertices s) (triangles s)) (enumerate_from 0 (triangles s)).

Definition once_pair_b (kt1 kt2 : nat * Triangle2) : bool :=
  is_ghost (snd kt1) || is_ghost (snd kt2) || Nat.eqb (fst kt1) (fst kt2) ||
  forallb (fun i1 =>
    forallb (fun i2 =>
      negb (opt_nat_eqb (vtx (snd kt1) i1) (vtx (snd kt2) i2) &&
            opt_nat_eqb (vtx (snd kt1) (i1 + 1)) (vtx (snd kt2) (i2 + 1))))
      [0; 1; 2]) [0; 1; 2].

Definition edges_once_b (s : Triangulation2) : bool :=
  let l := enumerate_from 0 (triangles s) in
  forallb (fun kt1 => forallb (once_pair_b kt1) l) l.

Definition complete_triangulation_b (s : Triangulation2) : bool :=
  triangulation_b s && edges_once_b s.

(** *** What a flip does to the triangle array *)

Definition with_triangles {N : Number} (s : Triangulation2) (T : list Triangle2)
  : Triangulation2 :=
  mkTriangulation2 (vertices s) (indices s) (segments s) T.

(** The triangle after [repoint]: the first neighbour slot that holds
    [old] holds [new]. *)
Definition repointed (t : Triangle2) (old new : nat) : Triangle2 :=
  if Nat.eqb (s0 (n t)) old then mkTriangle2 (v t) (mk3 new (s1 (n t)) (s2 (n t)))
  else if Nat.eqb (s1 (n t)) old then mkTriangle2 (v t) (mk3 (s0 (n t)) new (s2 (n t)))
  else if Nat.eqb (s2 (n t)) old then mkTriangle2 (v t) (mk3 (s0 (n t)) (s1 (n t)) new)
  else t.

(** The triangle at index [k] has the directed edge from [a] to [b], and
    [m] is its neighbour across it. *)
Definition edge (T : list Triangle2) (k a b m : nat) : Prop :=
  exists t i, nth_error T k = Some t /\ i < 3 /\
              vtx t i = Some a /\ vtx t (i + 1) = Some b /\ nbr t i = m.

(** *** The measure of the flip loop *)

Definition lift2 (p : Vector2) : Z := (x p * x p + y p * y p)%Z.

Definition dist2 (p q : Vector2) : Z :=
  ((x p - x q) * (x p - x q) + (y p - y q) * (y p - y q))%Z.

(** Six times the volume under the triangle lifted to the paraboloid. *)
Definition pot3 (a b c : Vector2) : Z :=
  (area a b c * (lift2 a + lift2 b + lift2 c))%Z.

Definition pot (V : list Vector2) (t : Triangle2) : Z :=
  match point V (vtx t 0), point V (vtx t 1), point V (vtx t 2) with
  | Some p0, Some p1, Some p2 => pot3 p0 p1 p2
  | _, _, _ => 0%Z
  end.

Definition potential (V : list Vector2) (T : list Triangle2) : Z :=
  fold_right Z.add 0%Z (map (pot V) T).

(** Iterations that are enough for a queue of [q] items. *)
Definition enough_fuel (s : Triangulation2) (q : nat) : nat :=
  4 * Z.to_nat (potential (vertices s) (triangles s)) + q.

(** The hull as the array records it: the vertices of each ghost, at the
    index of the ghost. *)
Definition hull_view (T : list Triangle2) : list (option (triple (option nat))) :=
  map (fun t => if is_ghost t then Some (v t) else None) T.

(** *** The queue *)

(** [(min(a, b), max(a, b))]. *)
Definition pair_of (a b : nat) : nat * nat := (Nat.min a b, Nat.max a b).

(** The triangle at index [k] is existent and has, from slot [i] on, the
    vertices [a], [b], [c]; [m] is its neighbour across the edge from [a]
    to [b]. *)
Definition wing (T : list Triangle2) (k i a b c m : nat) : Prop :=
  exists t, nth_error T k = Some t /\ i < 3 /\
            vtx t i = Some a /\ vtx t (i + 1) = Some b /\ vtx t (i + 2) = Some c /\
            nbr t i = m.

(** Every item of the queue names a triangle of the array and a slot, and
    none names the edge of a ghost. *)
Definition queue_ok (T : list Triangle2) (Q : list entry) : Prop :=
  forall q, In q Q ->
    snd (fst q) < length T /\ snd q < 3 /\
    forall k g a b,
      nth_error T k = Some g -> is_ghost g = true ->
      vtx g 0 = Some a -> vtx g 1 = Some b -> fst (fst q) <> pair_of a b.

(** Every internal edge that fails the criterion has an item in the queue,
    from one of its two sides. *)
Definition failing_edges_queued (V : list Vector2) (T : list Triangle2) (Q : list entry) : Prop :=
  forall k m i j a b c d pa pb pc pd,
    wing T k i a b c m -> wing T m j b a d k ->
    nth_error V a = Some pa -> nth_error V b = Some pb ->
    nth_error V c = Some pc -> nth_error V d = Some pd ->
    (0 < in_circle_det pa pb pc pd)%Z ->
    In (pair_of a b, k, i) Q \/ In (pair_of a b, m, j) Q.

(** An item as the seeding loop queues it: the edge at slot [snd q] of the
    existent triangle at index [snd (fst q)], whose neighbour across that
    edge is existent too. *)
Definition seeded (T : list Triangle2) (q : entry) : Prop :=
  exists t x y t',
    nth_error T (snd (fst q)) = Some t /\ is_ghost t = false /\ snd q < 3 /\
    vtx t (snd q) = Some x /\ vtx t (snd q + 1) = Some y /\
    fst (fst q) = pair_of x y /\
    nth_error T (nbr t (snd q)) = Some t' /\ is_ghost t' = false.

(** The pair [(edge_set, edge_queue)] of the seeding loop once the slots in
    [done] are visited: the queue holds seeded items, the set holds their
    edges, and the edge of every visited internal slot is in the set. *)
Definition seed_inv (T : list Triangle2) (done : nat -> nat -> Prop)
    (acc : list (nat * nat) * list entry) : Prop :=
  (forall q, In q (snd acc) -> seeded T q) /\
  (forall e, In e (fst acc) -> exists q, In q (snd acc) /\ fst (fst q) = e) /\
  (forall k sl t x y t',
     done k sl -> nth_error T k = Some t -> is_ghost t = false -> sl < 3 ->
     vtx t sl = Some x -> vtx t (sl + 1) = Some y ->
     nth_error T (nbr t sl) = Some t' -> is_ghost t' = false ->
     In (pair_of x y) (fst acc)).

(** The points with indices [a], [b], [c] are in counter-clockwise order. *)
Definition ccw_at (V : list Vector2) (a b c : nat) : Prop :=
  exists pa pb pc,
    nth_error V a = Some pa /\ nth_error V b = Some pb /\ nth_error V c = Some pc /\
    (0 < area pa pb pc)%Z.

(** The array after the flip of the edge between [i] and [j], read at
    index [k]: [ni] and [nj] are the two rewritten triangles, [r1] and
    [r2] the repointed outer neighbours at [i1] and [j1]. *)
Definition flipped_at (T : list Triangle2) (i j i1 j1 : nat) (ni nj r1 r2 : Triangle2)
    (k : nat) : option Triangle2 :=
  if Nat.eqb k j then Some nj
  else if Nat.eqb k i then Some ni
  else if Nat.eqb k j1 then Some r2
  else if Nat.eqb k i1 then Some r1
  else nth_error T k.

(** *** A worked example *)

(** Seven points with [int] coordinates, and what [triangulate] makes of
    them. *)
Definition seven_points : list (@Vector2 py_int) :=
  [mkVector2 0 0 0; mkVector2 1 3 0; mkVector2 2 1 1; mkVector2 3 2 5;
   mkVector2 4 4 4; mkVector2 5 5 1; mkVector2 6 6 3].

Definition seven_points_triangulated : @Triangulation2 py_int :=
  snd (triangulate 50 ARBITRARY VERTICAL (mkTriangulation2 seven_points [] [] [])).

(** *** Float coordinates, read exactly *)

(** [f * 2^K] when [f] is finite and the product is an integer. *)
Definition float_to_Z (K : Z) (f : float) : option Z :=
  match Prim2SF f with
  | S754_zero _ => Some 0%Z
  | S754_finite sg m e =>
      if (0 <=? e + K)%Z
      then Some ((if sg then -1 else 1) * Z.pos m * 2 ^ (e + K))%Z
      else None
  | _ => None
  end.

Definition exact_vertex (K : Z) (p : @Vector2 py_float) : option (@Vector2 py_int) :=
  match float_to_Z K (x p), float_to_Z K (y p) with
  | Some a, Some b => Some (mkVector2 (ident p) a b)
  | _, _ => None
  end.

Fixpoint exact_vertices (K : Z) (l : list (@Vector2 py_float)) : option (list (@Vector2 py_int)) :=
  match l with
  | [] => Some []
  | p :: tl =>
      match exact_vertex K p, exact_vertices K tl with
      | Some q, Some r => Some (q :: r)
      | _, _ => None
      end
  end.

(** The state with every coordinate multiplied by [2^K]: the same points
    up to scale, on which the predicates are computed exactly. *)
Definition exact_view (K : Z) (s : @Triangulation2 py_float) : option (@Triangulation2 py_int) :=
  match exact_vertices K (vertices s) with
  | Some V => Some (mkTriangulation2 V (indices s) (segments s) (triangles s))
  | None => None
  end.

Definition float_point (i : nat) (a b : float) : @Vector2 py_float :=
  @mkVector2 py_float i a b.

(** Five points near the unit circle: (0.6, 0.8), (0.6, -0.8), (-0.8, 0.6),
    (1.0, 0.0) and (0.0, 1.0), as Python reads these literals. *)
Definition five_on_circle : list (@Vector2 py_float) :=
  [float_point 0 0x1.3333333333333p-1 0x1.999999999999ap-1;
   float_point 1 0x1.3333333333333p-1 (-0x1.999999999999ap-1);
   float_point 2 (-0x1.999999999999ap-1) 0x1.3333333333333p-1;
   float_point 3 1 0;
   float_point 4 0 1]%float.

Definition five_on_circle_triangulated : @Triangulation2 py_float :=
  snd (triangulate 50 ARBITRARY VERTICAL (mkTriangulation2 five_on_circle [] [] [])).

(** Four points near the unit circle: (0.6, 0.8), (0.6, -0.8), (-0.6, 0.8)
    and (-1.0, 0.0). *)
Definition four_on_circle : list (@Vector2 py_float) :=
  [float_point 0 0x1.3333333333333p-1 0x1.999999999999ap-1;
   float_point 1 0x1.3333333333333p-1 (-0x1.999999999999ap-1);
   float_point 2 (-0x1.3333333333333p-1) 0x1.999999999999ap-1;
   float_point 3 (-1) 0]%float.

Definition four_on_circle_triangulated : @Triangulation2 py_float :=
  snd (triangulate 50 ARBITRARY VERTICAL (mkTriangulation2 four_on_circle [] [] [])).


(** *** The loop of [__sort] that eliminates duplicates *)

(** What holds when the items [P] of [enumerated_vertices] have been gone
    through: every one of them has its index, which points at the same
    object in the new vertex list; the new list has no other vertices than
    those of [P], and they are in the order [R] of the sort. *)
Definition dedup_inv {N : Number} (R : Vector2 -> Vector2 -> Prop) (n : nat)
    (P : list (nat * Vector2)) (s : Triangulation2) : Prop :=
  length (indices s) = n /\
  1 <= length (vertices s) <= length P /\
  (forall i u, In (i, u) P ->
     exists j q, nth_error (indices s) i = Some (Some j) /\
                 nth_error (vertices s) j = Some q /\ py_eq q u = true) /\
  (forall q, In q (vertices s) -> In q (map snd P)) /\
  StronglySorted R (vertices s).

(** The new segment of an old one, through [indices]. *)
Definition adjusted (ind : list (option nat)) (old new : nat * nat) : Prop :=
  exists a b, nth_error ind (fst old) = Some (Some a) /\
              nth_error ind (snd old) = Some (Some b) /\
              new = (Nat.min a b, Nat.max a b).

(** The key of [p] is not above the key of [q], on [int] coordinates:
    the order of the tuples that [sorted] compares. *)
Definition key_le (c : CutMethod) (p q : Vector2) : Prop :=
  let kp := sort_key c (0, p) in
  let kq := sort_key c (0, q) in
  (fst kp < fst kq \/ (fst kp = fst kq /\ snd kp <= snd kq))%Z.

(** *** The triangle arrays of three points *)

(** What [__trivial_triangulation(0, 3)] appends: the triangle through the
    vertices 0, 1, 2 when the third is to the left of the first two, the
    triangle through 0, 2, 1 when it is to the right (three ghosts around
    it in both cases), and four ghosts on the two edges when the three are
    co-linear. *)
Definition three_left : list Triangle2 :=
  [Tri (Some 0) (Some 1) (Some 2) 1 2 3; Tri (Some 1) (Some 0) None 0 3 2;
   Tri (Some 2) (Some 1) None 0 1 3; Tri (Some 0) (Some 2) None 0 2 1].

Definition three_right : list Triangle2 :=
  [Tri (Some 0) (Some 2) (Some 1) 1 2 3; Tri (Some 2) (Some 0) None 0 3 2;
   Tri (Some 1) (Some 2) None 0 1 3; Tri (Some 0) (Some 1) None 0 2 1].

Definition three_flat : list Triangle2 :=
  [Tri (Some 0) (Some 1) None 1 2 1; Tri (Some 1) (Some 0) None 0 0 3;
   Tri (Some 1) (Some 2) None 3 3 0; Tri (Some 2) (Some 1) None 2 1 2].

Definition three_points {N : Number} (q0 q1 q2 : Vector2) : list Triangle2 :=
  match side q0 q1 q2 with
  | LEFT => three_left
  | RIGHT => three_right
  | CO_LINEAR => three_flat
  end.

(** *** The circle of the in-circle test *)

(** [k^2] times the square of the distance from [p] to the point
    [(ox / k, oy / k)]: a centre with rational coordinates. *)
Definition scaled_dist2 (k ox oy : Z) (p : Vector2) : Z :=
  ((k * x p - ox) * (k * x p - ox) + (k * y p - oy) * (k * y p - oy))%Z.

(** Where a point at the distance [dd] lies for a circle of radius [R]
    (both squared). *)
Definition position_of (dd R : Z) : Position :=
  if (dd <? R)%Z then INSIDE else if (dd =? R)%Z then ON else OUTSIDE.

Definition opposite (p : Position) : Position :=
  match p with
  | INSIDE => OUTSIDE
  | OUTSIDE => INSIDE
  | ON => ON
  end.

(** * Properties *)

(** ** The monad *)

Lemma bind_ok {S A B : Type} (m : M S A) (k : A -> M S B) (s s' : S) (a : A) :
  m s = (Ok a, s') -> bind m k s = k a s'.
Proof. intros H. unfold bind. now rewrite H. Qed.

Lemma bind_raise {S A B : Type} (m : M S A) (k : A -> M S B) (s s' : S) (e : exn) :
  m s = (Raise e, s') -> bind m k s = (Raise e, s').
Proof. intros H. unfold bind. now rewrite H. Qed.

(** ** Two and three points (C4, C5) *)

Section SmallInputs.

Variables (fuel : nat) (ind : list (option nat)) (old : list Triangle2).

(** C4: for V = [(0,0), (1,0)], [triangulate(ARBITRARY, VERTICAL)] leaves
    exactly two triangles, both ghosts and none existent; they carry the
    directed edges (0,1) and (1,0), and the neighbour 0 of each is the
    other one. *)
Theorem two_points_two_ghosts (i0 i1 : nat) :
  i0 <> i1 ->
  let s := mkTriangulation2 [mkVector2 i0 0 0; mkVector2 i1 1 0] ind [] old in
  let r := triangulate (S fuel) ARBITRARY VERTICAL s in
  fst r = Ok tt /\
  triangles (snd r) =
    [Tri (Some 0) (Some 1) None 1 1 1; Tri (Some 1) (Some 0) None 0 0 0] /\
  length (triangles (snd r)) = 2 /\
  count_ghosts (triangles (snd r)) = 2 /\
  count_existent (triangles (snd r)) = 0 /\
  map (fun p => (x p, y p)) (vertices (snd r)) = [(0, 0); (1, 0)]%Z.
Proof.
  intros Hne s r.
  assert (E : r = (Ok tt,
    mkTriangulation2 [mkVector2 i0 0 0; mkVector2 i1 1 0] [Some 0; Some 1] []
      [Tri (Some 0) (Some 1) None 1 1 1; Tri (Some 1) (Some 0) None 0 0 0])).
  { subst r s. apply Nat.eqb_neq in Hne.
    cbv -[Nat.eqb divide_and_conquer]. rewrite Hne. cbv. reflexivity. }
  rewrite E. simpl. repeat split; reflexivity.
Qed.

(** C5, as the code has it: for V = [(0,0),(1,0),(0,1)] the sort puts
    (0,1) before (1,0), so the stored vertex list is [(0,0),(0,1),(1,0)]
    and [indices] is [0, 2, 1].  [triangulate(ARBITRARY, VERTICAL)] leaves
    exactly one existent triangle, whose vertex triple in the stored list is
    (0,2,1) (the input vertices 0, 1, 2 in that order), and exactly three
    ghosts, one across each of its edges. *)
Theorem three_ccw_points_one_triangle (i0 i1 i2 : nat) :
  i0 <> i2 -> i2 <> i1 ->
  let s := mkTriangulation2
             [mkVector2 i0 0 0; mkVector2 i1 1 0; mkVector2 i2 0 1] ind [] old in
  let r := triangulate (S fuel) ARBITRARY VERTICAL s in
  let t0 := Tri (Some 0) (Some 2) (Some 1) 1 2 3 in
  let g1 := Tri (Some 2) (Some 0) None 0 3 2 in
  let g2 := Tri (Some 1) (Some 2) None 0 1 3 in
  let g3 := Tri (Some 0) (Some 1) None 0 2 1 in
  fst r = Ok tt /\
  map (fun p => (x p, y p)) (vertices (snd r)) = [(0, 0); (0, 1); (1, 0)]%Z /\
  indices (snd r) = [Some 0; Some 2; Some 1] /\
  triangles (snd r) = [t0; g1; g2; g3] /\
  count_existent (triangles (snd r)) = 1 /\
  count_ghosts (triangles (snd r)) = 3 /\
  ghost_across g1 0 t0 0 /\ ghost_across g2 0 t0 1 /\ ghost_across g3 0 t0 2.
Proof.
  intros H02 H21 s r t0 g1 g2 g3.
  assert (E : r = (Ok tt,
    mkTriangulation2 [mkVector2 i0 0 0; mkVector2 i2 0 1; mkVector2 i1 1 0]
      [Some 0; Some 2; Some 1] [] [t0; g1; g2; g3])).
  { subst r s t0 g1 g2 g3. apply Nat.eqb_neq in H02, H21.
    cbv -[Nat.eqb divide_and_conquer]. rewrite H02.
    cbv -[Nat.eqb divide_and_conquer]. rewrite H21. cbv. reflexivity. }
  rewrite E. simpl. unfold ghost_across. simpl. repeat split; reflexivity.
Qed.

End SmallInputs.

Lemma two_points_two_ghosts_witness :
  0 <> 1 /\
  let s := mkTriangulation2 [mkVector2 0 0 0; mkVector2 1 1 0] [] [] [] in
  let r := triangulate 1 ARBITRARY VERTICAL s in
  fst r = Ok tt /\
  triangles (snd r) =
    [Tri (Some 0) (Some 1) None 1 1 1; Tri (Some 1) (Some 0) None 0 0 0] /\
  length (triangles (snd r)) = 2 /\
  count_ghosts (triangles (snd r)) = 2 /\
  count_existent (triangles (snd r)) = 0 /\
  map (fun p => (x p, y p)) (vertices (snd r)) = [(0, 0); (1, 0)]%Z.
Proof.
  split; [discriminate | apply (two_points_two_ghosts 0 [] [] 0 1); discriminate].
Defined.

(** The stored triple of the only existent triangle is not (0,1,2). *)
Lemma three_ccw_points_triple_is_not_012 :
  let s := mkTriangulation2
             [mkVector2 0 0 0; mkVector2 1 1 0; mkVector2 2 0 1] [] [] [] in
  ~ (exists t, In t (triangles (snd (triangulate 1 ARBITRARY VERTICAL s))) /\
               is_ghost t = false /\
               v t = mk3 (Some 0) (Some 1) (Some 2)).
Proof.
  intros s [t [Hin [Hg Hv]]]. subst s.
  vm_compute in Hin.
  destruct Hin as [E | [E | [E | [E | []]]]]; subst t; discriminate.
Qed.

Lemma three_ccw_points_one_triangle_witness :
  (0 <> 2 /\ 2 <> 1) /\
  triangles (snd (triangulate 1 ARBITRARY VERTICAL
     (mkTriangulation2 [mkVector2 0 0 0; mkVector2 1 1 0; mkVector2 2 0 1] [] [] [])))
  = [Tri (Some 0) (Some 2) (Some 1) 1 2 3; Tri (Some 2) (Some 0) None 0 3 2;
     Tri (Some 1) (Some 2) None 0 1 3; Tri (Some 0) (Some 1) None 0 2 1].
Proof.
  split; [split; discriminate |].
  apply (three_ccw_points_one_triangle 0 [] [] 0 1 2); discriminate.
Defined.

(** ** Unsupported modes (C6, C9) *)

Create HintDb nni.

(** Whatever the numbers are. *)
Section AnyNumber.

Context {N : Number}.

Lemma nni_ret {S A : Type} (a : A) : never_ni (@ret S A a).
Proof. intros s. discriminate. Qed.

Lemma nni_raise {S A : Type} (e : exn) :
  e <> NotImplementedExc -> never_ni (@raise S A e).
Proof. intros H s E. apply H. simpl in E. congruence. Qed.

Lemma nni_bind {S A B : Type} (m : M S A) (k : A -> M S B) :
  never_ni m -> (forall a, never_ni (k a)) -> never_ni (bind m k).
Proof.
  intros Hm Hk s. unfold bind. specialize (Hm s).
  destruct (m s) as [[a | e] s']; simpl in *.
  - apply Hk.
  - intros E. apply Hm. congruence.
Qed.

Lemma nni_need {S A : Type} (e : exn) (o : option A) :
  e <> NotImplementedExc -> never_ni (@need S A e o).
Proof. intros H. destruct o; [apply nni_ret | now apply nni_raise]. Qed.

Lemma nni_get_state {S : Type} : never_ni (@get_state S).
Proof. intros s. discriminate. Qed.

Lemma nni_set_vertices l : never_ni (set_vertices l).
Proof. intros s. discriminate. Qed.

Lemma nni_set_indices l : never_ni (set_indices l).
Proof. intros s. discriminate. Qed.

Lemma nni_set_segments l : never_ni (set_segments l).
Proof. intros s. discriminate. Qed.

Lemma nni_set_triangles l : never_ni (set_triangles l).
Proof. intros s. discriminate. Qed.

Lemma nni_for_each {S A : Type} (l : list A) (body : A -> M S unit) :
  (forall a, never_ni (body a)) -> never_ni (for_each l body).
Proof.
  intros Hb. induction l as [| a tl IH]; simpl.
  - apply nni_ret.
  - apply nni_bind; [apply Hb | intros _; exact IH].
Qed.

#[local] Hint Resolve nni_ret nni_get_state nni_set_vertices nni_set_indices
  nni_set_segments nni_set_triangles : nni.

(** Walks through a computation written with [bind], [if] and [match]. *)
Ltac nni_step :=
  match goal with
  | |- never_ni (bind _ _) => apply nni_bind; [| intros ?]
  | |- never_ni (need _ _) => apply nni_need; discriminate
  | |- never_ni (raise _) => apply nni_raise; discriminate
  | |- never_ni (for_each _ _) => apply nni_for_each; intros ?
  | |- never_ni (if ?b then _ else _) => destruct b
  | |- never_ni (match ?a with _ => _ end) => destruct a
  | |- never_ni (let (_, _) := ?a in _) => destruct a
  | |- never_ni _ => solve [auto with nni]
  end.

Ltac nni := repeat nni_step.

Lemma nni_get_tri k : never_ni (get_tri k).
Proof. unfold get_tri. nni. Qed.

Lemma nni_put_tri k t : never_ni (put_tri k t).
Proof. unfold put_tri. nni. Qed.

#[local] Hint Resolve nni_get_tri nni_put_tri : nni.

Lemma nni_get_v k i : never_ni (get_v k i).
Proof. unfold get_v. nni. Qed.

Lemma nni_get_n k i : never_ni (get_n k i).
Proof. unfold get_n. nni. Qed.

Lemma nni_set_v k i a : never_ni (set_v k i a).
Proof. unfold set_v. nni. Qed.

Lemma nni_set_n k i a : never_ni (set_n k i a).
Proof. unfold set_n. nni. Qed.

Lemma nni_append_tri t : never_ni (append_tri t).
Proof. unfold append_tri. nni. Qed.

Lemma nni_num_triangles : never_ni num_triangles.
Proof. unfold num_triangles. nni. Qed.

Lemma nni_get_vertex a : never_ni (get_vertex a).
Proof. unfold get_vertex. nni. Qed.

#[local] Hint Resolve nni_get_v nni_get_n nni_set_v nni_set_n nni_append_tri
  nni_num_triangles nni_get_vertex : nni.

Lemma nni_side_idx a b c : never_ni (side_idx a b c).
Proof. unfold side_idx. nni. Qed.

#[local] Hint Resolve nni_side_idx : nni.

Lemma nni_sort_vertical : never_ni (sort VERTICAL).
Proof. unfold sort, dedup_step, adjust_segment. nni. Qed.

Lemma nni_trivial_triangulation b e : never_ni (trivial_triangulation b e).
Proof. unfold trivial_triangulation. nni. Qed.

Lemma nni_choose_initial l6 l7 r2 r3 a b c d e f :
  never_ni (choose_initial l6 l7 r2 r3 a b c d e f).
Proof. unfold choose_initial. nni. Qed.

Lemma nni_stitch_up fuel : forall bl cur opp, never_ni (stitch_up fuel bl cur opp).
Proof.
  induction fuel as [| fuel IH]; intros bl cur opp; simpl.
  - apply nni_raise. discriminate.
  - nni; apply IH.
Qed.

Lemma nni_stitch_down fuel : forall bl cur opp, never_ni (stitch_down fuel bl cur opp).
Proof.
  induction fuel as [| fuel IH]; intros bl cur opp; simpl.
  - apply nni_raise. discriminate.
  - nni; apply IH.
Qed.

#[local] Hint Resolve nni_sort_vertical nni_trivial_triangulation nni_choose_initial
  nni_stitch_up nni_stitch_down : nni.

Lemma nni_merge_arbitrary fuel l6 l7 r2 r3 : never_ni (merge_arbitrary fuel l6 l7 r2 r3).
Proof. unfold merge_arbitrary. nni. Qed.

Lemma nni_walk_to_ghost fuel : forall a b fd t, never_ni (walk_to_ghost fuel a b fd t).
Proof.
  induction fuel as [| fuel IH]; intros a b fd t; simpl.
  - apply nni_raise. discriminate.
  - nni; apply IH.
Qed.

#[local] Hint Resolve nni_merge_arbitrary nni_walk_to_ghost : nni.

Lemma nni_find_ghosts fuel a b c d : never_ni (find_ghosts fuel a b c d).
Proof. unfold find_ghosts. nni. Qed.

#[local] Hint Resolve nni_find_ghosts : nni.

Lemma nni_divide_and_conquer lf fuel : forall b e, never_ni (divide_and_conquer lf fuel b e).
Proof.
  induction fuel as [| fuel IH]; intros b e; simpl.
  - apply nni_raise. discriminate.
  - destruct (e - b <? 4); [auto with nni |].
    apply nni_bind; [apply IH | intros [[[l2 l3] l6] l7]].
    apply nni_bind; [apply IH | intros [[[r2 r3] r6] r7]].
    nni.
Qed.

#[local] Hint Resolve nni_divide_and_conquer : nni.

(** C6: [triangulate] raises the NOT IMPLEMENTED failure exactly when it is
    called with merge method FLIP or DELAUNAY or with cut method HORIZONTAL
    or ALTERNATING, whatever the vertex list; with ARBITRARY and VERTICAL
    it never raises it. *)
Theorem unsupported_mode_raises fuel (m : MergeMethod) (c : CutMethod) (s : Triangulation2) :
  (fst (triangulate fuel m c s) = Raise NotImplementedExc <-> unsupported m c = true) /\
  fst (triangulate fuel ARBITRARY VERTICAL s) <> Raise NotImplementedExc /\
  fst (triangulate fuel FLIP c s) = Raise NotImplementedExc /\
  fst (triangulate fuel DELAUNAY c s) = Raise NotImplementedExc /\
  fst (triangulate fuel m HORIZONTAL s) = Raise NotImplementedExc /\
  fst (triangulate fuel m ALTERNATING s) = Raise NotImplementedExc.
Proof.
  assert (Hav : never_ni (triangulate fuel ARBITRARY VERTICAL)).
  { unfold triangulate. nni. }
  split; [| split; [apply Hav |]].
  - destruct m, c; simpl; split; intros H; try reflexivity; try discriminate.
    exfalso. exact (Hav s H).
  - destruct m, c; repeat split; reflexivity.
Qed.

(** C9: a call with an unsupported merge or cut method fails with the
    triangle array already reset: the state after the failure is the state
    before it with [triangles] empty, so an earlier triangulation is lost. *)
Theorem unsupported_mode_resets_triangles fuel (m : MergeMethod) (c : CutMethod)
    (s : Triangulation2) :
  unsupported m c = true ->
  triangulate fuel m c s =
    (Raise NotImplementedExc,
     mkTriangulation2 (vertices s) (indices s) (segments s) []).
Proof.
  destruct m, c; simpl; intros H; try discriminate; reflexivity.
Qed.

End AnyNumber.

Lemma unsupported_mode_resets_triangles_witness :
  let before := mkTriangulation2 [mkVector2 0 0 0; mkVector2 1 1 0] [Some 0; Some 1] []
                  [Tri (Some 0) (Some 1) None 1 1 1; Tri (Some 1) (Some 0) None 0 0 0] in
  unsupported FLIP VERTICAL = true /\
  triangulate 1 FLIP VERTICAL before =
    (Raise NotImplementedExc,
     mkTriangulation2 [mkVector2 0 0 0; mkVector2 1 1 0] [Some 0; Some 1] [] []).
Proof.
  split; [reflexivity |].
  exact (unsupported_mode_resets_triangles 1 FLIP VERTICAL _ eq_refl).
Defined.

(** ** Duplicates (C2) *)

(** C2 at V = [Vector2(0.0, 0.0), Vector2(0.0, 0.0)], two distinct objects
    with the same coordinates: the preprocessing of [triangulate] compares
    vertices with [==], which is object identity for [Vector2], so both are
    kept.  The stored list has two entries with equal coordinates,
    [indices] is [0, 1], and the triangulation goes on with the duplicate. *)
Theorem equal_coordinates_are_kept :
  let a := @mkVector2 py_float 0 0%float 0%float in
  let b := @mkVector2 py_float 1 0%float 0%float in
  let s := mkTriangulation2 [a; b] [] [] [] in
  same_coords a b = true /\
  sort VERTICAL s = (Ok tt, mkTriangulation2 [a; b] [Some 0; Some 1] [] []) /\
  vertices (snd (triangulate 1 ARBITRARY VERTICAL s)) = [a; b] /\
  indices (snd (triangulate 1 ARBITRARY VERTICAL s)) = [Some 0; Some 1].
Proof. repeat split; vm_compute; reflexivity. Qed.

(** The same with [int] coordinates. *)
Lemma equal_int_coordinates_are_kept :
  let a := @mkVector2 py_int 0 0 0 in
  let b := @mkVector2 py_int 1 0 0 in
  let s := mkTriangulation2 [a; b] [] [] [] in
  same_coords a b = true /\
  sort VERTICAL s = (Ok tt, mkTriangulation2 [a; b] [Some 0; Some 1] [] []) /\
  vertices (snd (triangulate 1 ARBITRARY VERTICAL s)) = [a; b] /\
  indices (snd (triangulate 1 ARBITRARY VERTICAL s)) = [Some 0; Some 1].
Proof. repeat split; reflexivity. Qed.


(** ** [Plane3.coplanar] (C8) *)

(** On binary64 numbers: below zero and zero not above [e] is below [e]. *)
Lemma float_neg_lt_nonneg (d e : float) :
  PrimFloat.ltb d 0%float = true ->
  PrimFloat.leb 0%float e = true ->
  PrimFloat.ltb d e = true.
Proof.
  rewrite !ltb_spec, leb_spec.
  change (Prim2SF 0%float) with (S754_zero false).
  unfold SFltb, SFleb.
  destruct (Prim2SF d) as [sd | sd | | sd md ed], (Prim2SF e) as [se | se | | se me ee];
    simpl; try discriminate; try reflexivity;
    try (destruct sd; simpl; try discriminate; try reflexivity);
    try (destruct se; simpl; try discriminate; try reflexivity).
Qed.

(** C8: [coplanar] answers True exactly when the computed signed distance
    n.p - w is below [epsilon].  The test is one-sided: with a
    non-negative [epsilon] every point whose distance is negative passes,
    however far behind the plane it lies, also where the band test
    |n.p - w| < epsilon fails. *)
Theorem coplanar_is_one_sided (P : Plane3.Plane3) (p : Vector3.Vector3) (epsilon : float) :
  (Plane3.coplanar P p epsilon = true <->
     PrimFloat.ltb (PrimFloat.sub (Vector3.dot (Plane3.normal P) p) (Plane3.w P)) epsilon = true) /\
  (PrimFloat.leb 0%float epsilon = true ->
   PrimFloat.ltb (Plane3.distance P p) 0%float = true ->
   Plane3.coplanar P p epsilon = true) /\
  (let floor := Plane3.mk (Vector3.mk 0 0 1) 0 in
   let far := Vector3.mk 0 0 (-1000000) in
   Plane3.distance floor far = (-1000000)%float /\
   Plane3.coplanar floor far Plane3.default_epsilon = true /\
   in_band floor far Plane3.default_epsilon = false).
Proof.
  split; [| split].
  - unfold Plane3.coplanar, Plane3.distance. tauto.
  - intros He Hd. unfold Plane3.coplanar. now apply float_neg_lt_nonneg.
  - repeat split; vm_compute; reflexivity.
Qed.

(** ** The heap of polygons: what a computation leaves untouched *)

Lemma keeps_ret b {A : Type} (a : A) (post : A -> Prop) :
  post a -> keeps b (ret a) post.
Proof.
  intros Hp h Hb. simpl. repeat split; auto. intros a' E. inversion E; subst; assumption.
Qed.

Lemma keeps_raise b {A : Type} (e : exn) (post : A -> Prop) :
  keeps b (raise e) post.
Proof. intros h Hb. simpl. repeat split; auto. discriminate. Qed.

Lemma keeps_lift b {A : Type} (r : res A) (post : A -> Prop) :
  (forall a, r = Ok a -> post a) -> keeps b (lift r) post.
Proof. intros Hp h Hb. simpl. repeat split; auto. Qed.

Lemma keeps_need b {A : Type} (e : exn) (o : option A) (post : A -> Prop) :
  (forall a, o = Some a -> post a) -> keeps b (need e o) post.
Proof.
  intros Hp. destruct o; [apply keeps_ret; auto | apply keeps_raise].
Qed.

Lemma keeps_bind b {A B : Type} (m : BSP.H A) (k : A -> BSP.H B)
    (mid : A -> Prop) (post : B -> Prop) :
  keeps b m mid -> (forall a, mid a -> keeps b (k a) post) -> keeps b (bind m k) post.
Proof.
  intros Hm Hk h Hb. unfold bind.
  destruct (Hm h Hb) as [Hl [Hf Hmid]].
  destruct (m h) as [[a | e] h1]; simpl in *.
  - destruct (Hk a (Hmid a eq_refl) h1 ltac:(lia)) as [Hl2 [Hf2 Hp]].
    repeat split; [lia | congruence | exact Hp].
  - repeat split; auto. discriminate.
Qed.

Lemma keeps_weaken b {A : Type} (m : BSP.H A) (P Q : A -> Prop) :
  keeps b m P -> (forall a, P a -> Q a) -> keeps b m Q.
Proof.
  intros Hm HPQ h Hb. destruct (Hm h Hb) as [Hl [Hf Hp]]. repeat split; auto.
Qed.

Lemma list_set_length {A : Type} (l : list A) : forall i a l',
  list_set l i a = Some l' -> length l' = length l.
Proof.
  induction l as [| x tl IH]; intros i a l' E; simpl in E; [discriminate |].
  destruct i as [| j].
  - inversion E. reflexivity.
  - destruct (list_set tl j a) as [tl' |] eqn:Et; simpl in E; inversion E.
    simpl. f_equal. eapply IH; eauto.
Qed.

Lemma list_set_firstn {A : Type} (l : list A) : forall i a l' b,
  list_set l i a = Some l' -> b <= i -> firstn b l' = firstn b l.
Proof.
  induction l as [| x tl IH]; intros i a l' b E Hb; simpl in E; [discriminate |].
  destruct i as [| j].
  - assert (b = 0) by lia. subst b. reflexivity.
  - destruct (list_set tl j a) as [tl' |] eqn:Et; simpl in E; inversion E.
    destruct b as [| b']; [reflexivity |]. simpl. f_equal.
    eapply IH; eauto. lia.
Qed.

Lemma keeps_deref b r : keeps b (BSP.deref r) (fun _ => True).
Proof.
  intros h Hb. unfold BSP.deref, bind, get_state.
  destruct (nth_error h r); simpl; repeat split; auto.
Qed.

Lemma keeps_store b r p : b <= r -> keeps b (BSP.store r p) (fun _ => True).
Proof.
  intros Hr h Hb. unfold BSP.store, bind, get_state, put_state.
  destruct (list_set h r p) as [h' |] eqn:E; simpl.
  - repeat split; auto.
    + apply list_set_length in E. lia.
    + eapply list_set_firstn; eauto.
  - repeat split; auto.
Qed.

Lemma keeps_alloc b p : keeps b (BSP.alloc p) (fun r => b <= r).
Proof.
  intros h Hb. unfold BSP.alloc, bind, get_state, put_state. simpl.
  repeat split.
  - rewrite length_app. lia.
  - rewrite firstn_app. replace (b - length h) with 0 by lia.
    simpl. apply app_nil_r.
  - intros a E. inversion E. lia.
Qed.

Lemma keeps_new_polygon b vs sh : keeps b (BSP.new_polygon vs sh) (fun r => b <= r).
Proof.
  unfold BSP.new_polygon.
  eapply keeps_bind; [apply keeps_lift with (post := fun _ => True); auto |].
  intros pl _. apply keeps_alloc.
Qed.

Lemma keeps_polygon_clone b r : keeps b (BSP.polygon_clone r) (fun r' => b <= r').
Proof.
  unfold BSP.polygon_clone.
  eapply keeps_bind; [apply keeps_deref |]. intros p _. apply keeps_new_polygon.
Qed.

Lemma keeps_polygon_flip b r : b <= r -> keeps b (BSP.polygon_flip r) (fun _ => True).
Proof.
  intros Hr. unfold BSP.polygon_flip.
  eapply keeps_bind; [apply keeps_deref |]. intros p _. now apply keeps_store.
Qed.

Lemma keeps_for_each b {A : Type} (l : list A) (body : A -> BSP.H unit) :
  Forall (fun a => keeps b (body a) (fun _ => True)) l ->
  keeps b (for_each l body) (fun _ => True).
Proof.
  induction 1 as [| a tl Ha Htl IH]; simpl.
  - now apply keeps_ret.
  - eapply keeps_bind; [exact Ha | intros _ _; exact IH].
Qed.

Lemma keeps_flip_all b (l : list BSP.ref) :
  fresh b l -> keeps b (for_each l BSP.polygon_flip) (fun _ => True).
Proof.
  intros Hl. apply keeps_for_each. unfold fresh in Hl.
  rewrite Forall_forall in *. intros r Hr. apply keeps_polygon_flip. auto.
Qed.

Lemma keeps_map_m b {A B : Type} (f : A -> BSP.H B) (post : B -> Prop) (l : list A) :
  (forall a, keeps b (f a) post) ->
  keeps b (BSP.map_m f l) (Forall post).
Proof.
  intros Hf. induction l as [| a tl IH]; simpl.
  - now apply keeps_ret.
  - eapply keeps_bind; [apply Hf |]. intros x Hx.
    eapply keeps_bind; [exact IH |]. intros xs Hxs.
    apply keeps_ret. now constructor.
Qed.

Lemma keeps_clone b (a : BSP.BSP3) : keeps b (BSP.clone a) (fresh b).
Proof. apply keeps_map_m. intros r. apply keeps_polygon_clone. Qed.

Lemma fresh_nil b : fresh b [].
Proof. constructor. Qed.

Lemma fresh_one b r : b <= r -> fresh b [r].
Proof. intros H. constructor; [exact H | constructor]. Qed.

Lemma fresh_app b l1 l2 : fresh b l1 -> fresh b l2 -> fresh b (l1 ++ l2).
Proof. intros H1 H2. apply Forall_app. now split. Qed.

Lemma fresh_app_inv b l1 l2 : fresh b (l1 ++ l2) -> fresh b l1 /\ fresh b l2.
Proof. intros H. now apply Forall_app in H. Qed.

Create HintDb fresh.
#[local] Hint Resolve fresh_nil fresh_one fresh_app : fresh.

Lemma keeps_optional_polygon b (c : bool) vs sh :
  keeps b (if c then r <- BSP.new_polygon vs sh ;; ret [r] else ret []) (fresh b).
Proof.
  destruct c.
  - eapply keeps_bind; [apply keeps_new_polygon |].
    intros r Hr. apply keeps_ret. auto with fresh.
  - apply keeps_ret. auto with fresh.
Qed.

Lemma keeps_split_polygon b pl r :
  b <= r -> keeps b (BSP.split_polygon pl r) (routed_fresh b).
Proof.
  intros Hr. unfold BSP.split_polygon.
  eapply keeps_bind; [apply keeps_deref |]. intros p _.
  repeat match goal with
         | |- keeps _ (if ?c then _ else _) _ => destruct c
         end;
    try (apply keeps_ret; unfold routed_fresh; simpl; auto 6 with fresh).
  eapply keeps_bind; [apply keeps_lift with (post := fun _ => True); auto |].
  intros fb _.
  eapply keeps_bind; [apply keeps_optional_polygon |]. intros fr Hfr.
  eapply keeps_bind; [apply keeps_optional_polygon |]. intros bk Hbk.
  apply keeps_ret. unfold routed_fresh. simpl. auto with fresh.
Qed.

Lemma keeps_clip_split b pl (ps : list BSP.ref) : forall fr bk,
  fresh b ps -> fresh b fr -> fresh b bk ->
  keeps b (BSP.clip_split pl ps fr bk) (fun fb => fresh b (fst fb) /\ fresh b (snd fb)).
Proof.
  induction ps as [| p tl IH]; intros fr bk Hps Hfr Hbk; simpl.
  - apply keeps_ret. now split.
  - inversion Hps as [| ? ? Hp Htl]; subst.
    eapply keeps_bind; [apply keeps_split_polygon; exact Hp |].
    intros r [H1 [H2 [H3 H4]]]. apply IH; auto with fresh.
Qed.

Lemma keeps_build_split b pl (ps : list BSP.ref) : forall own fr bk,
  fresh b ps -> fresh b own -> fresh b fr -> fresh b bk ->
  keeps b (BSP.build_split pl ps own fr bk)
        (fun t => fresh b (fst (fst t)) /\ fresh b (snd (fst t)) /\ fresh b (snd t)).
Proof.
  induction ps as [| p tl IH]; intros own fr bk Hps Hown Hfr Hbk; simpl.
  - apply keeps_ret. auto.
  - inversion Hps as [| ? ? Hp Htl]; subst.
    eapply keeps_bind; [apply keeps_split_polygon; exact Hp |].
    intros r [H1 [H2 [H3 H4]]]. apply IH; auto with fresh.
Qed.

(** Induction on a tree of nodes. *)
Lemma BSPNode3_induction (P : BSP.BSPNode3 -> Prop) :
  (forall pl fr bk ps,
      (forall f, fr = Some f -> P f) -> (forall k, bk = Some k -> P k) ->
      P (BSP.Node pl fr bk ps)) ->
  forall nd, P nd.
Proof.
  intros step.
  assert (all : forall nd, P nd /\ True).
  { fix rec 1. intros [pl fr bk ps]. split; [| exact I]. apply step.
    - destruct fr as [f' |]; intros f E; [| discriminate].
      replace f with f' by congruence. apply rec.
    - destruct bk as [k' |]; intros k E; [| discriminate].
      replace k with k' by congruence. apply rec. }
  intros nd. apply all.
Qed.

Lemma node_fresh_inv b pl fr bk ps :
  node_fresh b (BSP.Node pl fr bk ps) ->
  fresh b ps /\ (forall f, fr = Some f -> node_fresh b f) /\
  (forall k, bk = Some k -> node_fresh b k).
Proof.
  unfold node_fresh. simpl. intros H.
  apply fresh_app_inv in H. destruct H as [Hps H].
  apply fresh_app_inv in H. destruct H as [Hf Hk].
  repeat split; auto; intros x E; subst; assumption.
Qed.

Lemma node_fresh_intro b pl fr bk ps :
  fresh b ps -> (forall f, fr = Some f -> node_fresh b f) ->
  (forall k, bk = Some k -> node_fresh b k) ->
  node_fresh b (BSP.Node pl fr bk ps).
Proof.
  unfold node_fresh. simpl. intros Hps Hf Hk.
  apply fresh_app; [exact Hps |]. apply fresh_app.
  - destruct fr; [now apply Hf | constructor].
  - destruct bk; [now apply Hk | constructor].
Qed.

Lemma node_fresh_empty b : node_fresh b BSP.empty_node.
Proof. unfold node_fresh. simpl. constructor. Qed.

Lemma keeps_clip_polygons b : forall nd ps,
  fresh b ps -> keeps b (BSP.clip_polygons nd ps) (fresh b).
Proof.
  induction nd as [pl fr bk own IHf IHk] using BSPNode3_induction.
  intros ps Hps. simpl. destruct pl as [pl |]; [| now apply keeps_ret].
  eapply keeps_bind; [apply keeps_clip_split; auto with fresh |].
  intros [f k] [Hf Hk]. simpl in Hf, Hk.
  eapply keeps_bind with (mid := fresh b).
  { destruct fr as [n |]; [now apply (IHf n) | now apply keeps_ret]. }
  intros f' Hf'.
  eapply keeps_bind with (mid := fresh b).
  { destruct bk as [n |]; [now apply (IHk n) | apply keeps_ret; constructor]. }
  intros k' Hk'. apply keeps_ret. auto with fresh.
Qed.

Lemma keeps_optional_node b (f : BSP.BSPNode3 -> BSP.H BSP.BSPNode3) (o : option BSP.BSPNode3) :
  (forall nd, o = Some nd -> keeps b (f nd) (node_fresh b)) ->
  keeps b match o with
          | Some nd => nd' <- f nd ;; ret (Some nd')
          | None => ret None
          end
        (fun o' => forall nd', o' = Some nd' -> node_fresh b nd').
Proof.
  intros Hf. destruct o as [nd |].
  - eapply keeps_bind; [now apply Hf |]. intros nd' Hnd'.
    apply keeps_ret. intros x E. inversion E; subst. exact Hnd'.
  - apply keeps_ret. discriminate.
Qed.

Lemma keeps_clip_to b bsp : forall nd,
  node_fresh b nd -> keeps b (BSP.clip_to nd bsp) (node_fresh b).
Proof.
  induction nd as [pl fr bk own IHf IHk] using BSPNode3_induction.
  intros Hnd. apply node_fresh_inv in Hnd. destruct Hnd as [Hown [Hf Hk]]. simpl.
  eapply keeps_bind; [apply keeps_clip_polygons; exact Hown |]. intros ps' Hps'.
  eapply keeps_bind; [apply keeps_optional_node; intros nd E; apply IHf; auto |].
  intros fr' Hfr'.
  eapply keeps_bind; [apply keeps_optional_node; intros nd E; apply IHk; auto |].
  intros bk' Hbk'.
  apply keeps_ret. now apply node_fresh_intro.
Qed.

Lemma keeps_invert b : forall nd,
  node_fresh b nd -> keeps b (BSP.invert nd) (node_fresh b).
Proof.
  induction nd as [pl fr bk own IHf IHk] using BSPNode3_induction.
  intros Hnd. apply node_fresh_inv in Hnd. destruct Hnd as [Hown [Hf Hk]]. simpl.
  eapply keeps_bind; [apply keeps_flip_all; exact Hown |]. intros _ _.
  eapply keeps_bind; [apply keeps_optional_node; intros nd E; apply IHf; auto |].
  intros fr' Hfr'.
  eapply keeps_bind; [apply keeps_optional_node; intros nd E; apply IHk; auto |].
  intros bk' Hbk'.
  apply keeps_ret. now apply node_fresh_intro.
Qed.

Lemma keeps_build_fuel b : forall fuel nd ps,
  node_fresh b nd -> fresh b ps -> keeps b (BSP.build_fuel fuel nd ps) (node_fresh b).
Proof.
  induction fuel as [| fuel IH]; intros nd ps Hnd Hps;
    destruct ps as [| p0 rest]; simpl; try (now apply keeps_ret); [apply keeps_raise |].
  destruct nd as [pl fr bk own].
  apply node_fresh_inv in Hnd. destruct Hnd as [Hown [Hf Hk]].
  inversion Hps as [| ? ? Hp0 Hrest]; subst.
  eapply keeps_bind with (mid := fun _ => True).
  { destruct pl; [now apply keeps_ret |].
    eapply keeps_bind; [apply keeps_deref |]. intros p _. now apply keeps_ret. }
  intros pl' _.
  eapply keeps_bind; [apply keeps_build_split; auto with fresh |].
  intros [[own' f] k] [Hown' [Hf' Hk']]. simpl in Hown', Hf', Hk'.
  eapply keeps_bind with (mid := fun o => forall nd', o = Some nd' -> node_fresh b nd').
  { destruct f as [| f0 ftl]; [now apply keeps_ret |].
    eapply keeps_bind.
    - apply IH; [| exact Hf']. destruct fr; [now apply Hf | apply node_fresh_empty].
    - intros n' Hn'. apply keeps_ret. intros x E. inversion E; subst. exact Hn'. }
  intros fr' Hfr'.
  eapply keeps_bind with (mid := fun o => forall nd', o = Some nd' -> node_fresh b nd').
  { destruct k as [| k0 ktl]; [now apply keeps_ret |].
    eapply keeps_bind.
    - apply IH; [| exact Hk']. destruct bk; [now apply Hk | apply node_fresh_empty].
    - intros n' Hn'. apply keeps_ret. intros x E. inversion E; subst. exact Hn'. }
  intros bk' Hbk'.
  apply keeps_ret. now apply node_fresh_intro.
Qed.

Lemma keeps_build b nd ps :
  node_fresh b nd -> fresh b ps -> keeps b (BSP.build nd ps) (node_fresh b).
Proof. apply keeps_build_fuel. Qed.

Lemma keeps_new_node b ps : fresh b ps -> keeps b (BSP.new_node ps) (node_fresh b).
Proof. apply keeps_build. apply node_fresh_empty. Qed.

(** The two working trees of an operation hold clones only. *)
Lemma keeps_working_trees b (self bsp : BSP.BSP3) {A : Type}
    (k : BSP.BSPNode3 -> BSP.BSPNode3 -> BSP.H A) :
  (forall x y, node_fresh b x -> node_fresh b y -> keeps b (k x y) (fun _ => True)) ->
  keeps b (ca <- BSP.clone self ;; x <- BSP.new_node ca ;;
           cb <- BSP.clone bsp ;; y <- BSP.new_node cb ;; k x y) (fun _ => True).
Proof.
  intros Hk.
  eapply keeps_bind; [apply keeps_clone |]. intros ca Hca.
  eapply keeps_bind; [apply keeps_new_node; exact Hca |]. intros x Hx.
  eapply keeps_bind; [apply keeps_clone |]. intros cb Hcb.
  eapply keeps_bind; [apply keeps_new_node; exact Hcb |]. intros y Hy.
  now apply Hk.
Qed.

(** One step of an operation on the working trees. *)
Ltac keeps_step :=
  match goal with
  | |- keeps _ (bind (BSP.clip_to _ _) _) _ =>
      eapply keeps_bind; [apply keeps_clip_to; assumption | intros ? ?]
  | |- keeps _ (bind (BSP.invert _) _) _ =>
      eapply keeps_bind; [apply keeps_invert; assumption | intros ? ?]
  | |- keeps _ (bind (BSP.build _ _) _) _ =>
      eapply keeps_bind; [apply keeps_build; assumption | intros ? ?]
  | |- keeps _ (ret _) _ => apply keeps_ret; exact I
  end.

Lemma keeps_union b self bsp : keeps b (BSP.union self bsp) (fun _ => True).
Proof.
  unfold BSP.union. apply keeps_working_trees. intros x y Hx Hy.
  repeat keeps_step.
Qed.

Lemma keeps_subtract b self bsp : keeps b (BSP.subtract self bsp) (fun _ => True).
Proof.
  unfold BSP.subtract. apply keeps_working_trees. intros x y Hx Hy.
  repeat keeps_step.
Qed.

Lemma keeps_intersect b self bsp : keeps b (BSP.intersect self bsp) (fun _ => True).
Proof.
  unfold BSP.intersect. apply keeps_working_trees. intros x y Hx Hy.
  repeat keeps_step.
Qed.

Lemma keeps_inverse b self : keeps b (BSP.inverse self) (fresh b).
Proof.
  unfold BSP.inverse.
  eapply keeps_bind; [apply keeps_clone |]. intros c Hc.
  eapply keeps_bind; [apply keeps_flip_all; exact Hc |]. intros _ _.
  now apply keeps_ret.
Qed.

Lemma keeps_whole_heap {A : Type} (m : BSP.H A) (post : A -> Prop) (h : BSP.heap) :
  keeps (length h) m post -> firstn (length h) (snd (m h)) = h.
Proof.
  intros Hm. destruct (Hm h (Nat.le_refl _)) as [_ [Hf _]].
  rewrite Hf. apply firstn_all.
Qed.

(** C10: [union], [subtract], [intersect] and [inverse] leave their
    operands as they are.  Whatever the heap of polygon objects [h] and the
    two operands, and whether the call returns or raises, the heap after
    the call begins with [h]: every polygon that existed before the call
    has the vertices, the order, the shared tag and the plane it had; the
    call only adds objects (the clones and the pieces cut from them). *)
Theorem operations_leave_operands_unchanged (h : BSP.heap) (self bsp : BSP.BSP3) :
  firstn (length h) (snd (BSP.union self bsp h)) = h /\
  firstn (length h) (snd (BSP.subtract self bsp h)) = h /\
  firstn (length h) (snd (BSP.intersect self bsp h)) = h /\
  firstn (length h) (snd (BSP.inverse self h)) = h /\
  bsp_view (snd (BSP.union self bsp h)) (filter (fun r => r <? length h) (self ++ bsp))
    = bsp_view h (filter (fun r => r <? length h) (self ++ bsp)).
Proof.
  assert (U := keeps_whole_heap _ _ h (keeps_union (length h) self bsp)).
  repeat split.
  - exact U.
  - exact (keeps_whole_heap _ _ h (keeps_subtract (length h) self bsp)).
  - exact (keeps_whole_heap _ _ h (keeps_intersect (length h) self bsp)).
  - exact (keeps_whole_heap _ _ h (keeps_inverse (length h) self)).
  - unfold bsp_view. apply map_ext_in. intros r Hr.
    apply filter_In in Hr. destruct Hr as [_ Hr]. apply Nat.ltb_lt in Hr.
    f_equal. rewrite <- U at 2.
    rewrite nth_error_firstn. apply Nat.ltb_lt in Hr. now rewrite Hr.
Qed.

(** ** Inverting twice (C7) *)

Lemma vertex_clone_id (a : BSP.BSPVertex3) : BSP.vertex_clone a = a.
Proof. destruct a as [[px py pz]]. reflexivity. Qed.

Lemma map_vertex_clone_id (vs : list BSP.BSPVertex3) : map BSP.vertex_clone vs = vs.
Proof.
  induction vs as [| a tl IH]; simpl; [reflexivity |].
  now rewrite vertex_clone_id, IH.
Qed.

Lemma polygon_clone_run (h : BSP.heap) (r : BSP.ref) (p : BSP.BSPPolygon3) (pl : BSP.BSPPlane3) :
  nth_error h r = Some p ->
  BSP.polygon_plane (BSP.vertices p) = Ok pl ->
  BSP.polygon_clone r h =
    (Ok (length h), h ++ [BSP.mkPolygon (BSP.vertices p) (BSP.shared p) pl]).
Proof.
  intros Hr Hpl.
  unfold BSP.polygon_clone, BSP.deref, BSP.new_polygon, BSP.alloc, bind, get_state,
    put_state, lift, need, ret.
  rewrite Hr. rewrite map_vertex_clone_id, Hpl. reflexivity.
Qed.

Lemma polygon_flip_run (h0 tl : BSP.heap) (c : BSP.BSPPolygon3) :
  BSP.polygon_flip (length h0) (h0 ++ c :: tl) = (Ok tt, h0 ++ flipped c :: tl).
Proof.
  unfold BSP.polygon_flip, BSP.deref, BSP.store, bind, get_state, put_state, need, ret.
  rewrite nth_error_app2, Nat.sub_diag by lia. simpl.
  assert (E : forall l, list_set (l ++ c :: tl) (length l) (flipped c)
                        = Some (l ++ flipped c :: tl)).
  { induction l as [| a l IH]; simpl; [reflexivity | now rewrite IH]. }
  unfold flipped in E. now rewrite E.
Qed.

(** The polygons [ps] behind the references [a] can all be cloned, and
    [cl] are the clones. *)
Definition clones (h : BSP.heap) (a : list BSP.ref) (cl : list BSP.BSPPolygon3) : Prop :=
  Forall2 (fun r c => exists p, nth_error h r = Some p /\
                                BSP.vertices c = BSP.vertices p /\
                                BSP.shared c = BSP.shared p /\
                                BSP.polygon_plane (BSP.vertices p) = Ok (BSP.plane c)) a cl.

Lemma clones_grow (h ext : BSP.heap) a cl : clones h a cl -> clones (h ++ ext) a cl.
Proof.
  unfold clones. induction 1 as [| r c a cl [p [Hr Hc]] Hrest IH]; constructor; auto.
  exists p. split; [| exact Hc].
  rewrite nth_error_app1; [exact Hr |]. apply nth_error_Some. congruence.
Qed.

Lemma clone_run : forall (a : BSP.BSP3) (cl : list BSP.BSPPolygon3) (h : BSP.heap),
  clones h a cl ->
  BSP.clone a h = (Ok (seq (length h) (length a)), h ++ cl).
Proof.
  unfold BSP.clone.
  induction a as [| r a IH]; intros cl h Hcl; inversion Hcl as [| ? c ? cl' Hc Hrest]; subst.
  - simpl. now rewrite app_nil_r.
  - destruct Hc as [p [Hr [Hv [Hs Hpl]]]].
    simpl. erewrite bind_ok; [| eapply polygon_clone_run; eauto].
    replace (BSP.mkPolygon (BSP.vertices p) (BSP.shared p) (BSP.plane c)) with c
      by (destruct c; simpl in *; congruence).
    erewrite bind_ok; [| apply IH; apply clones_grow; exact Hrest].
    unfold ret. rewrite length_app, Nat.add_1_r, <- app_assoc. reflexivity.
Qed.

Lemma flip_all_run : forall (cl h0 : BSP.heap),
  for_each (seq (length h0) (length cl)) BSP.polygon_flip (h0 ++ cl)
  = (Ok tt, h0 ++ map flipped cl).
Proof.
  induction cl as [| c tl IH]; intros h0; simpl; [reflexivity |].
  erewrite bind_ok; [| apply polygon_flip_run].
  specialize (IH (h0 ++ [flipped c])).
  rewrite length_app, Nat.add_1_r, <- !app_assoc in IH. exact IH.
Qed.

Lemma inverse_run (a : BSP.BSP3) (cl : list BSP.BSPPolygon3) (h : BSP.heap) :
  clones h a cl ->
  BSP.inverse a h = (Ok (seq (length h) (length a)), h ++ map flipped cl).
Proof.
  intros Hcl. unfold BSP.inverse.
  erewrite bind_ok; [| apply clone_run; exact Hcl].
  assert (El : length a = length cl) by (eapply Forall2_length; exact Hcl).
  rewrite El. erewrite bind_ok; [| apply flip_all_run]. reflexivity.
Qed.

Lemma bsp_view_new (h0 l : BSP.heap) :
  bsp_view (h0 ++ l) (seq (length h0) (length l)) = map (fun p => Some (polygon_view p)) l.
Proof.
  revert h0. induction l as [| c tl IH]; intros h0; simpl; [reflexivity |].
  rewrite nth_error_app2, Nat.sub_diag by lia. simpl. f_equal.
  specialize (IH (h0 ++ [c])).
  rewrite length_app, Nat.add_1_r, <- app_assoc in IH. exact IH.
Qed.

Lemma clones_new (h0 l cl : BSP.heap) :
  Forall2 (fun p c => BSP.vertices c = BSP.vertices p /\ BSP.shared c = BSP.shared p /\
                      BSP.polygon_plane (BSP.vertices p) = Ok (BSP.plane c)) l cl ->
  clones (h0 ++ l) (seq (length h0) (length l)) cl.
Proof.
  unfold clones. revert h0 cl.
  induction l as [| p tl IH]; intros h0 cl H; inversion H as [| ? c ? cl' Hc Hrest]; subst;
    simpl; constructor.
  - exists p. rewrite nth_error_app2, Nat.sub_diag by lia. now simpl.
  - specialize (IH (h0 ++ [p]) cl' Hrest).
    rewrite length_app, Nat.add_1_r, <- app_assoc in IH. exact IH.
Qed.

(** C7, for the polygons that can be cloned in both vertex orders: the
    two calls of [inverse] return, and the polygons of the result are
    those of [a], one for one and in the same order, with the same vertex
    positions in the same sequence and the same shared tag. *)
Theorem inverse_twice_same_polygons (h : BSP.heap) (a : BSP.BSP3) :
  Forall (twice_clonable h) a ->
  exists a1 h1 a2 h2,
    BSP.inverse a h = (Ok a1, h1) /\
    BSP.inverse a1 h1 = (Ok a2, h2) /\
    bsp_view h2 a2 = bsp_view h a.
Proof.
  intros Ha.
  assert (H1 : exists cl, clones h a cl /\
             Forall2 (fun r c => exists p, nth_error h r = Some p /\
                        BSP.vertices c = BSP.vertices p /\ BSP.shared c = BSP.shared p /\
                        is_ok (BSP.polygon_plane (rev (BSP.vertices p))) = true) a cl).
  { induction Ha as [| r a [p [Hr [Hok Hrev]]] Hrest [cl [Hcl Hcl2]]].
    - exists []. split; constructor.
    - destruct (BSP.polygon_plane (BSP.vertices p)) as [pl |] eqn:Epl; [| discriminate].
      exists (BSP.mkPolygon (BSP.vertices p) (BSP.shared p) pl :: cl).
      split; constructor; auto; exists p; simpl; auto. }
  destruct H1 as [cl [Hcl Hcl2]].
  assert (H2 : exists cl2,
             Forall2 (fun p c => BSP.vertices c = BSP.vertices p /\
                                 BSP.shared c = BSP.shared p /\
                                 BSP.polygon_plane (BSP.vertices p) = Ok (BSP.plane c))
                     (map flipped cl) cl2 /\
             map polygon_view (map flipped cl2) = map polygon_view cl).
  { clear Hcl Ha. induction Hcl2 as [| r c a cl [p [Hr [Hv [Hs Hrev]]]] Hrest [cl2 [Hc2 Hview]]].
    - exists []. split; constructor.
    - rewrite <- Hv in Hrev.
      destruct (BSP.polygon_plane (rev (BSP.vertices c))) as [pl |] eqn:Epl; [| discriminate].
      exists (BSP.mkPolygon (rev (BSP.vertices c)) (BSP.shared c) pl :: cl2).
      split.
      + simpl. constructor; [simpl; auto | exact Hc2].
      + simpl. rewrite Hview. f_equal.
        unfold polygon_view. simpl. now rewrite rev_involutive. }
  destruct H2 as [cl2 [Hc2 Hview]].
  assert (Ela : length a = length cl) by (eapply Forall2_length; exact Hcl).
  exists (seq (length h) (length a)), (h ++ map flipped cl).
  exists (seq (length (h ++ map flipped cl)) (length (seq (length h) (length a)))),
         ((h ++ map flipped cl) ++ map flipped cl2).
  split; [now apply inverse_run |]. split.
  - apply inverse_run. rewrite Ela, <- (length_map flipped cl). now apply clones_new.
  - assert (El2 : length (seq (length h) (length a)) = length (map flipped cl2)).
    { rewrite length_seq, length_map, Ela.
      apply Forall2_length in Hc2. now rewrite length_map in Hc2. }
    rewrite El2, bsp_view_new.
    rewrite <- (map_map polygon_view Some), Hview.
    unfold bsp_view. clear - Hcl. unfold clones in Hcl.
    induction Hcl as [| r c a cl [p [Hr [Hv [Hs Hpl]]]] Hrest IH]; simpl; [reflexivity |].
    rewrite Hr, <- IH. simpl. unfold polygon_view. now rewrite Hv, Hs.
Qed.

Lemma inverse_twice_same_polygons_witness :
  let h := snd (BSP.new_polygon triangle_ring None []) in
  Forall (twice_clonable h) [0] /\
  exists a1 h1 a2 h2,
    BSP.inverse [0] h = (Ok a1, h1) /\
    BSP.inverse a1 h1 = (Ok a2, h2) /\
    bsp_view h2 a2 = bsp_view h [0].
Proof.
  intros h.
  assert (Hh : Forall (twice_clonable h) [0]).
  { constructor; [| constructor].
    eexists. split; [reflexivity |]. split; vm_compute; reflexivity. }
  split; [exact Hh | exact (inverse_twice_same_polygons h [0] Hh)].
Defined.

(** The ring (0,1,0), (0,0,0), (1,0,0), (2,0,0) makes a polygon and a
    [BSP3]; its first [inverse] returns, and the second one raises: the
    clone of the flipped polygon computes its plane from (2,0,0), (1,0,0),
    (0,0,0), whose cross product is the zero vector, and [unit] divides by
    its length. *)
Lemma inverse_twice_can_raise :
  let h := snd (BSP.new_polygon flat_end_ring None []) in
  BSP.new_polygon flat_end_ring None [] = (Ok 0, h) /\
  fst (BSP.inverse [0] h) = Ok [1] /\
  fst (BSP.inverse [1] (snd (BSP.inverse [0] h))) = Raise ZeroDivisionError /\
  ~ (exists a1 h1 a2 h2,
        BSP.inverse [0] h = (Ok a1, h1) /\
        BSP.inverse a1 h1 = (Ok a2, h2) /\
        bsp_view h2 a2 = bsp_view h [0]).
Proof.
  intros h. split; [| split; [| split]]; try (vm_compute; reflexivity).
  intros (a1 & h1 & a2 & h2 & E1 & E2 & _).
  assert (Ea : Ok a1 = Ok [1]).
  { change (Ok a1) with (fst (Ok a1, h1)). rewrite <- E1. vm_compute. reflexivity. }
  assert (Eh : h1 = snd (BSP.inverse [0] h)) by now rewrite E1.
  inversion Ea; subst a1 h1.
  assert (F : fst (BSP.inverse [1] (snd (BSP.inverse [0] h))) = Raise ZeroDivisionError)
    by (vm_compute; reflexivity).
  rewrite E2 in F. discriminate.
Qed.

(** ** The flip pass (C1, C3) *)

(** *** The two predicates as polynomials *)

Local Open Scope Z_scope.

(** On [int] coordinates the operations are those of [Z]. *)
Ltac int_ops := cbv [num n_zero n_add n_sub n_mul n_lt n_eq py_int] in *.

Lemma area_rot a b c : area b c a = area a b c.
Proof. unfold area. int_ops. ring. Qed.

Lemma area_swap a b c : area b a c = - area a b c.
Proof. unfold area. int_ops. ring. Qed.

Lemma area_flat a b : area a b a = 0.
Proof. unfold area. int_ops. ring. Qed.

Lemma det_rot a b c d : in_circle_det b c a d = in_circle_det a b c d.
Proof. unfold in_circle_det. int_ops. ring. Qed.

(** The test gives the same answer from both sides of an edge. *)
Lemma det_sym a b c d : in_circle_det b a d c = in_circle_det a b c d.
Proof. unfold in_circle_det. int_ops. ring. Qed.

(** After a flip the new diagonal passes the test. *)
Lemma det_flip a b c d : in_circle_det d c a b = - in_circle_det a b c d.
Proof. unfold in_circle_det. int_ops. ring. Qed.

Lemma det_same a b c : in_circle_det a b c c = 0.
Proof. unfold in_circle_det. int_ops. ring. Qed.

Lemma pot3_rot a b c : pot3 b c a = pot3 a b c.
Proof. unfold pot3, area, lift2. int_ops. ring. Qed.

(** A flip lowers the measure by the determinant of the test. *)
Lemma pot3_flip a b c d :
  pot3 a b c + pot3 b a d - pot3 d c a - pot3 c d b = in_circle_det a b c d.
Proof. unfold pot3, lift2, area, in_circle_det. int_ops. ring. Qed.

Lemma lift2_nonneg p : 0 <= lift2 p.
Proof.
  unfold lift2. pose proof (Z.square_nonneg (x p)). pose proof (Z.square_nonneg (y p)). lia.
Qed.

Lemma pot3_nonneg a b c : 0 < area a b c -> 0 <= pot3 a b c.
Proof.
  intros H. unfold pot3.
  pose proof (lift2_nonneg a). pose proof (lift2_nonneg b). pose proof (lift2_nonneg c).
  apply Z.mul_nonneg_nonneg; lia.
Qed.

Lemma dist2_nonneg p q : 0 <= dist2 p q.
Proof.
  unfold dist2. pose proof (Z.square_nonneg (x p - x q)).
  pose proof (Z.square_nonneg (y p - y q)). lia.
Qed.

Lemma area_sum a b c d : area a b c = area c d b + area d c a - area b a d.
Proof. unfold area. int_ops. ring. Qed.

Lemma convex_id1 a b c d :
  area c d b * in_circle_det a b c d =
  area a b c * (area d c a * dist2 b d - area b a d * dist2 c d)
  + area d c a * area b a d * dist2 b c.
Proof. unfold area, in_circle_det, dist2. int_ops. ring. Qed.

Lemma convex_id2 a b c d :
  area d c a * in_circle_det a b c d =
  area a b c * (area c d b * dist2 a d - area b a d * dist2 c d)
  + area c d b * area b a d * dist2 a c.
Proof. unfold area, in_circle_det, dist2. int_ops. ring. Qed.

(** The apex [d] of the neighbour is inside the circle of [a], [b], [c]:
    the four points are the corners of a convex quadrilateral, and the two
    triangles on the other diagonal are counter-clockwise. *)
Lemma flip_keeps_ccw a b c d :
  0 < area a b c -> 0 < area b a d -> 0 < in_circle_det a b c d ->
  0 < area d c a /\ 0 < area c d b.
Proof.
  intros S R I.
  pose proof (area_sum a b c d) as Es.
  pose proof (convex_id1 a b c d) as E1.
  pose proof (convex_id2 a b c d) as E2.
  pose proof (dist2_nonneg b d). pose proof (dist2_nonneg c d).
  pose proof (dist2_nonneg b c). pose proof (dist2_nonneg a d).
  pose proof (dist2_nonneg a c).
  set (P := area c d b) in *. set (Q := area d c a) in *.
  set (Rr := area b a d) in *. set (Ss := area a b c) in *.
  set (II := in_circle_det a b c d) in *.
  split.
  - destruct (Z_lt_le_dec 0 Q) as [| Hq]; [assumption | exfalso].
    assert (0 < P) by lia.
    assert (0 < P * II) by nia.
    assert (Q * dist2 b d <= 0) by nia.
    assert (0 <= Rr * dist2 c d) by nia.
    assert (Ss * (Q * dist2 b d - Rr * dist2 c d) <= 0) by nia.
    assert (Q * Rr * dist2 b c <= 0) by nia.
    lia.
  - destruct (Z_lt_le_dec 0 P) as [| Hp]; [assumption | exfalso].
    assert (0 < Q) by lia.
    assert (0 < Q * II) by nia.
    assert (P * dist2 a d <= 0) by nia.
    assert (0 <= Rr * dist2 c d) by nia.
    assert (Ss * (P * dist2 a d - Rr * dist2 c d) <= 0) by nia.
    assert (P * Rr * dist2 a c <= 0) by nia.
    lia.
Qed.

Lemma in_circle_inside a b c d :
  in_circle a b c d = INSIDE <-> 0 < in_circle_det a b c d.
Proof.
  unfold in_circle. change (@n_lt py_int) with Z.ltb. change (@n_eq py_int) with Z.eqb.
  change (@n_zero py_int) with 0.
  destruct (Z.ltb_spec 0 (in_circle_det a b c d)) as [H | H].
  - split; [intros _; exact H | reflexivity].
  - destruct (in_circle_det a b c d =? 0); split; try discriminate; lia.
Qed.

Local Close Scope Z_scope.

(** *** Slots *)

Lemma slot_cases (i : nat) : i < 3 -> i = 0 \/ i = 1 \/ i = 2.
Proof. lia. Qed.

(** Splits a slot below 3 into its three values. *)
Ltac slots i :=
  match goal with
  | H : i < 3 |- _ =>
      destruct (slot_cases i H) as [? | [? | ?]]; subst i; clear H
  end.

Lemma vtx_3 t : vtx t 3 = vtx t 0.
Proof. reflexivity. Qed.

Lemma vtx_4 t : vtx t 4 = vtx t 1.
Proof. reflexivity. Qed.

Lemma nbr_3 t : nbr t 3 = nbr t 0.
Proof. reflexivity. Qed.

Lemma nbr_4 t : nbr t 4 = nbr t 1.
Proof. reflexivity. Qed.

(** Brings the slots that were computed as [i + 1] and [i + 2] back below 3. *)
Ltac wrap_slots :=
  cbn [Nat.add] in *; rewrite ?vtx_3, ?vtx_4, ?nbr_3, ?nbr_4 in *.

Lemma tget_vtx (t : Triangle2) (i : nat) : tget (v t) (i mod 3) = Some (vtx t i).
Proof.
  unfold vtx. pose proof (Nat.mod_upper_bound i 3 ltac:(lia)) as H.
  remember (i mod 3) as r. destruct r as [| [| [| r]]]; try reflexivity. lia.
Qed.

Lemma tget_nbr (t : Triangle2) (i : nat) : tget (n t) (i mod 3) = Some (nbr t i).
Proof.
  unfold nbr. pose proof (Nat.mod_upper_bound i 3 ltac:(lia)) as H.
  remember (i mod 3) as r. destruct r as [| [| [| r]]]; try reflexivity. lia.
Qed.

Lemma tget_vtx_slot (t : Triangle2) (i : nat) : i < 3 -> tget (v t) i = Some (vtx t i).
Proof. intros H. rewrite <- (Nat.mod_small i 3 H) at 1. apply tget_vtx. Qed.

Lemma tget_nbr_slot (t : Triangle2) (i : nat) : i < 3 -> tget (n t) i = Some (nbr t i).
Proof. intros H. rewrite <- (Nat.mod_small i 3 H) at 1. apply tget_nbr. Qed.

Lemma is_ghost_vtx (t : Triangle2) : is_ghost t = true <-> vtx t 2 = None.
Proof. unfold is_ghost, vtx. simpl. destruct (s2 (v t)); split; congruence. Qed.

(** *** Lists updated at an index *)

Lemma list_set_upd {A : Type} (l : list A) : forall k a,
  k < length l -> list_set l k a = Some (upd l k a).
Proof.
  induction l as [| h tl IH]; intros k a Hk; simpl in *; [lia |].
  destruct k as [| k]; [reflexivity |]. rewrite IH by lia. reflexivity.
Qed.

Lemma length_upd {A : Type} (l : list A) : forall k a, length (upd l k a) = length l.
Proof.
  induction l as [| h tl IH]; intros k a; simpl; [reflexivity |].
  destruct k; simpl; [reflexivity | now rewrite IH].
Qed.

Lemma nth_error_upd_eq {A : Type} (l : list A) : forall k a,
  k < length l -> nth_error (upd l k a) k = Some a.
Proof.
  induction l as [| h tl IH]; intros k a Hk; simpl in *; [lia |].
  destruct k as [| k]; simpl; [reflexivity | apply IH; lia].
Qed.

Lemma nth_error_upd_ne {A : Type} (l : list A) : forall k k' a,
  k' <> k -> nth_error (upd l k a) k' = nth_error l k'.
Proof.
  induction l as [| h tl IH]; intros k k' a Hne; simpl; [reflexivity |].
  destruct k as [| k], k' as [| k']; simpl; try reflexivity; try lia.
  apply IH. lia.
Qed.

Lemma upd_same {A : Type} (l : list A) : forall k a,
  nth_error l k = Some a -> upd l k a = l.
Proof.
  induction l as [| h tl IH]; intros k a E; simpl; [reflexivity |].
  destruct k as [| k]; simpl in E.
  - now inversion E.
  - f_equal. now apply IH.
Qed.

Lemma nth_error_in_range {A : Type} (l : list A) k a :
  nth_error l k = Some a -> k < length l.
Proof. intros E. apply nth_error_Some. congruence. Qed.

(** *** Running the primitives *)

Lemma get_tri_run s k t :
  nth_error (triangles s) k = Some t -> get_tri k s = (Ok t, s).
Proof. intros E. unfold get_tri, bind, get_state, need. now rewrite E. Qed.

Lemma put_tri_run s k t :
  k < length (triangles s) ->
  put_tri k t s = (Ok tt, with_triangles s (upd (triangles s) k t)).
Proof.
  intros Hk. unfold put_tri, bind, get_state, need.
  rewrite list_set_upd by exact Hk. reflexivity.
Qed.

Lemma get_vertex_run s a p :
  nth_error (vertices s) a = Some p -> get_vertex (Some a) s = (Ok p, s).
Proof. intros E. unfold get_vertex, bind, get_state, need, ret. now rewrite E. Qed.

Lemma repoint_run s k t old new :
  nth_error (triangles s) k = Some t ->
  repoint k old new s = (Ok tt, with_triangles s (upd (triangles s) k (repointed t old new))).
Proof.
  intros E. pose proof (nth_error_in_range _ _ _ E) as Hk.
  unfold repoint. rewrite (bind_ok _ _ _ _ _ (get_tri_run s k t E)).
  unfold repointed, set_n.
  assert (P : forall i n', tset (n t) i new = Some n' ->
              (t0 <- get_tri k ;;
               n'' <- need IndexError (tset (n t0) i new) ;;
               put_tri k (mkTriangle2 (v t0) n'')) s
              = (Ok tt, with_triangles s (upd (triangles s) k (mkTriangle2 (v t) n')))).
  { intros i n' En. rewrite (bind_ok _ _ _ _ _ (get_tri_run s k t E)). rewrite En. simpl.
    unfold bind at 1. simpl. now apply put_tri_run. }
  destruct (s0 (n t) =? old); [now apply P |].
  destruct (s1 (n t) =? old); [now apply P |].
  destruct (s2 (n t) =? old); [now apply P |].
  unfold ret. rewrite (upd_same _ _ _ E). now destruct s.
Qed.

Lemma pair_of_sym a b : pair_of a b = pair_of b a.
Proof. unfold pair_of. now rewrite Nat.min_comm, Nat.max_comm. Qed.

Lemma pair_of_eq a b a' b' :
  pair_of a b = pair_of a' b' <-> (a = a' /\ b = b') \/ (a = b' /\ b = a').
Proof.
  unfold pair_of. split.
  - intros E. inversion E. lia.
  - intros [[-> ->] | [-> ->]]; [reflexivity |].
    now rewrite Nat.min_comm, Nat.max_comm.
Qed.

Lemma edge_eqb_eq e1 e2 : edge_eqb e1 e2 = true <-> e1 = e2.
Proof.
  unfold edge_eqb. destruct e1 as [a b], e2 as [a' b']. simpl.
  rewrite andb_true_iff, !Nat.eqb_eq. split; [intros [-> ->] | intros E; inversion E]; auto.
Qed.

Lemma edge_at_run {S : Type} (t : Triangle2) (i a b : nat) (s : S) :
  i < 3 -> vtx t i = Some a -> vtx t (i + 1) = Some b ->
  edge_at t i s = (Ok (pair_of a b), s).
Proof.
  intros Hi Ea Eb. unfold edge_at, canon, bind, need, ret.
  rewrite (tget_vtx_slot t i Hi), Ea, tget_vtx, Eb. reflexivity.
Qed.

(** The vertices of a counter-clockwise triangle, read from slot [i]. *)
Lemma ccw_at_slot V t i :
  ccw_triangle V t -> i < 3 ->
  exists a b c pa pb pc,
    vtx t i = Some a /\ vtx t (i + 1) = Some b /\ vtx t (i + 2) = Some c /\
    nth_error V a = Some pa /\ nth_error V b = Some pb /\ nth_error V c = Some pc /\
    (0 < area pa pb pc)%Z /\ a <> b /\ b <> c /\ a <> c /\
    is_ghost t = false.
Proof.
  intros (p0 & p1 & p2 & E0 & E1 & E2 & Ha) Hi.
  unfold vtx in *. simpl in *.
  destruct t as [[[a0 |] [a1 |] [a2 |]] nn]; simpl in *; try discriminate.
  assert (D : a0 <> a1 /\ a1 <> a2 /\ a0 <> a2).
  { repeat split; intros ->.
    - replace p1 with p0 in Ha by congruence.
      rewrite <- area_rot, area_flat in Ha. lia.
    - replace p2 with p1 in Ha by congruence.
      rewrite <- area_rot, <- area_rot, area_flat in Ha. lia.
    - replace p2 with p0 in Ha by congruence. rewrite area_flat in Ha. lia. }
  destruct D as (D1 & D2 & D3).
  slots i; simpl.
  - exists a0, a1, a2, p0, p1, p2. repeat split; auto.
  - exists a1, a2, a0, p1, p2, p0. rewrite area_rot. repeat split; auto.
  - exists a2, a0, a1, p2, p0, p1. rewrite area_rot, area_rot. repeat split; auto.
Qed.

Lemma find_slot_run s (t : Triangle2) (j a b : nat) V :
  ccw_triangle V t -> j < 3 ->
  vtx t j = Some b -> vtx t (j + 1) = Some a ->
  find_slot t (pair_of a b) s = (Ok (Some j), s).
Proof.
  intros Hc Hj Eb Ea.
  destruct (ccw_at_slot V t 0 Hc ltac:(lia))
    as (x0 & x1 & x2 & _ & _ & _ & E0 & E1 & E2 & _ & _ & _ & _ & D1 & D2 & D3 & _).
  wrap_slots.
  assert (F : forall x y, edge_eqb (pair_of a b) (pair_of x y) = false ->
                          ~ (x = b /\ y = a)).
  { intros x y F [-> ->]. rewrite pair_of_sym in F.
    assert (edge_eqb (pair_of b a) (pair_of b a) = true) by now apply edge_eqb_eq.
    congruence. }
  unfold find_slot.
  rewrite (bind_ok _ _ _ _ _ (edge_at_run t 0 x0 x1 s ltac:(lia) E0 E1)).
  destruct (edge_eqb (pair_of a b) (pair_of x0 x1)) eqn:T0.
  { apply edge_eqb_eq, pair_of_eq in T0.
    slots j; wrap_slots; [reflexivity | |]; exfalso;
      destruct T0 as [[? ?] | [? ?]]; congruence. }
  rewrite (bind_ok _ _ _ _ _ (edge_at_run t 1 x1 x2 s ltac:(lia) E1 E2)).
  destruct (edge_eqb (pair_of a b) (pair_of x1 x2)) eqn:T1.
  { apply edge_eqb_eq, pair_of_eq in T1.
    slots j; wrap_slots; [| reflexivity |]; exfalso;
      destruct T1 as [[? ?] | [? ?]]; congruence. }
  rewrite (bind_ok _ _ _ _ _ (edge_at_run t 2 x2 x0 s ltac:(lia) E2 E0)).
  destruct (edge_eqb (pair_of a b) (pair_of x2 x0)) eqn:T2.
  { apply edge_eqb_eq, pair_of_eq in T2.
    slots j; wrap_slots; [| | reflexivity]; exfalso;
      destruct T2 as [[? ?] | [? ?]]; congruence. }
  exfalso.
  slots j; wrap_slots.
  - apply (F _ _ T0). split; congruence.
  - apply (F _ _ T1). split; congruence.
  - apply (F _ _ T2). split; congruence.
Qed.

Lemma in_circle_idx_run s k t p0 p1 p2 d :
  nth_error (triangles s) k = Some t ->
  point (vertices s) (vtx t 0) = Some p0 ->
  point (vertices s) (vtx t 1) = Some p1 ->
  point (vertices s) (vtx t 2) = Some p2 ->
  in_circle_idx k d s = (Ok (in_circle p0 p1 p2 d), s).
Proof.
  intros E E0 E1 E2. unfold in_circle_idx.
  rewrite (bind_ok _ _ _ _ _ (get_tri_run s k t E)).
  unfold vtx in *. simpl in *.
  destruct (s0 (v t)) as [a0 |]; [| discriminate].
  destruct (s1 (v t)) as [a1 |]; [| discriminate].
  destruct (s2 (v t)) as [a2 |]; [| discriminate].
  simpl in *.
  rewrite (bind_ok _ _ _ _ _ (get_vertex_run s a0 p0 E0)).
  rewrite (bind_ok _ _ _ _ _ (get_vertex_run s a1 p1 E1)).
  rewrite (bind_ok _ _ _ _ _ (get_vertex_run s a2 p2 E2)).
  reflexivity.
Qed.

Lemma push_edge_run s outer k a b slot o t xa xb :
  nth_error (triangles s) outer = Some o ->
  nth_error (triangles s) k = Some t ->
  tget (v t) a = Some (Some xa) -> tget (v t) b = Some (Some xb) ->
  push_edge outer k a b slot s =
    (Ok (if is_ghost o then [] else [(pair_of xa xb, k, slot)]), s).
Proof.
  intros Eo Ek Ea Eb. unfold push_edge.
  rewrite (bind_ok _ _ _ _ _ (get_tri_run s outer o Eo)).
  destruct (is_ghost o); [reflexivity |].
  rewrite (bind_ok _ _ _ _ _ (get_tri_run s k t Ek)).
  unfold bind, need, canon, ret. rewrite Ea, Eb. reflexivity.
Qed.

(** *** Edges of a triangulation *)

Lemma ccw_at_swap V a b c : ccw_at V a b c -> ccw_at V b a c -> False.
Proof.
  intros (pa & pb & pc & Ea & Eb & Ec & H) (qb & qa & qc & Fb & Fa & Fc & H').
  replace qa with pa in H' by congruence. replace qb with pb in H' by congruence.
  replace qc with pc in H' by congruence.
  rewrite area_swap in H'. lia.
Qed.

Lemma ccw_at_rot V a b c : ccw_at V a b c -> ccw_at V b c a.
Proof.
  intros (pa & pb & pc & Ea & Eb & Ec & H).
  exists pb, pc, pa. rewrite area_rot. auto.
Qed.

Lemma ccw_at_flat V a b : ccw_at V a b a -> False.
Proof.
  intros (pa & pb & pc & Ea & Eb & Ec & H).
  replace pc with pa in H by congruence. rewrite area_flat in H. lia.
Qed.

(** Two orientations of one triple of indices cannot both be
    counter-clockwise, and a triple with a repeated index is not. *)
Ltac ccw_clash :=
  match goal with
  | H1 : ccw_at ?V ?a ?b ?c, H2 : ccw_at ?V ?b ?a ?c |- _ =>
      exact (False_ind _ (ccw_at_swap V a b c H1 H2))
  | H1 : ccw_at ?V ?a ?b ?c, H2 : ccw_at ?V ?a ?c ?b |- _ =>
      exact (False_ind _ (ccw_at_swap V b c a (ccw_at_rot _ _ _ _ H1)
                            (ccw_at_rot _ _ _ _ (ccw_at_rot _ _ _ _ (ccw_at_rot _ _ _ _
                               (ccw_at_rot _ _ _ _ H2))))))
  | H1 : ccw_at ?V ?a ?b ?c, H2 : ccw_at ?V ?c ?b ?a |- _ =>
      exact (False_ind _ (ccw_at_swap V a b c H1 (ccw_at_rot _ _ _ _ H2)))
  | H : ccw_at ?V ?a ?b ?a |- _ => exact (False_ind _ (ccw_at_flat V a b H))
  | H : ccw_at ?V ?a ?a ?b |- _ =>
      exact (False_ind _ (ccw_at_flat V a b (ccw_at_rot _ _ _ _ H)))
  | H : ccw_at ?V ?b ?a ?a |- _ =>
      exact (False_ind _ (ccw_at_flat V a b (ccw_at_rot _ _ _ _ (ccw_at_rot _ _ _ _ H))))
  end.

Lemma ccw_triangle_at V t i a b c :
  ccw_triangle V t -> i < 3 ->
  vtx t i = Some a -> vtx t (i + 1) = Some b -> vtx t (i + 2) = Some c ->
  ccw_at V a b c.
Proof.
  intros Hc Hi Ea Eb Ec.
  destruct (ccw_at_slot V t i Hc Hi)
    as (a' & b' & c' & pa & pb & pc & E1 & E2 & E3 & P1 & P2 & P3 & H & _).
  replace a with a' by congruence. replace b with b' by congruence.
  replace c with c' by congruence. exists pa, pb, pc. auto.
Qed.

Section Edges.

Variable s : Triangulation2.
Hypothesis Hs : triangulation s.

Lemma edge_lookup k x y m :
  edge (triangles s) k x y m -> exists t, nth_error (triangles s) k = Some t.
Proof. intros (t & i & Et & _). now exists t. Qed.

(** Two edges of one triangle are the same edge or follow each other. *)
Lemma two_edges k x y m x' y' m' :
  edge (triangles s) k x y m -> edge (triangles s) k x' y' m' ->
  (x = x' /\ y = y' /\ m = m') \/
  (y = x' /\ ccw_at (vertices s) x y y') \/
  (y' = x /\ ccw_at (vertices s) x' y' y).
Proof.
  intros (t & i & Et & Hi & Ex & Ey & Em) (t' & i' & Et' & Hi' & Ex' & Ey' & Em').
  assert (t' = t) by congruence. subst t'.
  destruct (is_ghost t) eqn:G.
  - apply is_ghost_vtx in G. left.
    slots i; slots i'; wrap_slots; try congruence.
    repeat split; congruence.
  - pose proof (tri_ccw s Hs k t Et G) as Hc.
    slots i; slots i'; wrap_slots;
      try (left; repeat split; congruence);
      try (right; left; split; [congruence |];
           first [ apply (ccw_triangle_at _ t 0 _ _ _ Hc); wrap_slots; auto; fail
                 | apply (ccw_triangle_at _ t 1 _ _ _ Hc); wrap_slots; auto; fail
                 | apply (ccw_triangle_at _ t 2 _ _ _ Hc); wrap_slots; auto; fail ]);
      try (right; right; split; [congruence |];
           first [ apply (ccw_triangle_at _ t 0 _ _ _ Hc); wrap_slots; auto; fail
                 | apply (ccw_triangle_at _ t 1 _ _ _ Hc); wrap_slots; auto; fail
                 | apply (ccw_triangle_at _ t 2 _ _ _ Hc); wrap_slots; auto; fail ]).
Qed.

(** The neighbour across an edge of an existent triangle carries the
    reverse edge and points back. *)
Lemma edge_mirror k t x y m :
  nth_error (triangles s) k = Some t -> is_ghost t = false ->
  edge (triangles s) k x y m -> edge (triangles s) m y x k.
Proof.
  intros Et G (t0 & i & Et0 & Hi & Ex & Ey & Em).
  assert (t0 = t) by congruence. subst t0.
  destruct (tri_adjacent s Hs k t i Et G Hi) as (t' & j & Et' & Hj & E1 & E2 & E3).
  exists t', j. rewrite Em in Et'. repeat split; auto; congruence.
Qed.

Lemma edge_ccw k t x y m :
  nth_error (triangles s) k = Some t -> is_ghost t = false ->
  edge (triangles s) k x y m -> exists z, ccw_at (vertices s) x y z.
Proof.
  intros Et G (t0 & i & Et0 & Hi & Ex & Ey & Em).
  assert (t0 = t) by congruence. subst t0.
  pose proof (tri_ccw s Hs k t Et G) as Hc.
  destruct (ccw_at_slot _ t i Hc Hi)
    as (a' & b' & c' & pa & pb & pc & E1 & E2 & E3 & P1 & P2 & P3 & H & _).
  exists c'. replace x with a' by congruence. replace y with b' by congruence.
  exists pa, pb, pc. auto.
Qed.

End Edges.

Lemma repointed_v t old new : v (repointed t old new) = v t.
Proof.
  unfold repointed.
  destruct (s0 (n t) =? old); [reflexivity |].
  destruct (s1 (n t) =? old); [reflexivity |].
  destruct (s2 (n t) =? old); reflexivity.
Qed.

Lemma repointed_ghost t old new : is_ghost (repointed t old new) = is_ghost t.
Proof. unfold is_ghost. now rewrite repointed_v. Qed.

Lemma repointed_vtx t old new k : vtx (repointed t old new) k = vtx t k.
Proof. unfold vtx. now rewrite repointed_v. Qed.

Lemma repointed_nbr_0 t old new :
  nbr (repointed t old new) 0 = if nbr t 0 =? old then new else nbr t 0.
Proof.
  unfold repointed, nbr. simpl.
  destruct (s0 (n t) =? old) eqn:E0; simpl; [reflexivity |].
  destruct (s1 (n t) =? old); simpl; [reflexivity |].
  destruct (s2 (n t) =? old); reflexivity.
Qed.

Lemma repointed_nbr_unique t old new :
  (forall k1 k2, k1 < 3 -> k2 < 3 -> nbr t k1 = old -> nbr t k2 = old -> k1 = k2) ->
  forall k, k < 3 ->
    nbr (repointed t old new) k = if nbr t k =? old then new else nbr t k.
Proof.
  intros U k Hk. unfold repointed.
  pose proof (U 0 1 ltac:(lia) ltac:(lia)) as U01.
  pose proof (U 0 2 ltac:(lia) ltac:(lia)) as U02.
  pose proof (U 1 2 ltac:(lia) ltac:(lia)) as U12.
  unfold nbr in *. simpl in U01, U02, U12.
  destruct (Nat.eqb_spec (s0 (n t)) old) as [E0 | E0];
    destruct (Nat.eqb_spec (s1 (n t)) old) as [E1 | E1];
    destruct (Nat.eqb_spec (s2 (n t)) old) as [E2 | E2];
    try (specialize (U01 E0 E1); discriminate);
    try (specialize (U02 E0 E2); discriminate);
    try (specialize (U12 E1 E2); discriminate);
    slots k; simpl;
    rewrite ?E0, ?E1, ?E2, ?Nat.eqb_refl; try reflexivity;
    repeat match goal with
           | |- context [?x =? ?y] => destruct (Nat.eqb_spec x y); try congruence
           end.
Qed.

Lemma edge_Tri T k p q r n0 n1 n2 x y m :
  nth_error T k = Some (Tri (Some p) (Some q) (Some r) n0 n1 n2) ->
  (edge T k x y m <->
   (x = p /\ y = q /\ m = n0) \/ (x = q /\ y = r /\ m = n1) \/ (x = r /\ y = p /\ m = n2)).
Proof.
  intros E. split.
  - intros (t & k0 & Et & Hk & Ex & Ey & Em).
    assert (t = Tri (Some p) (Some q) (Some r) n0 n1 n2) by congruence. subst t.
    unfold Tri, vtx, nbr in *.
    slots k0; simpl in *; [left | right; left | right; right]; repeat split; congruence.
  - intros [(-> & -> & ->) | [(-> & -> & ->) | (-> & -> & ->)]];
      eexists; [exists 0 | exists 1 | exists 2]; repeat split; try exact E; auto.
Qed.

Lemma edge_transfer T T' k x y m :
  nth_error T' k = nth_error T k -> edge T k x y m -> edge T' k x y m.
Proof.
  intros E (t & k0 & Et & H). exists t, k0. split; [congruence | exact H].
Qed.

Lemma slot_unique V t k1 k2 :
  ccw_triangle V t -> k1 < 3 -> k2 < 3 -> vtx t k1 = vtx t k2 -> k1 = k2.
Proof.
  intros Hc H1 H2 E.
  destruct (ccw_at_slot V t 0 Hc ltac:(lia))
    as (x0 & x1 & x2 & _ & _ & _ & E0 & E1 & E2 & _ & _ & _ & _ & D1 & D2 & D3 & _).
  wrap_slots. slots k1; slots k2; wrap_slots; congruence.
Qed.

(** A flat triangle has no edge. *)
Lemma edge_not_loop s k t x m :
  triangulation s -> nth_error (triangles s) k = Some t -> is_ghost t = false ->
  edge (triangles s) k x x m -> False.
Proof.
  intros Hs Et G He.
  destruct (edge_ccw s Hs k t x x m Et G He) as (z & Hz). ccw_clash.
Qed.

(** After [repoint], at a slot that carries an edge: the neighbour that was
    [old] is [new], provided [old] has one edge only towards this
    triangle. *)
Lemma repointed_edge_slot s k t old new k0 x y :
  triangulation s -> nth_error (triangles s) k = Some t ->
  (forall x1 y1 x2 y2, edge (triangles s) old x1 y1 k -> edge (triangles s) old x2 y2 k ->
                       x1 = x2 /\ y1 = y2) ->
  k0 < 3 -> vtx t k0 = Some x -> vtx t (k0 + 1) = Some y ->
  nbr (repointed t old new) k0 = if nbr t k0 =? old then new else nbr t k0.
Proof.
  intros Hs Et Single Hk0 Ex Ey.
  destruct (is_ghost t) eqn:G.
  - apply is_ghost_vtx in G.
    slots k0; wrap_slots; try congruence. apply repointed_nbr_0.
  - apply repointed_nbr_unique; [| exact Hk0].
    intros k1 k2 H1 H2 N1 N2.
    pose proof (tri_ccw s Hs k t Et G) as Hc.
    destruct (ccw_at_slot _ t k1 Hc H1) as (a1 & b1 & c1 & _ & _ & _ & A1 & B1 & _).
    destruct (ccw_at_slot _ t k2 Hc H2) as (a2 & b2 & c2 & _ & _ & _ & A2 & B2 & _).
    assert (M1 : edge (triangles s) old b1 a1 k).
    { apply (edge_mirror s Hs k t a1 b1 old Et G). exists t, k1. auto. }
    assert (M2 : edge (triangles s) old b2 a2 k).
    { apply (edge_mirror s Hs k t a2 b2 old Et G). exists t, k2. auto. }
    destruct (Single _ _ _ _ M1 M2) as (_ & Ea12).
    apply (slot_unique _ t k1 k2 Hc H1 H2). congruence.
Qed.

(** *** The measure *)

Lemma potential_upd V (l : list Triangle2) : forall k t t0,
  nth_error l k = Some t0 ->
  potential V (upd l k t) = (potential V l - pot V t0 + pot V t)%Z.
Proof.
  unfold potential.
  induction l as [| h tl IH]; intros k t t0 E; destruct k as [| k]; simpl in *;
    try discriminate.
  - inversion E; subst. lia.
  - rewrite (IH k t t0 E). lia.
Qed.

Lemma pot_same_v V t t0 : v t = v t0 -> pot V t = pot V t0.
Proof. intros E. unfold pot, vtx. now rewrite E. Qed.

Lemma pot_at_slot V t k a b c pa pb pc :
  k < 3 -> vtx t k = Some a -> vtx t (k + 1) = Some b -> vtx t (k + 2) = Some c ->
  nth_error V a = Some pa -> nth_error V b = Some pb -> nth_error V c = Some pc ->
  pot V t = pot3 pa pb pc.
Proof.
  intros Hk Ea Eb Ec Pa Pb Pc. unfold pot.
  slots k; wrap_slots; rewrite Ea, Eb, Ec; simpl; rewrite Pa, Pb, Pc.
  - reflexivity.
  - now rewrite <- pot3_rot.
  - now rewrite pot3_rot.
Qed.

Lemma pot_nonneg s k t :
  triangulation s -> nth_error (triangles s) k = Some t -> (0 <= pot (vertices s) t)%Z.
Proof.
  intros Hs Et. destruct (is_ghost t) eqn:G.
  - apply is_ghost_vtx in G. unfold pot. rewrite G. simpl.
    destruct (point (vertices s) (vtx t 0)); [| lia].
    destruct (point (vertices s) (vtx t 1)); lia.
  - destruct (tri_ccw s Hs k t Et G) as (p0 & p1 & p2 & E0 & E1 & E2 & Ha).
    unfold pot. rewrite E0, E1, E2. now apply pot3_nonneg.
Qed.

Lemma potential_nonneg s : triangulation s -> (0 <= potential (vertices s) (triangles s))%Z.
Proof.
  intros Hs. unfold potential.
  assert (H : forall l, (forall t, In t l -> (0 <= pot (vertices s) t)%Z) ->
                        (0 <= fold_right Z.add 0 (map (pot (vertices s)) l))%Z).
  { induction l as [| h tl IH]; intros Hl; simpl; [lia |].
    pose proof (Hl h (or_introl eq_refl)).
    assert (0 <= fold_right Z.add 0 (map (pot (vertices s)) tl))%Z
      by (apply IH; intros t Ht; apply Hl; now right).
    lia. }
  apply H. intros t Ht. apply In_nth_error in Ht. destruct Ht as (k & Ek).
  now apply (pot_nonneg s k t).
Qed.

(** *** Hull edges and internal edges *)

(** The pair of vertices of an edge with a counter-clockwise triangle on
    each side is not the pair of a ghost. *)
Lemma no_ghost_on_internal s kg g u w x y z z' :
  triangulation s -> nth_error (triangles s) kg = Some g -> is_ghost g = true ->
  vtx g 0 = Some u -> vtx g 1 = Some w ->
  ccw_at (vertices s) x y z -> ccw_at (vertices s) y x z' ->
  pair_of x y <> pair_of u w.
Proof.
  intros Hs Eg G Eu Ew (px & py & pz & Px & Py & Pz & H1) (qy & qx & pz' & Qy & Qx & Pz' & H2) E.
  replace qx with px in H2 by congruence. replace qy with py in H2 by congruence.
  apply pair_of_eq in E. destruct E as [[-> ->] | [-> ->]].
  - assert (H := tri_hull s Hs kg g px py pz Eg G).
    rewrite Eu, Ew in H. simpl in H.
    specialize (H Px Py (nth_error_In _ _ Pz)).
    rewrite area_swap in H. lia.
  - assert (H := tri_hull s Hs kg g py px pz' Eg G).
    rewrite Eu, Ew in H. simpl in H.
    specialize (H Py Px (nth_error_In _ _ Pz')).
    rewrite area_swap in H. lia.
Qed.

Lemma wing_existent T k i a b c m :
  wing T k i a b c m -> exists t, nth_error T k = Some t /\ is_ghost t = false.
Proof.
  intros (t & Et & Hi & Ea & Eb & Ec & Em). exists t. split; [exact Et |].
  destruct (is_ghost t) eqn:G; [| reflexivity].
  apply is_ghost_vtx in G. slots i; wrap_slots; congruence.
Qed.

Lemma wing_edge T k i a b c m : wing T k i a b c m -> edge T k a b m.
Proof. intros (t & Et & Hi & Ea & Eb & Ec & Em). exists t, i. auto. Qed.

Lemma wing_Tri T k p q r n0 n1 n2 i x y z m :
  nth_error T k = Some (Tri (Some p) (Some q) (Some r) n0 n1 n2) ->
  wing T k i x y z m ->
  (i = 0 /\ x = p /\ y = q /\ z = r /\ m = n0) \/
  (i = 1 /\ x = q /\ y = r /\ z = p /\ m = n1) \/
  (i = 2 /\ x = r /\ y = p /\ z = q /\ m = n2).
Proof.
  intros E (t & Et & Hi & Ex & Ey & Ez & Em).
  assert (t = Tri (Some p) (Some q) (Some r) n0 n1 n2) by congruence. subst t.
  unfold Tri, vtx, nbr in *.
  slots i; simpl in *; [left | right; left | right; right]; repeat split; congruence.
Qed.

(** *** One flip

    The setting of a flip: [ti], at index [i], is existent and has the edge
    from [a] to [b] at slot [si], with apex [c]; [tj], its neighbour [j]
    across that edge, is existent and has the edge from [b] to [a] at slot
    [sj], with apex [d]; and [d] is INSIDE the circle of [a], [b], [c]. *)

Section Flip.

Variable s : Triangulation2.
Hypothesis Hs : triangulation s.
Variables (i si j sj : nat) (ti tj : Triangle2) (a b c d : nat).
Variables (pa pb pc pd : Vector2).
Hypothesis Hti : nth_error (triangles s) i = Some ti.
Hypothesis Gti : is_ghost ti = false.
Hypothesis Hsi : si < 3.
Hypothesis Ea : vtx ti si = Some a.
Hypothesis Eb : vtx ti (si + 1) = Some b.
Hypothesis Ec : vtx ti (si + 2) = Some c.
Hypothesis Nj : nbr ti si = j.
Hypothesis Htj : nth_error (triangles s) j = Some tj.
Hypothesis Gtj : is_ghost tj = false.
Hypothesis Hsj : sj < 3.
Hypothesis Fb : vtx tj sj = Some b.
Hypothesis Fa : vtx tj (sj + 1) = Some a.
Hypothesis Fd : vtx tj (sj + 2) = Some d.
Hypothesis Pa : nth_error (vertices s) a = Some pa.
Hypothesis Pb : nth_error (vertices s) b = Some pb.
Hypothesis Pc : nth_error (vertices s) c = Some pc.
Hypothesis Pd : nth_error (vertices s) d = Some pd.
Hypothesis Hdet : (0 < in_circle_det pa pb pc pd)%Z.

Let i1 : nat := nbr ti (si + 1).
Let i2 : nat := nbr ti (si + 2).
Let j1 : nat := nbr tj (sj + 1).
Let j2 : nat := nbr tj (sj + 2).

Lemma flip_abc : ccw_at (vertices s) a b c.
Proof. exact (ccw_triangle_at _ ti si a b c (tri_ccw s Hs i ti Hti Gti) Hsi Ea Eb Ec). Qed.

Lemma flip_bad : ccw_at (vertices s) b a d.
Proof. exact (ccw_triangle_at _ tj sj b a d (tri_ccw s Hs j tj Htj Gtj) Hsj Fb Fa Fd). Qed.

Lemma flip_areas :
  (0 < area pa pb pc /\ 0 < area pb pa pd /\ 0 < area pd pc pa /\ 0 < area pc pd pb)%Z.
Proof.
  destruct flip_abc as (qa & qb & qc & Qa & Qb & Qc & H1).
  destruct flip_bad as (rb & ra & rd & Rb & Ra & Rd & H2).
  assert (A1 : (0 < area pa pb pc)%Z) by (replace pa with qa by congruence;
    replace pb with qb by congruence; replace pc with qc by congruence; exact H1).
  assert (A2 : (0 < area pb pa pd)%Z) by (replace pa with ra by congruence;
    replace pb with rb by congruence; replace pd with rd by congruence; exact H2).
  destruct (flip_keeps_ccw pa pb pc pd A1 A2 Hdet). auto.
Qed.

Lemma flip_dca : ccw_at (vertices s) d c a.
Proof. exists pd, pc, pa. pose proof flip_areas. tauto. Qed.

Lemma flip_cdb : ccw_at (vertices s) c d b.
Proof. exists pc, pd, pb. pose proof flip_areas. tauto. Qed.

Lemma flip_distinct : a <> b /\ b <> c /\ a <> c /\ a <> d /\ b <> d /\ c <> d.
Proof.
  pose proof flip_abc as H1. pose proof flip_bad as H2.
  pose proof flip_dca as H3. pose proof flip_cdb as H4.
  repeat split; intros E; subst; ccw_clash.
Qed.

Lemma flip_edge_ab : edge (triangles s) i a b j.
Proof. exists ti, si. auto. Qed.

Lemma flip_edge_bc : edge (triangles s) i b c i1.
Proof.
  exists ti, ((si + 1) mod 3). unfold i1.
  slots si; wrap_slots; repeat split; auto.
Qed.

Lemma flip_edge_ca : edge (triangles s) i c a i2.
Proof.
  exists ti, ((si + 2) mod 3). unfold i2.
  slots si; wrap_slots; repeat split; auto.
Qed.

Lemma flip_edge_ba : edge (triangles s) j b a i.
Proof.
  destruct (edge_mirror s Hs i ti a b j Hti Gti flip_edge_ab)
    as (t & k & Et & Hk & E1 & E2 & E3).
  exists t, k. auto.
Qed.

Lemma flip_nbr_back : nbr tj sj = i.
Proof.
  destruct flip_edge_ba as (t & k & Et & Hk & E1 & E2 & E3).
  assert (t = tj) by congruence. subst t.
  destruct flip_distinct as (D1 & D2 & D3 & D4 & D5 & D6).
  slots sj; slots k; wrap_slots; congruence.
Qed.

Lemma flip_edge_ad : edge (triangles s) j a d j1.
Proof.
  exists tj, ((sj + 1) mod 3). unfold j1.
  slots sj; wrap_slots; repeat split; auto.
Qed.

Lemma flip_edge_db : edge (triangles s) j d b j2.
Proof.
  exists tj, ((sj + 2) mod 3). unfold j2.
  slots sj; wrap_slots; repeat split; auto.
Qed.

Lemma flip_edge_cb : edge (triangles s) i1 c b i.
Proof. exact (edge_mirror s Hs i ti b c i1 Hti Gti flip_edge_bc). Qed.

Lemma flip_edge_ac : edge (triangles s) i2 a c i.
Proof. exact (edge_mirror s Hs i ti c a i2 Hti Gti flip_edge_ca). Qed.

Lemma flip_edge_da : edge (triangles s) j1 d a j.
Proof. exact (edge_mirror s Hs j tj a d j1 Htj Gtj flip_edge_ad). Qed.

Lemma flip_edge_bd : edge (triangles s) j2 b d j.
Proof. exact (edge_mirror s Hs j tj d b j2 Htj Gtj flip_edge_db). Qed.

(** Two edges of one triangle that neither coincide nor follow each
    other in counter-clockwise order. *)
Ltac edge_clash H1 H2 :=
  pose proof flip_abc; pose proof flip_bad; pose proof flip_dca; pose proof flip_cdb;
  destruct flip_distinct as (? & ? & ? & ? & ? & ?);
  destruct (two_edges s Hs _ _ _ _ _ _ _ H1 H2) as [(? & ? & ?) | [(? & ?) | (? & ?)]];
  try congruence; try ccw_clash.

Lemma flip_indices_distinct :
  i <> j /\
  i1 <> i /\ i1 <> j /\ i2 <> i /\ i2 <> j /\
  j1 <> i /\ j1 <> j /\ j2 <> i /\ j2 <> j /\
  i1 <> i2 /\ i1 <> j1 /\ i1 <> j2 /\ i2 <> j1 /\ i2 <> j2 /\ j1 <> j2.
Proof.
  pose proof flip_edge_ab as Eab. pose proof flip_edge_bc as Ebc.
  pose proof flip_edge_ca as Eca. pose proof flip_edge_ba as Eba.
  pose proof flip_edge_ad as Ead. pose proof flip_edge_db as Edb.
  pose proof flip_edge_cb as Ecb. pose proof flip_edge_ac as Eac.
  pose proof flip_edge_da as Eda. pose proof flip_edge_bd as Ebd.
  repeat split; intros E.
  - rewrite <- E in Eba. edge_clash Eab Eba.
  - rewrite E in Ecb. edge_clash Ecb Ebc.
  - rewrite E in Ecb. edge_clash Ecb Eba.
  - rewrite E in Eac. edge_clash Eac Eca.
  - rewrite E in Eac. edge_clash Eac Eba.
  - rewrite E in Eda. edge_clash Eda Eab.
  - rewrite E in Eda. edge_clash Eda Ead.
  - rewrite E in Ebd. edge_clash Ebd Eab.
  - rewrite E in Ebd. edge_clash Ebd Edb.
  - rewrite E in Ecb. edge_clash Ecb Eac.
  - rewrite E in Ecb. edge_clash Ecb Eda.
  - rewrite E in Ecb. edge_clash Ecb Ebd.
  - rewrite E in Eac. edge_clash Eac Eda.
  - rewrite E in Eac. edge_clash Eac Ebd.
  - rewrite E in Eda. edge_clash Eda Ebd.
Qed.

Section Neighbours.

Variables ti1 ti2 tj1 tj2 : Triangle2.
Hypothesis Hti1 : nth_error (triangles s) i1 = Some ti1.
Hypothesis Hti2 : nth_error (triangles s) i2 = Some ti2.
Hypothesis Htj1 : nth_error (triangles s) j1 = Some tj1.
Hypothesis Htj2 : nth_error (triangles s) j2 = Some tj2.

Let new_i : Triangle2 := Tri (Some d) (Some c) (Some a) j i2 j1.
Let new_j : Triangle2 := Tri (Some c) (Some d) (Some b) i j2 i1.
Let r1 : Triangle2 := repointed ti1 i j.
Let r2 : Triangle2 := repointed tj1 j i.

(** What the flip appends to the queue. *)
Let flip_items : list entry :=
  (if is_ghost ti2 then [] else [(pair_of c a, i, 1)]) ++
  (if is_ghost tj1 then [] else [(pair_of d a, i, 2)]) ++
  (if is_ghost tj2 then [] else [(pair_of d b, j, 1)]) ++
  (if is_ghost ti1 then [] else [(pair_of c b, j, 2)]).

Lemma flip_third_vertex :
  (if a =? fst (pair_of a b) then (fst (pair_of a b), snd (pair_of a b))
   else (snd (pair_of a b), fst (pair_of a b))) = (a, b).
Proof.
  destruct flip_distinct as (D & _). unfold pair_of. simpl.
  destruct (Nat.eqb_spec a (Nat.min a b)) as [E | E]; f_equal; lia.
Qed.

Lemma with_triangles_twice s0 X Y :
  with_triangles (with_triangles s0 X) Y = with_triangles s0 Y.
Proof. reflexivity. Qed.

(** Runs the first computation of a [bind] with the equation [H]. *)
Ltac run H := rewrite (bind_ok _ _ _ _ _ H); cbv beta.

Ltac run_need :=
  match goal with
  | |- context [bind (need ?e (Some ?x)) ?k ?s0] =>
      change (bind (need e (Some x)) k s0) with (k x s0); cbv beta
  end.

Lemma flip_run :
  exists T',
    flip (pair_of a b) i si j sj ti tj (Some c) (Some d) s
      = (Ok flip_items, with_triangles s T') /\
    length T' = length (triangles s) /\
    forall k, nth_error T' k = flipped_at (triangles s) i j i1 j1 new_i new_j r1 r2 k.
Proof.
  destruct flip_indices_distinct
    as (Dij & D1i & D1j & D2i & D2j & Dj1i & Dj1j & Dj2i & Dj2j &
        D12 & D11 & D1j2 & D2j1 & D22 & Djj).
  fold i1 i2 j1 j2 in D1i, D1j, D2i, D2j, Dj1i, Dj1j, Dj2i, Dj2j, D12, D11, D1j2, D2j1, D22, Djj.
  pose proof (nth_error_in_range _ _ _ Hti) as Li.
  pose proof (nth_error_in_range _ _ _ Htj) as Lj.
  pose proof (nth_error_in_range _ _ _ Hti1) as Li1.
  pose proof (nth_error_in_range _ _ _ Htj1) as Lj1.
  set (T := triangles s) in *.
  set (T1 := upd T i1 r1).
  set (T2 := upd T1 j1 r2).
  set (T3 := upd T2 i (mkTriangle2 (v ti) (mk3 j i2 j1))).
  set (T4 := upd T3 j (mkTriangle2 (v tj) (mk3 i j2 i1))).
  set (T5 := upd T4 i new_i).
  set (T6 := upd T5 j new_j).
  assert (Len1 : length T1 = length T) by apply length_upd.
  assert (Len2 : length T2 = length T) by (unfold T2; now rewrite length_upd).
  assert (Len3 : length T3 = length T) by (unfold T3; now rewrite length_upd).
  assert (Len4 : length T4 = length T) by (unfold T4; now rewrite length_upd).
  assert (Len5 : length T5 = length T) by (unfold T5; now rewrite length_upd).
  assert (Len6 : length T6 = length T) by (unfold T6; now rewrite length_upd).
  assert (Look : forall k, nth_error T6 k = flipped_at T i j i1 j1 new_i new_j r1 r2 k).
  { intros k. unfold flipped_at, T6, T5, T4, T3, T2, T1.
    destruct (Nat.eqb_spec k j) as [-> | Nkj].
    { apply nth_error_upd_eq. rewrite !length_upd. exact Lj. }
    rewrite nth_error_upd_ne by exact Nkj.
    destruct (Nat.eqb_spec k i) as [-> | Nki].
    { apply nth_error_upd_eq. rewrite !length_upd. exact Li. }
    rewrite nth_error_upd_ne by exact Nki.
    rewrite nth_error_upd_ne by exact Nkj.
    rewrite nth_error_upd_ne by exact Nki.
    destruct (Nat.eqb_spec k j1) as [-> | Nkj1].
    { apply nth_error_upd_eq. rewrite !length_upd. exact Lj1. }
    rewrite nth_error_upd_ne by exact Nkj1.
    destruct (Nat.eqb_spec k i1) as [-> | Nki1].
    { apply nth_error_upd_eq. exact Li1. }
    now rewrite nth_error_upd_ne by exact Nki1. }
  exists T6. split; [| split; [exact Len6 | exact Look]].
  unfold flip. rewrite !tget_nbr. fold i1 i2 j1 j2.
  repeat run_need.
  run (get_tri_run s i1 ti1 Hti1). run (get_tri_run s i2 ti2 Hti2).
  run (get_tri_run s j1 tj1 Htj1). run (get_tri_run s j2 tj2 Htj2).
  run (repoint_run s i1 ti1 i j Hti1). fold T r1 T1.
  assert (L1 : nth_error (triangles (with_triangles s T1)) j1 = Some tj1).
  { simpl. unfold T1. rewrite nth_error_upd_ne by auto. exact Htj1. }
  run (repoint_run _ j1 tj1 j i L1).
  rewrite with_triangles_twice. simpl triangles. fold r2 T2.
  assert (L2 : nth_error (triangles (with_triangles s T2)) i = Some ti).
  { simpl. unfold T2, T1. rewrite !nth_error_upd_ne by auto. exact Hti. }
  run (get_tri_run _ i ti L2).
  assert (R3 : put_tri i (mkTriangle2 (v ti) (mk3 j i2 j1)) (with_triangles s T2)
               = (Ok tt, with_triangles s T3)).
  { rewrite put_tri_run by (unfold with_triangles; cbn [triangles]; rewrite Len2; exact Li). reflexivity. }
  run R3.
  assert (L3 : nth_error (triangles (with_triangles s T3)) j = Some tj).
  { simpl. unfold T3, T2, T1. rewrite !nth_error_upd_ne by auto. exact Htj. }
  run (get_tri_run _ j tj L3).
  assert (R4 : put_tri j (mkTriangle2 (v tj) (mk3 i j2 i1)) (with_triangles s T3)
               = (Ok tt, with_triangles s T4)).
  { rewrite put_tri_run by (unfold with_triangles; cbn [triangles]; rewrite Len3; exact Lj). reflexivity. }
  run R4.
  assert (L4 : nth_error (triangles (with_triangles s T4)) i
               = Some (mkTriangle2 (v ti) (mk3 j i2 j1))).
  { simpl. unfold T4. rewrite nth_error_upd_ne by auto.
    unfold T3. apply nth_error_upd_eq. rewrite Len2. exact Li. }
  run (get_tri_run _ i _ L4).
  cbn [v n]. rewrite (tget_vtx_slot ti si Hsi), Ea. run_need.
  cbv beta iota. rewrite flip_third_vertex. cbv beta iota.
  assert (R5 : put_tri i (mkTriangle2 (mk3 (Some d) (Some c) (Some a)) (mk3 j i2 j1))
                 (with_triangles s T4) = (Ok tt, with_triangles s T5)).
  { rewrite put_tri_run by (unfold with_triangles; cbn [triangles]; rewrite Len4; exact Li). reflexivity. }
  run R5.
  assert (L5 : nth_error (triangles (with_triangles s T5)) j
               = Some (mkTriangle2 (v tj) (mk3 i j2 i1))).
  { simpl. unfold T5. rewrite nth_error_upd_ne by auto.
    unfold T4. apply nth_error_upd_eq. rewrite Len3. exact Lj. }
  run (get_tri_run _ j _ L5). cbn [v n].
  assert (R6 : put_tri j (mkTriangle2 (mk3 (Some c) (Some d) (Some b)) (mk3 i j2 i1))
                 (with_triangles s T5) = (Ok tt, with_triangles s T6)).
  { rewrite put_tri_run by (unfold with_triangles; cbn [triangles]; rewrite Len5; exact Lj). reflexivity. }
  run R6.
  assert (Ki : nth_error (triangles (with_triangles s T6)) i = Some new_i).
  { simpl. rewrite Look. unfold flipped_at.
    destruct (Nat.eqb_spec i j); [congruence |]. now rewrite Nat.eqb_refl. }
  assert (Kj : nth_error (triangles (with_triangles s T6)) j = Some new_j).
  { simpl. rewrite Look. unfold flipped_at. now rewrite Nat.eqb_refl. }
  assert (Ki2 : nth_error (triangles (with_triangles s T6)) i2 = Some ti2).
  { simpl. rewrite Look. unfold flipped_at.
    destruct (Nat.eqb_spec i2 j); [congruence |].
    destruct (Nat.eqb_spec i2 i); [congruence |].
    destruct (Nat.eqb_spec i2 j1); [congruence |].
    destruct (Nat.eqb_spec i2 i1); [congruence |]. exact Hti2. }
  assert (Kj2 : nth_error (triangles (with_triangles s T6)) j2 = Some tj2).
  { simpl. rewrite Look. unfold flipped_at.
    destruct (Nat.eqb_spec j2 j); [congruence |].
    destruct (Nat.eqb_spec j2 i); [congruence |].
    destruct (Nat.eqb_spec j2 j1); [congruence |].
    destruct (Nat.eqb_spec j2 i1); [congruence |]. exact Htj2. }
  assert (Kj1 : nth_error (triangles (with_triangles s T6)) j1 = Some r2).
  { simpl. rewrite Look. unfold flipped_at.
    destruct (Nat.eqb_spec j1 j); [congruence |].
    destruct (Nat.eqb_spec j1 i); [congruence |]. now rewrite Nat.eqb_refl. }
  assert (Ki1 : nth_error (triangles (with_triangles s T6)) i1 = Some r1).
  { simpl. rewrite Look. unfold flipped_at.
    destruct (Nat.eqb_spec i1 j); [congruence |].
    destruct (Nat.eqb_spec i1 i); [congruence |].
    destruct (Nat.eqb_spec i1 j1); [congruence |]. now rewrite Nat.eqb_refl. }
  run (push_edge_run _ i2 i 1 2 1 ti2 new_i c a Ki2 Ki eq_refl eq_refl).
  run (push_edge_run _ j1 i 0 2 2 r2 new_i d a Kj1 Ki eq_refl eq_refl).
  run (push_edge_run _ j2 j 1 2 1 tj2 new_j d b Kj2 Kj eq_refl eq_refl).
  run (push_edge_run _ i1 j 0 2 2 r1 new_j c b Ki1 Kj eq_refl eq_refl).
  unfold ret, flip_items, r1, r2. now rewrite !repointed_ghost.
Qed.

Section Flipped.

Variable T' : list Triangle2.
Hypothesis HLen : length T' = length (triangles s).
Hypothesis HLook :
  forall k, nth_error T' k = flipped_at (triangles s) i j i1 j1 new_i new_j r1 r2 k.

(** The array after the flip, index by index. *)
Lemma flip_at_i : nth_error T' i = Some new_i.
Proof.
  destruct flip_indices_distinct as (Dij & _).
  rewrite HLook. unfold flipped_at.
  destruct (Nat.eqb_spec i j); [congruence |]. now rewrite Nat.eqb_refl.
Qed.

Lemma flip_at_j : nth_error T' j = Some new_j.
Proof. rewrite HLook. unfold flipped_at. now rewrite Nat.eqb_refl. Qed.

Lemma flip_at_i1 : nth_error T' i1 = Some r1.
Proof.
  destruct flip_indices_distinct as (_ & D1i & D1j & _ & _ & _ & _ & _ & _ & _ & D11 & _).
  rewrite HLook. unfold flipped_at.
  destruct (Nat.eqb_spec i1 j); [congruence |].
  destruct (Nat.eqb_spec i1 i); [congruence |].
  destruct (Nat.eqb_spec i1 j1); [contradiction |]. now rewrite Nat.eqb_refl.
Qed.

Lemma flip_at_j1 : nth_error T' j1 = Some r2.
Proof.
  destruct flip_indices_distinct as (_ & _ & _ & _ & _ & Dj1i & Dj1j & _).
  rewrite HLook. unfold flipped_at.
  destruct (Nat.eqb_spec j1 j); [congruence |].
  destruct (Nat.eqb_spec j1 i); [congruence |]. now rewrite Nat.eqb_refl.
Qed.

Lemma flip_at_other k :
  k <> i -> k <> j -> k <> i1 -> k <> j1 -> nth_error T' k = nth_error (triangles s) k.
Proof.
  intros N1 N2 N3 N4. rewrite HLook. unfold flipped_at.
  destruct (Nat.eqb_spec k j); [congruence |].
  destruct (Nat.eqb_spec k i); [congruence |].
  destruct (Nat.eqb_spec k j1); [congruence |].
  destruct (Nat.eqb_spec k i1); [congruence |]. reflexivity.
Qed.

(** Every triangle keeps its vertices, but for the two that are flipped,
    and a ghost stays a ghost. *)
Lemma flip_cases k t :
  nth_error T' k = Some t ->
  (k = i /\ t = new_i) \/ (k = j /\ t = new_j) \/
  (k <> i /\ k <> j /\
   exists t0, nth_error (triangles s) k = Some t0 /\ v t = v t0).
Proof.
  intros E. rewrite HLook in E. unfold flipped_at in E.
  destruct (Nat.eqb_spec k j) as [-> | Nj0]; [right; left; split; congruence |].
  destruct (Nat.eqb_spec k i) as [-> | Ni0]; [left; split; congruence |].
  right; right. split; [exact Ni0 |]. split; [exact Nj0 |].
  destruct (Nat.eqb_spec k j1) as [-> | Nj1].
  { exists tj1. split; [exact Htj1 |]. inversion E. apply repointed_v. }
  destruct (Nat.eqb_spec k i1) as [-> | Ni1].
  { exists ti1. split; [exact Hti1 |]. inversion E. apply repointed_v. }
  now exists t.
Qed.

Lemma ccw_triangle_same_v V t t0 : v t = v t0 -> ccw_triangle V t0 -> ccw_triangle V t.
Proof. intros E. unfold ccw_triangle, vtx. now rewrite E. Qed.

Lemma flip_new_i_ccw : ccw_triangle (vertices s) new_i.
Proof.
  destruct flip_areas as (_ & _ & H & _).
  exists pd, pc, pa. unfold new_i, vtx, point. simpl. auto.
Qed.

Lemma flip_new_j_ccw : ccw_triangle (vertices s) new_j.
Proof.
  destruct flip_areas as (_ & _ & _ & H).
  exists pc, pd, pb. unfold new_j, vtx, point. simpl. auto.
Qed.

Lemma flip_tri_ccw k t :
  nth_error T' k = Some t -> is_ghost t = false -> ccw_triangle (vertices s) t.
Proof.
  intros E G.
  destruct (flip_cases k t E) as [[_ ->] | [[_ ->] | (_ & _ & t0 & E0 & Ev)]].
  - apply flip_new_i_ccw.
  - apply flip_new_j_ccw.
  - apply (ccw_triangle_same_v _ t t0 Ev).
    apply (tri_ccw s Hs k t0 E0). unfold is_ghost in *. now rewrite <- Ev.
Qed.

Lemma flip_tri_hull k g pu pw p :
  nth_error T' k = Some g -> is_ghost g = true ->
  point (vertices s) (vtx g 0) = Some pu ->
  point (vertices s) (vtx g 1) = Some pw ->
  In p (vertices s) -> (0 <= area pw pu p)%Z.
Proof.
  intros E G Eu Ew Hp.
  destruct (flip_cases k g E) as [[_ ->] | [[_ ->] | (_ & _ & t0 & E0 & Ev)]];
    try discriminate.
  apply (tri_hull s Hs k t0 pu pw p E0); unfold is_ghost, vtx in *;
    try rewrite <- Ev; auto.
Qed.

(** The edges of the two triangles before the flip. *)
Lemma flip_edges_of_i x y m :
  edge (triangles s) i x y m ->
  (x = a /\ y = b /\ m = j) \/ (x = b /\ y = c /\ m = i1) \/ (x = c /\ y = a /\ m = i2).
Proof.
  intros (t & k & Et & Hk & Ex & Ey & Em).
  assert (t = ti) by congruence. subst t. unfold i1, i2.
  slots si; slots k; wrap_slots;
    first [ left; repeat split; congruence
          | right; left; repeat split; congruence
          | right; right; repeat split; congruence ].
Qed.

Lemma flip_edges_of_j x y m :
  edge (triangles s) j x y m ->
  (x = b /\ y = a /\ m = i) \/ (x = a /\ y = d /\ m = j1) \/ (x = d /\ y = b /\ m = j2).
Proof.
  intros (t & k & Et & Hk & Ex & Ey & Em).
  assert (t = tj) by congruence. subst t. unfold j1, j2.
  pose proof flip_nbr_back as Nb.
  slots sj; slots k; wrap_slots;
    first [ left; repeat split; congruence
          | right; left; repeat split; congruence
          | right; right; repeat split; congruence ].
Qed.

Lemma flip_single_edge_i1 x1 y1 x2 y2 :
  edge (triangles s) i x1 y1 i1 -> edge (triangles s) i x2 y2 i1 -> x1 = x2 /\ y1 = y2.
Proof.
  destruct flip_indices_distinct as (_ & _ & D1j & _ & _ & _ & _ & _ & _ & D12 & _).
  fold i1 i2 in D1j, D12.
  intros H1 H2.
  destruct (flip_edges_of_i _ _ _ H1) as [(? & ? & ?) | [(? & ? & ?) | (? & ? & ?)]];
    destruct (flip_edges_of_i _ _ _ H2) as [(? & ? & ?) | [(? & ? & ?) | (? & ? & ?)]];
    try congruence; subst; auto.
Qed.

Lemma flip_single_edge_j1 x1 y1 x2 y2 :
  edge (triangles s) j x1 y1 j1 -> edge (triangles s) j x2 y2 j1 -> x1 = x2 /\ y1 = y2.
Proof.
  destruct flip_indices_distinct
    as (_ & _ & _ & _ & _ & Dj1i & _ & _ & _ & _ & _ & _ & _ & _ & Djj).
  fold j1 j2 in Dj1i, Djj.
  intros H1 H2.
  destruct (flip_edges_of_j _ _ _ H1) as [(? & ? & ?) | [(? & ? & ?) | (? & ? & ?)]];
    destruct (flip_edges_of_j _ _ _ H2) as [(? & ? & ?) | [(? & ? & ?) | (? & ? & ?)]];
    try congruence; subst; auto.
Qed.

(** The edges of the two repointed neighbours after the flip. *)
Lemma flip_edge_at_i1 x y m :
  edge T' i1 x y m <->
  exists m0, edge (triangles s) i1 x y m0 /\ m = (if m0 =? i then j else m0).
Proof.
  split.
  - intros (t & k & Et & Hk & Ex & Ey & Em).
    rewrite flip_at_i1 in Et. inversion Et; subst t. unfold r1 in *.
    rewrite repointed_vtx in Ex, Ey.
    rewrite (repointed_edge_slot s i1 ti1 i j k x y Hs Hti1 flip_single_edge_i1 Hk Ex Ey) in Em.
    exists (nbr ti1 k). split; [exists ti1, k; auto | congruence].
  - intros (m0 & (t & k & Et & Hk & Ex & Ey & Em) & Hm).
    assert (t = ti1) by congruence. subst t.
    exists r1, k. split; [apply flip_at_i1 |]. unfold r1.
    rewrite !repointed_vtx.
    rewrite (repointed_edge_slot s i1 ti1 i j k x y Hs Hti1 flip_single_edge_i1 Hk Ex Ey).
    repeat split; auto. rewrite Em. auto.
Qed.

Lemma flip_edge_at_j1 x y m :
  edge T' j1 x y m <->
  exists m0, edge (triangles s) j1 x y m0 /\ m = (if m0 =? j then i else m0).
Proof.
  split.
  - intros (t & k & Et & Hk & Ex & Ey & Em).
    rewrite flip_at_j1 in Et. inversion Et; subst t. unfold r2 in *.
    rewrite repointed_vtx in Ex, Ey.
    rewrite (repointed_edge_slot s j1 tj1 j i k x y Hs Htj1 flip_single_edge_j1 Hk Ex Ey) in Em.
    exists (nbr tj1 k). split; [exists tj1, k; auto | congruence].
  - intros (m0 & (t & k & Et & Hk & Ex & Ey & Em) & Hm).
    assert (t = tj1) by congruence. subst t.
    exists r2, k. split; [apply flip_at_j1 |]. unfold r2.
    rewrite !repointed_vtx.
    rewrite (repointed_edge_slot s j1 tj1 j i k x y Hs Htj1 flip_single_edge_j1 Hk Ex Ey).
    repeat split; auto. rewrite Em. auto.
Qed.

Lemma flip_edge_at_i x y m :
  edge T' i x y m <->
  (x = d /\ y = c /\ m = j) \/ (x = c /\ y = a /\ m = i2) \/ (x = a /\ y = d /\ m = j1).
Proof. apply edge_Tri. apply flip_at_i. Qed.

Lemma flip_edge_at_j x y m :
  edge T' j x y m <->
  (x = c /\ y = d /\ m = i) \/ (x = d /\ y = b /\ m = j2) \/ (x = b /\ y = c /\ m = i1).
Proof. apply edge_Tri. apply flip_at_j. Qed.

Lemma flip_edge_at_other k x y m :
  k <> i -> k <> j -> k <> i1 -> k <> j1 ->
  (edge T' k x y m <-> edge (triangles s) k x y m).
Proof.
  intros N1 N2 N3 N4. pose proof (flip_at_other k N1 N2 N3 N4) as E.
  split; apply edge_transfer; congruence.
Qed.

(** An edge of the old array, seen in the new one from a triangle [m]
    that is none of the two flipped ones. *)
Lemma flip_edge_kept m x y k :
  m <> i -> m <> j -> k <> i -> k <> j ->
  edge (triangles s) m x y k -> edge T' m x y k.
Proof.
  intros N1 N2 N3 N4 He.
  destruct (Nat.eq_dec m i1) as [-> | N5].
  { apply flip_edge_at_i1. exists k. split; [exact He |].
    destruct (Nat.eqb_spec k i); congruence. }
  destruct (Nat.eq_dec m j1) as [-> | N6].
  { apply flip_edge_at_j1. exists k. split; [exact He |].
    destruct (Nat.eqb_spec k j); congruence. }
  now apply flip_edge_at_other.
Qed.

(** After the flip the neighbour across every edge of an existent triangle
    carries the reverse edge and points back. *)
Lemma flip_adjacent_edges k t x y m :
  nth_error T' k = Some t -> is_ghost t = false ->
  edge T' k x y m -> edge T' m y x k.
Proof.
  intros Et G He.
  destruct flip_indices_distinct
    as (Dij & D1i & D1j & D2i & D2j & Dj1i & Dj1j & Dj2i & Dj2j &
        D12 & D11 & D1j2 & D2j1 & D22 & Djj).
  fold i1 i2 j1 j2 in D1i, D1j, D2i, D2j, Dj1i, Dj1j, Dj2i, Dj2j, D12, D11, D1j2, D2j1, D22, Djj.
  destruct (Nat.eq_dec k i) as [-> | Nki].
  { apply flip_edge_at_i in He.
    destruct He as [(-> & -> & ->) | [(-> & -> & ->) | (-> & -> & ->)]].
    - apply flip_edge_at_j. left. auto.
    - apply flip_edge_at_other; auto. apply flip_edge_ac.
    - apply flip_edge_at_j1. exists j. split; [apply flip_edge_da |].
      now rewrite Nat.eqb_refl. }
  destruct (Nat.eq_dec k j) as [-> | Nkj].
  { apply flip_edge_at_j in He.
    destruct He as [(-> & -> & ->) | [(-> & -> & ->) | (-> & -> & ->)]].
    - apply flip_edge_at_i. left. auto.
    - apply flip_edge_at_other; auto. apply flip_edge_bd.
    - apply flip_edge_at_i1. exists i. split; [apply flip_edge_cb |].
      now rewrite Nat.eqb_refl. }
  destruct (flip_cases k t Et) as [[? _] | [[? _] | (_ & _ & t0 & Et0 & Ev)]];
    try contradiction.
  assert (G0 : is_ghost t0 = false) by (unfold is_ghost in *; now rewrite <- Ev).
  assert (Hold : exists m0, edge (triangles s) k x y m0 /\
            ((m0 = i /\ k = i1 /\ m = j) \/ (m0 = j /\ k = j1 /\ m = i) \/
             (m0 = m /\ (m0 = i -> k <> i1) /\ (m0 = j -> k <> j1)))).
  { destruct (Nat.eq_dec k i1) as [-> | Nk1].
    - apply flip_edge_at_i1 in He. destruct He as (m0 & He & Hm).
      exists m0. split; [exact He |].
      destruct (Nat.eqb_spec m0 i) as [-> | Nm]; [left; auto |].
      right; right. repeat split; auto; congruence.
    - destruct (Nat.eq_dec k j1) as [-> | Nk2].
      + apply flip_edge_at_j1 in He. destruct He as (m0 & He & Hm).
        exists m0. split; [exact He |].
        destruct (Nat.eqb_spec m0 j) as [-> | Nm]; [right; left; auto |].
        right; right. repeat split; auto; congruence.
      + apply flip_edge_at_other in He; auto.
        exists m. split; [exact He |]. right; right. repeat split; auto. }
  destruct Hold as (m0 & He0 & Hm).
  pose proof (edge_mirror s Hs k t0 x y m0 Et0 G0 He0) as Hmir.
  destruct Hm as [(-> & -> & ->) | [(-> & -> & ->) | (-> & Hni & Hnj)]].
  - destruct (flip_edges_of_i _ _ _ Hmir) as [(? & ? & ?) | [(? & ? & ?) | (? & ? & ?)]];
      try congruence.
    subst x y. apply flip_edge_at_j. right; right. auto.
  - destruct (flip_edges_of_j _ _ _ Hmir) as [(? & ? & ?) | [(? & ? & ?) | (? & ? & ?)]];
      try congruence.
    subst x y. apply flip_edge_at_i. right; right. auto.
  - destruct (Nat.eq_dec m i) as [-> | Nmi].
    { destruct (flip_edges_of_i _ _ _ Hmir) as [(? & ? & ?) | [(? & ? & ?) | (? & ? & ?)]];
        try congruence.
      - exfalso. apply (Hni eq_refl). congruence.
      - subst x y k. apply flip_edge_at_i. right; left. auto. }
    destruct (Nat.eq_dec m j) as [-> | Nmj].
    { destruct (flip_edges_of_j _ _ _ Hmir) as [(? & ? & ?) | [(? & ? & ?) | (? & ? & ?)]];
        try congruence.
      - exfalso. apply (Hnj eq_refl). congruence.
      - subst x y k. apply flip_edge_at_j. right; left. auto. }
    now apply flip_edge_kept.
Qed.

Lemma flip_triangulation : triangulation (with_triangles s T').
Proof.
  constructor; simpl.
  - apply flip_tri_ccw.
  - intros k t k0 Et G Hk0.
    pose proof (flip_tri_ccw k t Et G) as Hc.
    destruct (ccw_at_slot _ t k0 Hc Hk0) as (x & y & z & _ & _ & _ & Ex & Ey & _).
    assert (He : edge T' k x y (nbr t k0)) by (exists t, k0; auto).
    destruct (flip_adjacent_edges k t x y _ Et G He) as (t' & k' & Et' & Hk' & E1 & E2 & E3).
    exists t', k'. repeat split; auto; congruence.
  - apply flip_tri_hull.
Qed.

(** The array after the flip is the old one with four cells replaced. *)
Lemma flip_list :
  T' = upd (upd (upd (upd (triangles s) i1 r1) j1 r2) i new_i) j new_j.
Proof.
  apply nth_error_ext. intros k. rewrite HLook. unfold flipped_at.
  pose proof (nth_error_in_range _ _ _ Hti) as Li.
  pose proof (nth_error_in_range _ _ _ Htj) as Lj.
  pose proof (nth_error_in_range _ _ _ Hti1) as Li1.
  pose proof (nth_error_in_range _ _ _ Htj1) as Lj1.
  destruct (Nat.eqb_spec k j) as [-> | N1].
  { rewrite nth_error_upd_eq; [reflexivity | now rewrite !length_upd]. }
  rewrite nth_error_upd_ne by exact N1.
  destruct (Nat.eqb_spec k i) as [-> | N2].
  { rewrite nth_error_upd_eq; [reflexivity | now rewrite !length_upd]. }
  rewrite nth_error_upd_ne by exact N2.
  destruct (Nat.eqb_spec k j1) as [-> | N3].
  { rewrite nth_error_upd_eq; [reflexivity | now rewrite !length_upd]. }
  rewrite nth_error_upd_ne by exact N3.
  destruct (Nat.eqb_spec k i1) as [-> | N4].
  { rewrite nth_error_upd_eq; [reflexivity | assumption]. }
  now rewrite nth_error_upd_ne by exact N4.
Qed.

(** The flip lowers the measure by the determinant of the test. *)
Lemma flip_potential :
  potential (vertices s) T' =
  (potential (vertices s) (triangles s) - in_circle_det pa pb pc pd)%Z.
Proof.
  destruct flip_indices_distinct
    as (Dij & D1i & D1j & D2i & D2j & Dj1i & Dj1j & Dj2i & Dj2j &
        D12 & D11 & D1j2 & D2j1 & D22 & Djj).
  fold i1 i2 j1 j2 in D1i, D1j, D2i, D2j, Dj1i, Dj1j, Dj2i, Dj2j, D12, D11, D1j2, D2j1, D22, Djj.
  rewrite flip_list.
  assert (K1 : nth_error (upd (triangles s) i1 r1) j1 = Some tj1).
  { rewrite nth_error_upd_ne; auto. }
  assert (K2 : nth_error (upd (upd (triangles s) i1 r1) j1 r2) i = Some ti).
  { rewrite !nth_error_upd_ne; auto. }
  assert (K3 : nth_error (upd (upd (upd (triangles s) i1 r1) j1 r2) i new_i) j = Some tj).
  { rewrite !nth_error_upd_ne; auto. }
  rewrite (potential_upd _ _ j new_j tj K3), (potential_upd _ _ i new_i ti K2),
    (potential_upd _ _ j1 r2 tj1 K1), (potential_upd _ _ i1 r1 ti1 Hti1).
  rewrite (pot_same_v _ r1 ti1), (pot_same_v _ r2 tj1) by apply repointed_v.
  rewrite (pot_at_slot _ ti si a b c pa pb pc Hsi Ea Eb Ec Pa Pb Pc).
  rewrite (pot_at_slot _ tj sj b a d pb pa pd Hsj Fb Fa Fd Pb Pa Pd).
  rewrite (pot_at_slot _ new_i 0 d c a pd pc pa (Nat.lt_0_succ 2) eq_refl eq_refl eq_refl Pd Pc Pa).
  rewrite (pot_at_slot _ new_j 0 c d b pc pd pb (Nat.lt_0_succ 2) eq_refl eq_refl eq_refl Pc Pd Pb).
  rewrite <- (pot3_flip pa pb pc pd). ring.
Qed.

(** *** The queue after the flip *)

Lemma flip_items_length : length flip_items <= 4.
Proof.
  unfold flip_items.
  case (is_ghost ti2); case (is_ghost tj1); case (is_ghost tj2); case (is_ghost ti1);
    simpl; repeat constructor.
Qed.

(** The ghosts are those of the old array, with the same vertices. *)
Lemma flip_ghost k g :
  nth_error T' k = Some g -> is_ghost g = true ->
  exists g0, nth_error (triangles s) k = Some g0 /\ is_ghost g0 = true /\ v g = v g0.
Proof.
  intros E G.
  destruct (flip_cases k g E) as [[_ ->] | [[_ ->] | (_ & _ & t0 & E0 & Ev)]];
    try discriminate.
  exists t0. repeat split; auto. unfold is_ghost in *. now rewrite <- Ev.
Qed.

Lemma flip_items_ok q :
  In q flip_items ->
  snd (fst q) < length T' /\ snd q < 3 /\
  forall k g u w, nth_error T' k = Some g -> is_ghost g = true ->
    vtx g 0 = Some u -> vtx g 1 = Some w -> fst (fst q) <> pair_of u w.
Proof.
  pose proof (nth_error_in_range _ _ _ Hti) as Li.
  pose proof (nth_error_in_range _ _ _ Htj) as Lj.
  assert (Hin : forall x y z z' k g u w,
             ccw_at (vertices s) x y z -> ccw_at (vertices s) y x z' ->
             nth_error T' k = Some g -> is_ghost g = true ->
             vtx g 0 = Some u -> vtx g 1 = Some w -> pair_of x y <> pair_of u w).
  { intros x y z z' k g u w C1 C2 Eg G Eu Ew.
    destruct (flip_ghost k g Eg G) as (g0 & Eg0 & G0 & Ev).
    apply (no_ghost_on_internal s k g0 u w x y z z' Hs Eg0 G0); auto;
      unfold vtx in *; now rewrite <- Ev. }
  assert (Hout : forall m t x y, nth_error (triangles s) m = Some t -> is_ghost t = false ->
             edge (triangles s) m x y i \/ edge (triangles s) m x y j ->
             exists z, ccw_at (vertices s) x y z).
  { intros m t x y Et G [He | He]; exact (edge_ccw s Hs m t x y _ Et G He). }
  unfold flip_items. intros Hq. rewrite !in_app_iff in Hq.
  destruct Hq as [Hq | [Hq | [Hq | Hq]]].
  - revert Hq. case_eq (is_ghost ti2); intros G Hq; [destruct Hq |].
    destruct Hq as [<- | []]. rewrite HLen. simpl. repeat split; [lia | lia |].
    intros k g u w Eg Gg Eu Ew.
    destruct (Hout i2 ti2 a c Hti2 G (or_introl flip_edge_ac)) as (z & Hz).
    exact (Hin c a b z k g u w (ccw_at_rot _ _ _ _ (ccw_at_rot _ _ _ _ flip_abc)) Hz Eg Gg Eu Ew).
  - revert Hq. case_eq (is_ghost tj1); intros G Hq; [destruct Hq |].
    destruct Hq as [<- | []]. rewrite HLen. simpl. repeat split; [lia | lia |].
    intros k g u w Eg Gg Eu Ew.
    destruct (Hout j1 tj1 d a Htj1 G (or_intror flip_edge_da)) as (z & Hz).
    rewrite pair_of_sym.
    exact (Hin a d b z k g u w (ccw_at_rot _ _ _ _ flip_bad) Hz Eg Gg Eu Ew).
  - revert Hq. case_eq (is_ghost tj2); intros G Hq; [destruct Hq |].
    destruct Hq as [<- | []]. rewrite HLen. simpl. repeat split; [lia | lia |].
    intros k g u w Eg Gg Eu Ew.
    destruct (Hout j2 tj2 b d Htj2 G (or_intror flip_edge_bd)) as (z & Hz).
    exact (Hin d b a z k g u w (ccw_at_rot _ _ _ _ (ccw_at_rot _ _ _ _ flip_bad)) Hz Eg Gg Eu Ew).
  - revert Hq. case_eq (is_ghost ti1); intros G Hq; [destruct Hq |].
    destruct Hq as [<- | []]. rewrite HLen. simpl. repeat split; [lia | lia |].
    intros k g u w Eg Gg Eu Ew.
    destruct (Hout i1 ti1 c b Hti1 G (or_introl flip_edge_cb)) as (z & Hz).
    rewrite pair_of_sym.
    exact (Hin b c a z k g u w (ccw_at_rot _ _ _ _ flip_abc) Hz Eg Gg Eu Ew).
Qed.

Lemma flip_queue_ok Q :
  queue_ok (triangles s) Q -> queue_ok T' (Q ++ flip_items).
Proof.
  intros HQ q Hq. apply in_app_iff in Hq. destruct Hq as [Hq | Hq].
  - destruct (HQ q Hq) as (H1 & H2 & H3). rewrite HLen. repeat split; auto.
    intros k g u w Eg G Eu Ew.
    destruct (flip_ghost k g Eg G) as (g0 & Eg0 & G0 & Ev).
    apply (H3 k g0 u w Eg0 G0); unfold vtx in *; now rewrite <- Ev.
  - now apply flip_items_ok.
Qed.

(** The flip leaves the ghosts where they are, with their vertices. *)
Lemma flip_hull_view : hull_view T' = hull_view (triangles s).
Proof.
  apply nth_error_ext. intros k. unfold hull_view. rewrite !nth_error_map.
  destruct (nth_error T' k) as [t |] eqn:E.
  - destruct (flip_cases k t E) as [[-> ->] | [[-> ->] | (_ & _ & t0 & E0 & Ev)]].
    + rewrite Hti. simpl. now rewrite Gti.
    + rewrite Htj. simpl. now rewrite Gtj.
    + rewrite E0. simpl. unfold is_ghost. now rewrite Ev.
  - apply nth_error_None in E. rewrite HLen in E. apply nth_error_None in E.
    now rewrite E.
Qed.

(** *** The edges that fail the test after the flip *)

Lemma flip_wing_at_i i0 x y z m :
  wing T' i i0 x y z m ->
  (i0 = 0 /\ x = d /\ y = c /\ z = a /\ m = j) \/
  (i0 = 1 /\ x = c /\ y = a /\ z = d /\ m = i2) \/
  (i0 = 2 /\ x = a /\ y = d /\ z = c /\ m = j1).
Proof. intros H. exact (wing_Tri _ _ _ _ _ _ _ _ _ _ _ _ _ flip_at_i H). Qed.

Lemma flip_wing_at_j i0 x y z m :
  wing T' j i0 x y z m ->
  (i0 = 0 /\ x = c /\ y = d /\ z = b /\ m = i) \/
  (i0 = 1 /\ x = d /\ y = b /\ z = c /\ m = j2) \/
  (i0 = 2 /\ x = b /\ y = c /\ z = d /\ m = i1).
Proof. intros H. exact (wing_Tri _ _ _ _ _ _ _ _ _ _ _ _ _ flip_at_j H). Qed.

(** Away from the two flipped triangles the wings are those of the old
    array. *)
Lemma flip_wing_old k i0 x y z m :
  k <> i -> k <> j -> m <> i -> m <> j ->
  wing T' k i0 x y z m -> wing (triangles s) k i0 x y z m.
Proof.
  intros N1 N2 N3 N4 (t & Et & Hi & Ex & Ey & Ez & Em).
  destruct (Nat.eq_dec k j1) as [Ej1 | Nj1].
  { rewrite Ej1 in *. rewrite flip_at_j1 in Et. inversion Et as [Ht]. rewrite <- Ht in *.
    unfold r2 in *. rewrite repointed_vtx in Ex, Ey, Ez.
    rewrite (repointed_edge_slot s j1 tj1 j i i0 x y Hs Htj1 flip_single_edge_j1 Hi Ex Ey) in Em.
    exists tj1. repeat split; auto.
    destruct (Nat.eqb_spec (nbr tj1 i0) j); congruence. }
  destruct (Nat.eq_dec k i1) as [Ei1 | Ni1].
  { rewrite Ei1 in *. rewrite flip_at_i1 in Et. inversion Et as [Ht]. rewrite <- Ht in *.
    unfold r1 in *. rewrite repointed_vtx in Ex, Ey, Ez.
    rewrite (repointed_edge_slot s i1 ti1 i j i0 x y Hs Hti1 flip_single_edge_i1 Hi Ex Ey) in Em.
    exists ti1. repeat split; auto.
    destruct (Nat.eqb_spec (nbr ti1 i0) i); congruence. }
  rewrite flip_at_other in Et by assumption. exists t. repeat split; auto.
Qed.

(** An existent triangle of the new array, away from the flipped ones,
    was existent. *)
Lemma flip_existent_old k i0 x y z m t0 :
  wing T' k i0 x y z m -> k <> i -> k <> j ->
  nth_error (triangles s) k = Some t0 -> is_ghost t0 = false.
Proof.
  intros W N1 N2 E0.
  destruct (wing_existent _ _ _ _ _ _ _ W) as (t & Et & G).
  destruct (flip_cases k t Et) as [[? _] | [[? _] | (_ & _ & t1 & E1 & Ev)]];
    try contradiction.
  assert (t1 = t0) by congruence. subst t1.
  unfold is_ghost in *. now rewrite <- Ev.
Qed.

Lemma flip_failing_near k m i0 j0 x y z w px py pz pw :
  k = i \/ k = j ->
  wing T' k i0 x y z m -> wing T' m j0 y x w k ->
  nth_error (vertices s) x = Some px -> nth_error (vertices s) y = Some py ->
  nth_error (vertices s) z = Some pz -> nth_error (vertices s) w = Some pw ->
  (0 < in_circle_det px py pz pw)%Z ->
  In (pair_of x y, k, i0) flip_items.
Proof.
  destruct flip_indices_distinct
    as (Dij & D1i & D1j & D2i & D2j & Dj1i & Dj1j & Dj2i & Dj2j & _).
  fold i1 i2 j1 j2 in D1i, D1j, D2i, D2j, Dj1i, Dj1j, Dj2i, Dj2j.
  destruct flip_distinct as (Dab & Dbc & Dac & Dad & Dbd & Dcd).
  intros [Ek | Ek] W1 W2 Px Py Pz Pw Hd; rewrite Ek in *.
  - destruct (flip_wing_at_i _ _ _ _ _ W1)
      as [(E0 & Ex & Ey & Ez & Em) | [(E0 & Ex & Ey & Ez & Em) | (E0 & Ex & Ey & Ez & Em)]];
      rewrite E0, Ex, Ey, Ez, Em in *.
    + exfalso.
      destruct (flip_wing_at_j _ _ _ _ _ W2)
        as [(_ & _ & _ & Ew & _) | [(_ & Ec' & _) | (_ & Ec' & _)]]; try congruence.
      rewrite Ew in *.
      assert (px = pd) by congruence. assert (py = pc) by congruence.
      assert (pz = pa) by congruence. assert (pw = pb) by congruence.
      subst px py pz pw. rewrite det_flip in Hd.
      apply (Z.lt_irrefl 0). apply (Z.lt_trans _ _ _ Hd).
      apply Z.opp_lt_mono. rewrite Z.opp_involutive. exact Hdet.
    + pose proof (flip_existent_old _ _ _ _ _ _ ti2 W2 D2i D2j Hti2) as G.
      unfold flip_items. rewrite G. rewrite !in_app_iff. left. now left.
    + pose proof (flip_existent_old _ _ _ _ _ _ tj1 W2 Dj1i Dj1j Htj1) as G.
      unfold flip_items. rewrite G. rewrite !in_app_iff. right; left.
      left. now rewrite (pair_of_sym d a).
  - destruct (flip_wing_at_j _ _ _ _ _ W1)
      as [(E0 & Ex & Ey & Ez & Em) | [(E0 & Ex & Ey & Ez & Em) | (E0 & Ex & Ey & Ez & Em)]];
      rewrite E0, Ex, Ey, Ez, Em in *.
    + exfalso.
      destruct (flip_wing_at_i _ _ _ _ _ W2)
        as [(_ & _ & _ & Ew & _) | [(_ & Ec' & _) | (_ & Ec' & _)]]; try congruence.
      rewrite Ew in *.
      assert (px = pc) by congruence. assert (py = pd) by congruence.
      assert (pz = pb) by congruence. assert (pw = pa) by congruence.
      subst px py pz pw. rewrite det_sym, det_flip in Hd.
      apply (Z.lt_irrefl 0). apply (Z.lt_trans _ _ _ Hd).
      apply Z.opp_lt_mono. rewrite Z.opp_involutive. exact Hdet.
    + pose proof (flip_existent_old _ _ _ _ _ _ tj2 W2 Dj2i Dj2j Htj2) as G.
      unfold flip_items. rewrite G. rewrite !in_app_iff. right; right; left. now left.
    + pose proof (flip_existent_old _ _ _ _ _ _ ti1 W2 D1i D1j Hti1) as G.
      unfold flip_items. rewrite G. rewrite !in_app_iff. right; right; right.
      left. now rewrite (pair_of_sym c b).
Qed.

Lemma flip_failing_queued Q :
  failing_edges_queued (vertices s) (triangles s) ((pair_of a b, i, si) :: Q) ->
  failing_edges_queued (vertices s) T' (Q ++ flip_items).
Proof.
  intros HF k m i0 j0 x y z w px py pz pw W1 W2 Px Py Pz Pw Hd.
  destruct (Nat.eq_dec k i) as [Ek | Nki].
  { left. apply in_app_iff. right.
    exact (flip_failing_near k m i0 j0 x y z w px py pz pw (or_introl Ek) W1 W2 Px Py Pz Pw Hd). }
  destruct (Nat.eq_dec k j) as [Ek | Nkj].
  { left. apply in_app_iff. right.
    exact (flip_failing_near k m i0 j0 x y z w px py pz pw (or_intror Ek) W1 W2 Px Py Pz Pw Hd). }
  assert (Hd' : (0 < in_circle_det py px pw pz)%Z) by (now rewrite det_sym).
  destruct (Nat.eq_dec m i) as [Em | Nmi].
  { right. apply in_app_iff. right. rewrite pair_of_sym.
    exact (flip_failing_near m k j0 i0 y x w z py px pw pz (or_introl Em) W2 W1 Py Px Pw Pz Hd'). }
  destruct (Nat.eq_dec m j) as [Em | Nmj].
  { right. apply in_app_iff. right. rewrite pair_of_sym.
    exact (flip_failing_near m k j0 i0 y x w z py px pw pz (or_intror Em) W2 W1 Py Px Pw Pz Hd'). }
  apply flip_wing_old in W1; auto. apply flip_wing_old in W2; auto.
  destruct (HF k m i0 j0 x y z w px py pz pw W1 W2 Px Py Pz Pw Hd) as [[E | H] | [E | H]].
  - inversion E. congruence.
  - left. apply in_app_iff. now left.
  - inversion E. congruence.
  - right. apply in_app_iff. now left.
Qed.

End Flipped.

(** What one flip does, in one statement. *)
Lemma flip_summary Q :
  queue_ok (triangles s) Q ->
  exists new T',
    flip (pair_of a b) i si j sj ti tj (Some c) (Some d) s = (Ok new, with_triangles s T') /\
    triangulation (with_triangles s T') /\
    queue_ok T' (Q ++ new) /\
    potential (vertices s) T' =
      (potential (vertices s) (triangles s) - in_circle_det pa pb pc pd)%Z /\
    length new <= 4 /\
    (failing_edges_queued (vertices s) (triangles s) ((pair_of a b, i, si) :: Q) ->
     failing_edges_queued (vertices s) T' (Q ++ new)) /\
    hull_view T' = hull_view (triangles s).
Proof.
  intros HQ. destruct flip_run as (T' & Hrun & HLen & HLook).
  exists flip_items, T'.
  refine (conj Hrun (conj _ (conj _ (conj _ (conj _ (conj _ _)))))).
  - eapply flip_triangulation; eassumption.
  - eapply flip_queue_ok; eassumption.
  - eapply flip_potential; eassumption.
  - exact flip_items_length.
  - eapply flip_failing_queued; eassumption.
  - eapply flip_hull_view; eassumption.
Qed.

End Neighbours.

Lemma flip_neighbours :
  exists ti1 ti2 tj1 tj2,
    nth_error (triangles s) i1 = Some ti1 /\ nth_error (triangles s) i2 = Some ti2 /\
    nth_error (triangles s) j1 = Some tj1 /\ nth_error (triangles s) j2 = Some tj2.
Proof.
  destruct (edge_lookup s _ _ _ _ flip_edge_cb) as (t1 & E1).
  destruct (edge_lookup s _ _ _ _ flip_edge_ac) as (t2 & E2).
  destruct (edge_lookup s _ _ _ _ flip_edge_da) as (t3 & E3).
  destruct (edge_lookup s _ _ _ _ flip_edge_bd) as (t4 & E4).
  exists t1, t2, t3, t4. auto.
Qed.

Lemma flip_effect Q :
  queue_ok (triangles s) Q ->
  exists new T',
    flip (pair_of a b) i si j sj ti tj (Some c) (Some d) s = (Ok new, with_triangles s T') /\
    triangulation (with_triangles s T') /\
    queue_ok T' (Q ++ new) /\
    potential (vertices s) T' =
      (potential (vertices s) (triangles s) - in_circle_det pa pb pc pd)%Z /\
    length new <= 4 /\
    (failing_edges_queued (vertices s) (triangles s) ((pair_of a b, i, si) :: Q) ->
     failing_edges_queued (vertices s) T' (Q ++ new)) /\
    hull_view T' = hull_view (triangles s).
Proof.
  intros HQ. destruct flip_neighbours as (t1 & t2 & t3 & t4 & E1 & E2 & E3 & E4).
  exact (flip_summary t1 t2 t3 t4 E1 E2 E3 E4 Q HQ).
Qed.

End Flip.

(** *** One iteration of the loop *)

(** Runs the first computation of a [bind] with the equation [H]. *)
Ltac step H := rewrite (bind_ok _ _ _ _ _ H); cbv beta.

Lemma bind_need {S A B : Type} (e : exn) (x : A) (k : A -> M S B) (s : S) :
  bind (need e (Some x)) k s = k x s.
Proof. reflexivity. Qed.

Ltac step_need := rewrite bind_need; cbv beta.

Lemma in_circle_rot a b c d : in_circle b c a d = in_circle a b c d.
Proof. unfold in_circle. now rewrite det_rot. Qed.

Lemma inside_test a b c d :
  Position_eqb (in_circle a b c d) INSIDE = (0 <? in_circle_det a b c d)%Z.
Proof.
  unfold in_circle. change (@n_lt py_int) with Z.ltb. change (@n_eq py_int) with Z.eqb.
  change (@n_zero py_int) with 0%Z.
  destruct (0 <? in_circle_det a b c d)%Z; [reflexivity |].
  now destruct (in_circle_det a b c d =? 0)%Z.
Qed.

Lemma in_circle_idx_slot s k t sl a b c pa pb pc pd :
  nth_error (triangles s) k = Some t -> sl < 3 ->
  vtx t sl = Some a -> vtx t (sl + 1) = Some b -> vtx t (sl + 2) = Some c ->
  nth_error (vertices s) a = Some pa -> nth_error (vertices s) b = Some pb ->
  nth_error (vertices s) c = Some pc ->
  in_circle_idx k pd s = (Ok (in_circle pa pb pc pd), s).
Proof.
  intros Et Hsl Ea Eb Ec Pa Pb Pc.
  slots sl; wrap_slots.
  - apply (in_circle_idx_run s k t pa pb pc pd Et); [now rewrite Ea | now rewrite Eb | now rewrite Ec].
  - rewrite <- (in_circle_rot pa pb pc pd), <- (in_circle_rot pb pc pa pd).
    apply (in_circle_idx_run s k t pc pa pb pd Et); [now rewrite Ec | now rewrite Ea | now rewrite Eb].
  - rewrite <- (in_circle_rot pa pb pc pd).
    apply (in_circle_idx_run s k t pb pc pa pd Et); [now rewrite Eb | now rewrite Ec | now rewrite Ea].
Qed.

(** A popped item whose triangle is a ghost is dropped. *)
Lemma flip_step_ghost s e k sl t :
  nth_error (triangles s) k = Some t -> is_ghost t = true ->
  flip_step (e, k, sl) s = (Ok [], s).
Proof.
  intros Et G. unfold flip_step. step (get_tri_run s k t Et). now rewrite G.
Qed.

(** A popped item whose edge is no longer at its slot is dropped. *)
Lemma flip_step_stale s e k sl t a b :
  nth_error (triangles s) k = Some t -> is_ghost t = false -> sl < 3 ->
  vtx t sl = Some a -> vtx t (sl + 1) = Some b -> e <> pair_of a b ->
  flip_step (e, k, sl) s = (Ok [], s).
Proof.
  intros Et G Hsl Ea Eb Ne. unfold flip_step. step (get_tri_run s k t Et). rewrite G.
  step (edge_at_run t sl a b s Hsl Ea Eb).
  destruct (edge_eqb e (pair_of a b)) eqn:E; [| reflexivity].
  apply edge_eqb_eq in E. contradiction.
Qed.

(** A popped item whose edge is at its slot is tested, and flipped when
    the test says INSIDE. *)
Lemma flip_step_test s i si j sj ti tj a b c d pa pb pc pd :
  nth_error (triangles s) i = Some ti -> is_ghost ti = false -> si < 3 ->
  vtx ti si = Some a -> vtx ti (si + 1) = Some b -> vtx ti (si + 2) = Some c ->
  nbr ti si = j ->
  nth_error (triangles s) j = Some tj -> ccw_triangle (vertices s) tj -> sj < 3 ->
  vtx tj sj = Some b -> vtx tj (sj + 1) = Some a -> vtx tj (sj + 2) = Some d ->
  nth_error (vertices s) a = Some pa -> nth_error (vertices s) b = Some pb ->
  nth_error (vertices s) c = Some pc -> nth_error (vertices s) d = Some pd ->
  flip_step (pair_of a b, i, si) s =
    if (0 <? in_circle_det pa pb pc pd)%Z
    then flip (pair_of a b) i si j sj ti tj (Some c) (Some d) s
    else (Ok [], s).
Proof.
  intros Hti Gti Hsi Ea Eb Ec Nj Htj Ctj Hsj Fb Fa Fd Pa Pb Pc Pd.
  unfold flip_step. step (get_tri_run s i ti Hti). rewrite Gti.
  step (edge_at_run ti si a b s Hsi Ea Eb).
  assert (R : edge_eqb (pair_of a b) (pair_of a b) = true) by now apply edge_eqb_eq.
  rewrite R. cbn [negb].
  rewrite (tget_nbr_slot ti si Hsi). step_need. rewrite Nj.
  step (get_tri_run s j tj Htj).
  step (find_slot_run s tj sj a b (vertices s) Ctj Hsj Fb Fa).
  rewrite !tget_vtx. repeat step_need. rewrite Ec, Fd.
  step (get_vertex_run s d pd Pd).
  step (in_circle_idx_slot s i ti si a b c pa pb pc pd Hti Hsi Ea Eb Ec Pa Pb Pc).
  rewrite inside_test. now destruct (0 <? in_circle_det pa pb pc pd)%Z.
Qed.

Lemma ghost_slot g sl x y :
  is_ghost g = true -> sl < 3 -> vtx g sl = Some x -> vtx g (sl + 1) = Some y -> sl = 0.
Proof.
  intros G Hsl Ex Ey. apply is_ghost_vtx in G.
  slots sl; wrap_slots; congruence.
Qed.

Lemma wing_at T k sl t a b c x y z m :
  nth_error T k = Some t ->
  vtx t sl = Some a -> vtx t (sl + 1) = Some b -> vtx t (sl + 2) = Some c ->
  wing T k sl x y z m -> x = a /\ y = b /\ z = c /\ m = nbr t sl.
Proof.
  intros Et Ea Eb Ec (t0 & Et0 & _ & Ex & Ey & Ez & Em).
  assert (t0 = t) by congruence. subst t0. repeat split; congruence.
Qed.

Lemma wing_slot V T k t sl sl0 x y z m :
  ccw_triangle V t -> nth_error T k = Some t -> sl0 < 3 -> vtx t sl0 = Some x ->
  wing T k sl x y z m -> sl = sl0.
Proof.
  intros Hc Et Hsl0 Ex0 (t0 & Et0 & Hsl & Ex & _).
  assert (t0 = t) by congruence. subst t0.
  apply (slot_unique V t sl sl0 Hc Hsl Hsl0). congruence.
Qed.

Lemma queue_ok_tail T q Q : queue_ok T (q :: Q) -> queue_ok T Q.
Proof. intros H q' Hq'. apply H. now right. Qed.

(** One iteration keeps the triangulation and the queue in order, and
    lowers the measure. *)
Lemma flip_step_invariant s q Q :
  triangulation s -> queue_ok (triangles s) (q :: Q) ->
  exists new s',
    flip_step q s = (Ok new, s') /\
    vertices s' = vertices s /\
    triangulation s' /\
    queue_ok (triangles s') (Q ++ new) /\
    (4 * potential (vertices s') (triangles s') + Z.of_nat (length (Q ++ new))
       < 4 * potential (vertices s) (triangles s) + Z.of_nat (length (q :: Q)))%Z /\
    (failing_edges_queued (vertices s) (triangles s) (q :: Q) ->
     failing_edges_queued (vertices s') (triangles s') (Q ++ new)) /\
    hull_view (triangles s') = hull_view (triangles s).
Proof.
  intros Hs HQ.
  pose proof (queue_ok_tail _ _ _ HQ) as HQ'.
  destruct (HQ q (or_introl eq_refl)) as (Hk & Hsl & Hg).
  destruct q as [[e k] sl]. simpl in Hk, Hsl, Hg.
  destruct (nth_error (triangles s) k) as [t |] eqn:Et;
    [| apply nth_error_None in Et; lia].
  assert (Skip : flip_step (e, k, sl) s = (Ok [], s) ->
    (failing_edges_queued (vertices s) (triangles s) ((e, k, sl) :: Q) ->
     failing_edges_queued (vertices s) (triangles s) Q) ->
    exists new s',
      flip_step (e, k, sl) s = (Ok new, s') /\
      vertices s' = vertices s /\
      triangulation s' /\
      queue_ok (triangles s') (Q ++ new) /\
      (4 * potential (vertices s') (triangles s') + Z.of_nat (length (Q ++ new))
         < 4 * potential (vertices s) (triangles s) + Z.of_nat (length ((e, k, sl) :: Q)))%Z /\
      (failing_edges_queued (vertices s) (triangles s) ((e, k, sl) :: Q) ->
       failing_edges_queued (vertices s') (triangles s') (Q ++ new)) /\
      hull_view (triangles s') = hull_view (triangles s)).
  { intros R F. exists [], s. rewrite app_nil_r.
    refine (conj R (conj eq_refl (conj Hs (conj HQ' (conj _ (conj F eq_refl)))))).
    simpl length. rewrite Nat2Z.inj_succ. apply Z.add_lt_mono_l. apply Z.lt_succ_diag_r. }
  destruct (is_ghost t) eqn:G.
  { apply Skip; [exact (flip_step_ghost s e k sl t Et G) |].
    intros HF k0 m i0 j0 x y z w px py pz pw W1 W2 Px Py Pz Pw Hd.
    destruct (HF k0 m i0 j0 x y z w px py pz pw W1 W2 Px Py Pz Pw Hd) as [[E | H] | [E | H]];
      auto; exfalso; inversion E; subst.
    - destruct (wing_existent _ _ _ _ _ _ _ W1) as (t0 & Et0 & G0). congruence.
    - destruct (wing_existent _ _ _ _ _ _ _ W2) as (t0 & Et0 & G0). congruence. }
  pose proof (tri_ccw s Hs k t Et G) as Ct.
  destruct (ccw_at_slot _ t sl Ct Hsl)
    as (a & b & c & pa & pb & pc & Ea & Eb & Ec & Pa & Pb & Pc & _).
  destruct (edge_eqb e (pair_of a b)) eqn:Ee.
  2:{ assert (Ne : e <> pair_of a b).
      { intros E. apply edge_eqb_eq in E. congruence. }
      apply Skip; [exact (flip_step_stale s e k sl t a b Et G Hsl Ea Eb Ne) |].
      intros HF k0 m i0 j0 x y z w px py pz pw W1 W2 Px Py Pz Pw Hd.
      destruct (HF k0 m i0 j0 x y z w px py pz pw W1 W2 Px Py Pz Pw Hd) as [[E | H] | [E | H]];
        auto; exfalso; inversion E; subst.
      - destruct (wing_at _ _ _ _ _ _ _ _ _ _ _ Et Ea Eb Ec W1) as (-> & -> & _).
        now apply Ne.
      - destruct (wing_at _ _ _ _ _ _ _ _ _ _ _ Et Ea Eb Ec W2) as (-> & -> & _).
        apply Ne. apply pair_of_sym. }
  apply edge_eqb_eq in Ee. subst e.
  destruct (tri_adjacent s Hs k t sl Et G Hsl) as (tj & sj & Htj & Hsj & Fb & Fa & Nb).
  rewrite Eb in Fb. rewrite Ea in Fa.
  destruct (is_ghost tj) eqn:Gj.
  { exfalso. pose proof (ghost_slot tj sj b a Gj Hsj Fb Fa). subst sj.
    apply (Hg _ tj b a Htj Gj Fb Fa). apply pair_of_sym. }
  pose proof (tri_ccw s Hs _ tj Htj Gj) as Ctj.
  destruct (ccw_at_slot _ tj sj Ctj Hsj)
    as (b' & a' & d & pb' & pa' & pd & Fb' & Fa' & Fd & Pb' & Pa' & Pd & _).
  assert (b' = b) by congruence. assert (a' = a) by congruence. subst a' b'.
  pose proof (flip_step_test s k sl (nbr t sl) sj t tj a b c d pa pb pc pd
                Et G Hsl Ea Eb Ec eq_refl Htj Ctj Hsj Fb Fa Fd Pa Pb Pc Pd) as R.
  destruct (Z.ltb_spec 0 (in_circle_det pa pb pc pd)) as [Hd | Hd].
  - destruct (flip_effect s Hs k sl (nbr t sl) sj t tj a b c d pa pb pc pd
                Et G Hsl Ea Eb Ec eq_refl Htj Gj Hsj Fb Fa Fd Pa Pb Pc Pd Hd Q HQ')
      as (new & T' & Rf & Ht & Hq & Hp & Hl & Hf & Hh).
    exists new, (with_triangles s T').
    refine (conj _ (conj eq_refl (conj Ht (conj Hq (conj _ (conj Hf Hh)))))).
    + rewrite R. exact Rf.
    + cbn [vertices triangles with_triangles]. rewrite Hp, length_app.
      simpl length. lia.
  - apply Skip; [exact R |].
    intros HF k0 m i0 j0 x y z w px py pz pw W1 W2 Px Py Pz Pw Hd0.
    destruct (HF k0 m i0 j0 x y z w px py pz pw W1 W2 Px Py Pz Pw Hd0) as [[E | H] | [E | H]];
      auto; exfalso; inversion E; subst.
    + destruct (wing_at _ _ _ _ _ _ _ _ _ _ _ Et Ea Eb Ec W1) as (-> & -> & -> & ->).
      pose proof (wing_slot _ _ _ _ _ _ _ _ _ _ Ctj Htj Hsj Fb W2). subst j0.
      destruct (wing_at _ _ _ _ _ _ _ _ _ _ _ Htj Fb Fa Fd W2) as (_ & _ & -> & _).
      assert (px = pa) by congruence. assert (py = pb) by congruence.
      assert (pz = pc) by congruence. assert (pw = pd) by congruence.
      subst. lia.
    + destruct (wing_at _ _ _ _ _ _ _ _ _ _ _ Et Ea Eb Ec W2) as (-> & -> & -> & ->).
      pose proof (wing_slot _ _ _ _ _ _ _ _ _ _ Ctj Htj Hsj Fb W1). subst i0.
      destruct (wing_at _ _ _ _ _ _ _ _ _ _ _ Htj Fb Fa Fd W1) as (_ & _ & -> & _).
      assert (px = pb) by congruence. assert (py = pa) by congruence.
      assert (pz = pd) by congruence. assert (pw = pc) by congruence.
      subst. rewrite det_sym in Hd0. lia.
Qed.

(** *** The loop *)

(** With [enough_fuel] the loop returns; its result is a triangulation of
    the same vertices, and no edge that fails the test is left when all
    such edges were in the queue. *)
Lemma flip_loop_invariant : forall fuel s Q,
  triangulation s -> queue_ok (triangles s) Q ->
  enough_fuel s (length Q) <= fuel ->
  exists s',
    flip_loop fuel Q s = (Ok tt, s') /\
    vertices s' = vertices s /\
    triangulation s' /\
    (failing_edges_queued (vertices s) (triangles s) Q ->
     failing_edges_queued (vertices s') (triangles s') []) /\
    hull_view (triangles s') = hull_view (triangles s).
Proof.
  induction fuel as [| fuel IH]; intros s Q Hs HQ Hf.
  - destruct Q as [| q Q].
    + exists s. simpl. auto.
    + unfold enough_fuel in Hf. simpl in Hf. lia.
  - destruct Q as [| q Q].
    + exists s. simpl. auto.
    + destruct (flip_step_invariant s q Q Hs HQ)
        as (new & s1 & R & Hv & Hs1 & HQ1 & Hm & HF & Hh).
      assert (Hf1 : enough_fuel s1 (length (Q ++ new)) <= fuel).
      { unfold enough_fuel in *. rewrite Hv in *.
        pose proof (potential_nonneg s Hs) as P0.
        pose proof (potential_nonneg s1 Hs1) as P1. rewrite Hv in P1.
        simpl length in Hf, Hm.
        revert Hf Hm P0 P1.
        generalize (potential (vertices s) (triangles s1)).
        generalize (potential (vertices s) (triangles s)).
        generalize (length (Q ++ new)). generalize (length Q).
        intros. lia. }
      destruct (IH s1 (Q ++ new) Hs1 HQ1 Hf1) as (s' & R' & Hv' & Hs' & HF' & Hh').
      exists s'. cbn [flip_loop]. step R.
      refine (conj R' (conj _ (conj Hs' (conj _ _)))).
      * congruence.
      * intros H. apply HF', HF, H.
      * congruence.
Qed.
(** *** The seeding loop *)

Lemma seed_inv_weaken T (done done' : nat -> nat -> Prop) acc :
  (forall k sl, sl < 3 -> done' k sl -> done k sl) ->
  seed_inv T done acc -> seed_inv T done' acc.
Proof.
  intros Hd (I1 & I2 & I3). split; [exact I1 |]. split; [exact I2 |].
  intros k sl t x y t' D. intros Et G Hsl. apply (I3 k sl t x y t'); auto.
Qed.

Lemma existsb_edge e l : existsb (edge_eqb e) l = true <-> In e l.
Proof.
  rewrite existsb_exists. split.
  - intros (e' & Hin & E). apply edge_eqb_eq in E. now subst.
  - intros Hin. exists e. split; [exact Hin | now apply edge_eqb_eq].
Qed.

Lemma seed_slot_run s k t sl done acc :
  triangulation s -> nth_error (triangles s) k = Some t -> is_ghost t = false -> sl < 3 ->
  seed_inv (triangles s) done acc ->
  exists acc',
    seed_slot k t acc sl s = (Ok acc', s) /\
    seed_inv (triangles s) (fun k' sl' => done k' sl' \/ (k' = k /\ sl' = sl)) acc' /\
    length (snd acc') <= S (length (snd acc)).
Proof.
  intros Hs Et G Hsl (I1 & I2 & I3).
  destruct (tri_adjacent s Hs k t sl Et G Hsl) as (tn & sj & Etn & _).
  destruct (ccw_at_slot _ t sl (tri_ccw s Hs k t Et G) Hsl)
    as (a & b & c & pa & pb & pc & Ea & Eb & _).
  unfold seed_slot. rewrite (tget_nbr_slot t sl Hsl). step_need.
  step (get_tri_run s _ tn Etn).
  destruct (is_ghost tn) eqn:Gn.
  { exists acc. split; [reflexivity |]. split; [| lia].
    split; [exact I1 |]. split; [exact I2 |].
    intros k' sl' t0 x y t' [D | [-> ->]] Et0 G0 Hsl' Ex Ey Et' G'.
    - exact (I3 k' sl' t0 x y t' D Et0 G0 Hsl' Ex Ey Et' G').
    - assert (t0 = t) by congruence. subst t0. congruence. }
  step (edge_at_run t sl a b s Hsl Ea Eb).
  destruct (existsb (edge_eqb (pair_of a b)) (fst acc)) eqn:Ex.
  { exists acc. split; [reflexivity |]. split; [| lia].
    split; [exact I1 |]. split; [exact I2 |].
    intros k' sl' t0 x y t' [D | [-> ->]] Et0 G0 Hsl' Ex' Ey' Et' G'.
    - exact (I3 k' sl' t0 x y t' D Et0 G0 Hsl' Ex' Ey' Et' G').
    - assert (t0 = t) by congruence. subst t0.
      assert (x = a) by congruence. assert (y = b) by congruence. subst x y.
      now apply existsb_edge. }
  exists (pair_of a b :: fst acc, snd acc ++ [(pair_of a b, k, sl)]).
  split; [reflexivity |]. split.
  - split; [| split].
    + intros q Hq. simpl in Hq. apply in_app_iff in Hq. destruct Hq as [Hq | [<- | []]].
      * now apply I1.
      * exists t, a, b, tn. simpl. repeat split; auto.
    + intros e He. simpl in He. destruct He as [<- | He].
      * exists (pair_of a b, k, sl). split; [| reflexivity].
        simpl. apply in_app_iff. right. now left.
      * destruct (I2 e He) as (q & Hq & Eq). exists q. split; [| exact Eq].
        simpl. apply in_app_iff. now left.
    + intros k' sl' t0 x y t' [D | [-> ->]] Et0 G0 Hsl' Ex' Ey' Et' G'.
      * simpl. right. exact (I3 k' sl' t0 x y t' D Et0 G0 Hsl' Ex' Ey' Et' G').
      * assert (t0 = t) by congruence. subst t0.
        assert (x = a) by congruence. assert (y = b) by congruence. subst x y.
        simpl. now left.
  - simpl. rewrite length_app. simpl. lia.
Qed.

Lemma seed_triangle_run s k t done acc :
  triangulation s -> nth_error (triangles s) k = Some t ->
  seed_inv (triangles s) done acc ->
  exists acc',
    seed_triangle acc (k, t) s = (Ok acc', s) /\
    seed_inv (triangles s) (fun k' sl' => done k' sl' \/ k' = k) acc' /\
    length (snd acc') <= length (snd acc) + 3.
Proof.
  intros Hs Et I. unfold seed_triangle.
  destruct (is_ghost t) eqn:G.
  { exists acc. split; [reflexivity |]. split; [| lia].
    destruct I as (I1 & I2 & I3). split; [exact I1 |]. split; [exact I2 |].
    intros k' sl' t0 x y t' [D | ->] Et0 G0 Hsl' Ex Ey Et' G'.
    - exact (I3 k' sl' t0 x y t' D Et0 G0 Hsl' Ex Ey Et' G').
    - congruence. }
  destruct (seed_slot_run s k t 0 _ acc Hs Et G ltac:(lia) I) as (a0 & R0 & I0 & L0).
  destruct (seed_slot_run s k t 1 _ a0 Hs Et G ltac:(lia) I0) as (a1 & R1 & I1 & L1).
  destruct (seed_slot_run s k t 2 _ a1 Hs Et G ltac:(lia) I1) as (a2 & R2 & I2 & L2).
  exists a2. step R0. step R1. split; [exact R2 |]. split; [| lia].
  refine (seed_inv_weaken _ _ _ _ _ I2).
  intros k0 sl Hsl [D | ->]; [tauto |].
  destruct (slot_cases sl Hsl) as [-> | [-> | ->]]; tauto.
Qed.

Lemma seed_fold_run s : triangulation s -> forall l n0 acc,
  (forall idx t, nth_error l idx = Some t -> nth_error (triangles s) (n0 + idx) = Some t) ->
  seed_inv (triangles s) (fun k _ => k < n0) acc ->
  exists acc',
    fold_m seed_triangle (enumerate_from n0 l) acc s = (Ok acc', s) /\
    seed_inv (triangles s) (fun k _ => k < n0 + length l) acc' /\
    length (snd acc') <= length (snd acc) + 3 * length l.
Proof.
  intros Hs. induction l as [| t tl IH]; intros n0 acc Hl I.
  - exists acc. split; [reflexivity |]. split; [| simpl; lia].
    refine (seed_inv_weaken _ _ _ _ _ I). simpl. intros. lia.
  - assert (Et : nth_error (triangles s) n0 = Some t).
    { rewrite <- (Nat.add_0_r n0). apply Hl. reflexivity. }
    destruct (seed_triangle_run s n0 t _ acc Hs Et I) as (a1 & R1 & I1 & L1).
    destruct (IH (S n0) a1) as (a2 & R2 & I2 & L2).
    { intros idx t0 E. replace (S n0 + idx) with (n0 + S idx) by lia. now apply Hl. }
    { refine (seed_inv_weaken _ _ _ _ _ I1). intros. simpl in *. lia. }
    exists a2. simpl. step R1. split; [exact R2 |]. split.
    + refine (seed_inv_weaken _ _ _ _ _ I2). simpl. intros. lia.
    + simpl. lia.
Qed.

(** An existent triangle next to an existent triangle: their common edge
    is not an edge of the hull. *)
Lemma seeded_not_hull s q :
  triangulation s -> seeded (triangles s) q ->
  forall k g a b, nth_error (triangles s) k = Some g -> is_ghost g = true ->
    vtx g 0 = Some a -> vtx g 1 = Some b -> fst (fst q) <> pair_of a b.
Proof.
  intros Hs (t & x & y & t' & Et & G & Hsl & Ex & Ey & Eq & Et' & G') k g a b Eg Gg Ea Eb.
  rewrite Eq.
  destruct (ccw_at_slot _ t (snd q) (tri_ccw s Hs _ t Et G) Hsl)
    as (x' & y' & z & px & py & pz & Ex' & Ey' & Ez & Px & Py & Pz & Har & _).
  assert (x' = x) by congruence. assert (y' = y) by congruence. subst x' y'.
  destruct (tri_adjacent s Hs _ t (snd q) Et G Hsl) as (t2 & sj & Et2 & Hsj & F1 & F2 & _).
  assert (t2 = t') by congruence. subst t2.
  rewrite Ey in F1. rewrite Ex in F2.
  destruct (ccw_at_slot _ t' sj (tri_ccw s Hs _ t' Et' G') Hsj)
    as (y2 & x2 & z' & qy & qx & qz & Fy & Fx & Fz & Qy & Qx & Qz & Har' & _).
  assert (y2 = y) by congruence. assert (x2 = x) by congruence. subst x2 y2.
  apply (no_ghost_on_internal s k g a b x y z z' Hs Eg Gg Ea Eb).
  - exists px, py, pz. auto.
  - exists qy, qx, qz. auto.
Qed.

(** The seeding loop returns; every internal edge that fails the test is
    in its queue when no directed edge is in two triangles. *)
Lemma seed_queue_run s :
  triangulation s ->
  exists Q,
    seed_queue s = (Ok Q, s) /\
    queue_ok (triangles s) Q /\
    length Q <= 3 * length (triangles s) /\
    (edges_once s -> failing_edges_queued (vertices s) (triangles s) Q).
Proof.
  intros Hs.
  destruct (seed_fold_run s Hs (triangles s) 0 ([], [])) as (acc & R & (I1 & I2 & I3) & L).
  { intros idx t E. exact E. }
  { split; [intros q [] |]. split; [intros e [] |]. intros. lia. }
  exists (snd acc). unfold seed_queue, get_state.
  unfold bind at 1. cbv beta iota. step R.
  split; [reflexivity |]. split; [| split].
  - intros q Hq. pose proof (I1 q Hq) as Sq.
    destruct Sq as (t & x & y & t' & Et & G & Hsl & Rest).
    split; [exact (nth_error_in_range _ _ _ Et) |]. split; [exact Hsl |].
    apply (seeded_not_hull s q Hs). exact (I1 q Hq).
  - simpl in L. lia.
  - intros Once k m i j a b c d pa pb pc pd W1 W2 Pa Pb Pc Pd Hd.
    destruct (wing_existent _ _ _ _ _ _ _ W1) as (t & Et & G).
    destruct (wing_existent _ _ _ _ _ _ _ W2) as (t' & Et' & G').
    destruct W1 as (t1 & Et1 & Hi & Ea & Eb & Ec & Em).
    destruct W2 as (t2 & Et2 & Hj & Fb & Fa & Fd & Fk).
    assert (t1 = t) by congruence. assert (t2 = t') by congruence. subst t1 t2.
    assert (Hin : In (pair_of a b) (fst acc)).
    { apply (I3 k i t a b t'); auto.
      - simpl. exact (nth_error_in_range _ _ _ Et).
      - now rewrite Em. }
    destruct (I2 _ Hin) as (q & Hq & Eq).
    destruct (I1 q Hq) as (t0 & x & y & t0' & Et0 & G0 & Hsl & Ex & Ey & Eq' & _).
    destruct q as [[e k0] sl]. simpl in *. subst e.
    pose proof (tri_ccw s Hs _ _ Et G) as Ct.
    pose proof (tri_ccw s Hs _ _ Et' G') as Ct'.
    apply pair_of_eq in Eq'. destruct Eq' as [[<- <-] | [E1 E2]].
    + assert (k0 = k).
      { apply (Once k0 k t0 t sl i Et0 G0 Hsl Et G Hi); congruence. }
      subst k0. assert (t0 = t) by congruence. subst t0.
      assert (sl = i) by (apply (slot_unique _ t sl i Ct Hsl Hi); congruence).
      subst sl. now left.
    + subst a b.
      assert (k0 = m).
      { apply (Once k0 m t0 t' sl j Et0 G0 Hsl Et' G' Hj); congruence. }
      subst k0. assert (t0 = t') by congruence. subst t0.
      assert (sl = j) by (apply (slot_unique _ t' sl j Ct' Hsl Hj); congruence).
      subst sl. right. first [exact Hq | rewrite pair_of_sym; exact Hq].
Qed.
(** *** The pass on [int] coordinates *)

(** No edge is left that fails the test: the criterion holds on every
    internal edge. *)
Lemma no_failing_edge_delaunay s :
  triangulation s ->
  failing_edges_queued (vertices s) (triangles s) [] ->
  locally_delaunay s.
Proof.
  intros Hs HF k t i t' j p0 p1 p2 q Et G Hi Et' G' Hj F1 F2 P0 P1 P2 Pq Hin.
  apply in_circle_inside in Hin.
  pose proof (tri_ccw s Hs k t Et G) as Ct.
  pose proof (tri_ccw s Hs _ t' Et' G') as Ct'.
  destruct (ccw_at_slot _ t i Ct Hi)
    as (a & b & c & pa & pb & pc & Ea & Eb & Ec & Pa & Pb & Pc & _).
  destruct (ccw_at_slot _ t' j Ct' Hj)
    as (b' & a' & d & pb' & pa' & pd & Fb & Fa & Fd & Pb' & Pa' & Pd & _).
  assert (b' = b) by congruence. assert (a' = a) by congruence. subst a' b'.
  destruct (tri_adjacent s Hs k t i Et G Hi) as (t2 & j2 & Et2 & Hj2 & A1 & A2 & A3).
  assert (t2 = t') by congruence. subst t2.
  assert (j2 = j) by (apply (slot_unique _ t' j2 j Ct' Hj2 Hj); congruence). subst j2.
  assert (Hd : (0 < in_circle_det pa pb pc pd)%Z).
  { rewrite Fd in Pq. simpl in Pq. assert (q = pd) by congruence. subst q.
    unfold point in P0, P1, P2.
    slots i; wrap_slots.
    - rewrite Ea in P0. rewrite Eb in P1. rewrite Ec in P2.
      assert (p0 = pa) by congruence. assert (p1 = pb) by congruence.
      assert (p2 = pc) by congruence. subst. exact Hin.
    - rewrite Ec in P0. rewrite Ea in P1. rewrite Eb in P2.
      assert (p0 = pc) by congruence. assert (p1 = pa) by congruence.
      assert (p2 = pb) by congruence. subst.
      rewrite <- (det_rot pa pb pc pd), <- (det_rot pb pc pa pd). exact Hin.
    - rewrite Eb in P0. rewrite Ec in P1. rewrite Ea in P2.
      assert (p0 = pb) by congruence. assert (p1 = pc) by congruence.
      assert (p2 = pa) by congruence. subst.
      rewrite <- (det_rot pa pb pc pd). exact Hin. }
  assert (W1 : wing (triangles s) k i a b c (nbr t i)) by (exists t; auto 10).
  assert (W2 : wing (triangles s) (nbr t i) j b a d k) by (exists t'; auto 10).
  destruct (HF _ _ _ _ _ _ _ _ _ _ _ _ W1 W2 Pa Pb Pc Pd Hd) as [[] | []].
Qed.

(** *** The checks of the precondition are sound *)

Lemma in_enumerate_from {A : Type} (l : list A) : forall n0 k (a : A),
  nth_error l k = Some a -> In (n0 + k, a) (enumerate_from n0 l).
Proof.
  induction l as [| h tl IH]; intros n0 k a E; destruct k as [| k]; simpl in *;
    try discriminate.
  - inversion E. left. f_equal. lia.
  - right. replace (n0 + S k) with (S n0 + k) by lia. now apply IH.
Qed.

Lemma opt_nat_eqb_eq a b : opt_nat_eqb a b = true -> a = b.
Proof.
  destruct a as [x |], b as [y |]; simpl; intros E; try discriminate; [| reflexivity].
  apply Nat.eqb_eq in E. now subst.
Qed.

Lemma opt_nat_eqb_refl a : opt_nat_eqb a a = true.
Proof. destruct a; simpl; [apply Nat.eqb_refl | reflexivity]. Qed.

Lemma slot_in i : i < 3 -> In i [0; 1; 2].
Proof. intros H. simpl. lia. Qed.

Lemma in_slot i : In i [0; 1; 2] -> i < 3.
Proof. simpl. lia. Qed.

Lemma triangulation_b_sound s : triangulation_b s = true -> triangulation s.
Proof.
  unfold triangulation_b. intros H. rewrite forallb_forall in H.
  assert (Hk : forall k t, nth_error (triangles s) k = Some t ->
    (if is_ghost t then hull_b (vertices s) t
     else ccw_b (vertices s) t && forallb (adjacent_b (triangles s) k t) [0; 1; 2]) = true).
  { intros k t E. exact (H (k, t) (in_enumerate_from _ 0 k t E)). }
  constructor.
  - intros k t Et G. specialize (Hk k t Et). rewrite G in Hk.
    apply andb_true_iff in Hk. destruct Hk as (Hc & _).
    unfold ccw_b in Hc. unfold ccw_triangle.
    destruct (point (vertices s) (vtx t 0)) as [p0 |]; [| discriminate].
    destruct (point (vertices s) (vtx t 1)) as [p1 |]; [| discriminate].
    destruct (point (vertices s) (vtx t 2)) as [p2 |]; [| discriminate].
    exists p0, p1, p2. repeat split; auto. now apply Z.ltb_lt.
  - intros k t i Et G Hi. specialize (Hk k t Et). rewrite G in Hk.
    apply andb_true_iff in Hk. destruct Hk as (_ & Ha).
    rewrite forallb_forall in Ha. specialize (Ha i (slot_in i Hi)).
    unfold adjacent_b in Ha.
    destruct (nth_error (triangles s) (nbr t i)) as [t' |]; [| discriminate].
    apply existsb_exists in Ha. destruct Ha as (j & Hj & E).
    apply andb_true_iff in E. destruct E as (E & E3).
    apply andb_true_iff in E. destruct E as (E1 & E2).
    exists t', j. split; [reflexivity |]. split; [exact (in_slot j Hj) |].
    split; [now apply opt_nat_eqb_eq |]. split; [now apply opt_nat_eqb_eq |].
    now apply Nat.eqb_eq.
  - intros k g pu pw p Eg G Eu Ew Hp. specialize (Hk k g Eg).
    rewrite G in Hk. unfold hull_b in Hk. rewrite Eu, Ew in Hk.
    rewrite forallb_forall in Hk. apply Z.leb_le. now apply Hk.
Qed.

Lemma edges_once_b_sound s : edges_once_b s = true -> edges_once s.
Proof.
  unfold edges_once_b. intros H k1 k2 t1 t2 i1 i2 E1 G1 H1 E2 G2 H2 Ev Ev'.
  rewrite forallb_forall in H.
  specialize (H (k1, t1) (in_enumerate_from _ 0 k1 t1 E1)).
  rewrite forallb_forall in H.
  specialize (H (k2, t2) (in_enumerate_from _ 0 k2 t2 E2)).
  unfold once_pair_b in H. cbn [fst snd] in H. rewrite G1, G2 in H. cbn [orb] in H.
  apply orb_true_iff in H. destruct H as [H | H]; [now apply Nat.eqb_eq |].
  exfalso. rewrite forallb_forall in H. specialize (H i1 (slot_in i1 H1)).
  rewrite forallb_forall in H. specialize (H i2 (slot_in i2 H2)).
  rewrite Ev, Ev', !opt_nat_eqb_refl in H. discriminate.
Qed.

Lemma complete_triangulation_b_sound s :
  complete_triangulation_b s = true -> complete_triangulation s.
Proof.
  unfold complete_triangulation_b. intros H. apply andb_true_iff in H.
  destruct H as (H1 & H2). split.
  - now apply triangulation_b_sound.
  - now apply edges_once_b_sound.
Qed.

(** *** [enforce_delaunay] on [int] coordinates *)

(** More iterations than needed change nothing. *)
Lemma flip_loop_mono {N : Number} : forall fuel Q (s s' : Triangulation2),
  flip_loop fuel Q s = (Ok tt, s') ->
  forall fuel', fuel <= fuel' -> flip_loop fuel' Q s = (Ok tt, s').
Proof.
  induction fuel as [| fuel IH]; intros Q s s' R fuel' Hf.
  - destruct Q as [| q Q]; [| discriminate].
    destruct fuel'; exact R.
  - destruct Q as [| q Q].
    + destruct fuel'; exact R.
    + destruct fuel' as [| fuel']; [lia |].
      cbn [flip_loop] in *. unfold bind in *.
      destruct (flip_step q s) as [[new | e] s1]; [| discriminate].
      apply (IH _ _ _ R). lia.
Qed.

(** The pass returns on a triangulation with [int] coordinates, within
    4 * potential + 3 * (number of triangles) iterations; what it leaves is
    a triangulation of the same vertices. *)
Theorem enforce_delaunay_returns (s : Triangulation2) (fuel : nat) :
  triangulation s ->
  4 * Z.to_nat (potential (vertices s) (triangles s)) + 3 * length (triangles s) <= fuel ->
  exists s',
    enforce_delaunay fuel s = (Ok tt, s') /\
    vertices s' = vertices s /\
    triangulation s'.
Proof.
  intros Hs Hf.
  destruct (seed_queue_run s Hs) as (Q & R & HQ & HL & _).
  destruct (flip_loop_invariant fuel s Q Hs HQ) as (s' & R' & Hv & Hs' & _ & _).
  { unfold enough_fuel. lia. }
  exists s'. unfold enforce_delaunay. step R. auto.
Qed.

(** After the pass has returned on a complete triangulation with [int]
    coordinates, every internal edge passes the test of [in_circle]. *)
Theorem enforce_delaunay_result_is_delaunay (s s' : Triangulation2) (fuel : nat) :
  complete_triangulation s ->
  enforce_delaunay fuel s = (Ok tt, s') ->
  locally_delaunay s' /\ triangulation s' /\ vertices s' = vertices s.
Proof.
  intros (Hs & Once) R.
  destruct (seed_queue_run s Hs) as (Q & RQ & HQ & HL & HF).
  unfold enforce_delaunay in R. rewrite (bind_ok _ _ _ _ _ RQ) in R.
  set (big := Nat.max fuel (enough_fuel s (length Q))).
  destruct (flip_loop_invariant big s Q Hs HQ) as (s2 & R2 & Hv & Hs2 & HF2 & _).
  { unfold big. lia. }
  pose proof (flip_loop_mono fuel Q s s' R big ltac:(unfold big; lia)) as R3.
  assert (s2 = s') by congruence. subst s2.
  split; [| auto].
  apply no_failing_edge_delaunay; [exact Hs2 |].
  apply HF2, HF, Once.
Qed.

Lemma seven_points_complete : complete_triangulation seven_points_triangulated.
Proof. apply complete_triangulation_b_sound. vm_compute. reflexivity. Qed.

Lemma enforce_delaunay_returns_witness :
  let s := seven_points_triangulated in
  let fuel := 4 * Z.to_nat (potential (vertices s) (triangles s)) + 3 * length (triangles s) in
  triangulation s /\
  exists s',
    enforce_delaunay fuel s = (Ok tt, s') /\ vertices s' = vertices s /\ triangulation s'.
Proof.
  intros s fuel. split.
  - exact (proj1 seven_points_complete).
  - apply (enforce_delaunay_returns s fuel).
    + exact (proj1 seven_points_complete).
    + apply le_n.
Defined.

Lemma enforce_delaunay_result_is_delaunay_witness :
  let s := seven_points_triangulated in
  let r := enforce_delaunay 200 s in
  (complete_triangulation s /\ r = (Ok tt, snd r)) /\
  locally_delaunay (snd r) /\ triangulation (snd r) /\ vertices (snd r) = vertices s.
Proof.
  intros s r. split.
  - split; [exact seven_points_complete | vm_compute; reflexivity].
  - apply (enforce_delaunay_result_is_delaunay s (snd r) 200).
    + exact seven_points_complete.
    + vm_compute. reflexivity.
Defined.

(** The pass flips an edge of the example: the array it leaves is not the
    one it was given. *)
Lemma seven_points_are_flipped :
  triangles (snd (enforce_delaunay 200 seven_points_triangulated))
  <> triangles seven_points_triangulated.
Proof. vm_compute. discriminate. Qed.

(** *** The hull *)

Lemma count_ghosts_hull_view T :
  count_ghosts T =
  length (filter (fun o => match o with Some _ => true | None => false end) (hull_view T)).
Proof.
  unfold count_ghosts, hull_view. induction T as [| t tl IH]; [reflexivity |].
  simpl. destruct (is_ghost t); simpl; now rewrite IH.
Qed.

Lemma count_existent_hull_view T :
  count_existent T =
  length (filter (fun o => match o with Some _ => false | None => true end) (hull_view T)).
Proof.
  unfold count_existent, hull_view. induction T as [| t tl IH]; [reflexivity |].
  simpl. destruct (is_ghost t); simpl; now rewrite IH.
Qed.

(** The pass moves no ghost: after it has returned on a triangulation with
    [int] coordinates the array has the same length, the same ghosts with
    the same vertices at the same indices, and so as many existent
    triangles as before. *)
Theorem enforce_delaunay_keeps_hull (s s' : Triangulation2) (fuel : nat) :
  triangulation s ->
  enforce_delaunay fuel s = (Ok tt, s') ->
  hull_view (triangles s') = hull_view (triangles s) /\
  length (triangles s') = length (triangles s) /\
  count_ghosts (triangles s') = count_ghosts (triangles s) /\
  count_existent (triangles s') = count_existent (triangles s).
Proof.
  intros Hs R.
  destruct (seed_queue_run s Hs) as (Q & RQ & HQ & HL & HF).
  unfold enforce_delaunay in R. rewrite (bind_ok _ _ _ _ _ RQ) in R.
  set (big := Nat.max fuel (enough_fuel s (length Q))).
  destruct (flip_loop_invariant big s Q Hs HQ) as (s2 & R2 & Hv & Hs2 & HF2 & Hh).
  { unfold big. lia. }
  pose proof (flip_loop_mono fuel Q s s' R big ltac:(unfold big; lia)) as R3.
  assert (s2 = s') by congruence. subst s2.
  split; [exact Hh |]. split.
  - apply (f_equal (@length _)) in Hh. unfold hull_view in Hh.
    now rewrite !length_map in Hh.
  - now rewrite !count_ghosts_hull_view, !count_existent_hull_view, Hh.
Qed.

Lemma enforce_delaunay_keeps_hull_witness :
  let s := seven_points_triangulated in
  let r := enforce_delaunay 200 s in
  (triangulation s /\ r = (Ok tt, snd r)) /\
  hull_view (triangles (snd r)) = hull_view (triangles s) /\
  length (triangles (snd r)) = length (triangles s) /\
  count_ghosts (triangles (snd r)) = count_ghosts (triangles s) /\
  count_existent (triangles (snd r)) = count_existent (triangles s).
Proof.
  intros s r. split.
  - split; [exact (proj1 seven_points_complete) | vm_compute; reflexivity].
  - apply (enforce_delaunay_keeps_hull s (snd r) 200).
    + exact (proj1 seven_points_complete).
    + vm_compute. reflexivity.
Defined.
(** ** [enforce_delaunay] on [float] coordinates *)

Section Cycle.

Context {N : Number}.

Lemma run_steps_loop : forall k Q (s : Triangulation2) Q' s',
  run_steps k Q s = Some (Q', s') ->
  forall fuel, flip_loop (k + fuel) Q s = flip_loop fuel Q' s'.
Proof.
  induction k as [| k IH]; intros Q s Q' s' R fuel.
  - simpl in R. inversion R. reflexivity.
  - destruct Q as [| e rest]; [discriminate |].
    cbn [run_steps] in R. cbn [Nat.add flip_loop]. unfold bind.
    destruct (flip_step e s) as [[new | ex] s1]; [| discriminate].
    exact (IH _ _ _ _ R fuel).
Qed.

Lemma run_steps_starves : forall k Q (s : Triangulation2) r,
  run_steps (S k) Q s = Some r ->
  forall fuel, fuel <= k -> exists s'', flip_loop fuel Q s = (Raise OutOfFuel, s'').
Proof.
  induction k as [| k IH]; intros Q s r R fuel Hf.
  - assert (fuel = 0) by lia. subst fuel.
    destruct Q as [| e rest]; [discriminate |]. exists s. reflexivity.
  - destruct Q as [| e rest]; [discriminate |].
    destruct fuel as [| fuel]; [exists s; reflexivity |].
    cbn [run_steps] in R. cbn [flip_loop]. unfold bind.
    destruct (flip_step e s) as [[new | ex] s1]; [| discriminate].
    apply (IH _ _ r R). lia.
Qed.

(** A loop that comes back to a state it was in never returns. *)
Lemma cycle_never_returns (p : nat) Q (s : Triangulation2) :
  run_steps (S p) Q s = Some (Q, s) ->
  forall fuel, exists s', flip_loop fuel Q s = (Raise OutOfFuel, s').
Proof.
  intros R fuel. induction fuel as [fuel IH] using lt_wf_ind.
  destruct (Nat.le_gt_cases fuel p) as [Hle | Hgt].
  - exact (run_steps_starves p Q s _ R fuel Hle).
  - replace fuel with (S p + (fuel - S p)) by lia.
    rewrite (run_steps_loop (S p) Q s Q s R). apply IH. lia.
Qed.

End Cycle.

(** On the five points near the unit circle the rounded test answers
    INSIDE on both diagonals of a quadrilateral in turn: after three
    iterations the loop is in a state to which it is back ten iterations
    later, so the pass never returns, although the array it is given is a
    complete triangulation of the points and the same pass on the same
    points with exact arithmetic returns. *)
Theorem float_pass_never_returns :
  let s := five_on_circle_triangulated in
  (exists sZ, exact_view 60 s = Some sZ /\ complete_triangulation sZ /\
              fst (enforce_delaunay 100 sZ) = Ok tt) /\
  forall fuel, exists s', enforce_delaunay fuel s = (Raise OutOfFuel, s').
Proof.
  intros s. split.
  - destruct (exact_view 60 s) as [sZ |] eqn:E; [| vm_compute in E; discriminate].
    exists sZ. split; [reflexivity |].
    assert (sZ = match exact_view 60 s with Some z => z | None => sZ end) as ->
      by now rewrite E.
    split; [apply complete_triangulation_b_sound |]; vm_compute; reflexivity.
  - intros fuel. unfold enforce_delaunay.
    set (q0 := match fst (seed_queue s) with Ok q => q | Raise _ => [] end).
    assert (RQ : seed_queue s = (Ok q0, s)) by (vm_compute; reflexivity).
    rewrite (bind_ok _ _ _ _ _ RQ).
    set (st := match run_steps 3 q0 s with Some r => r | None => (q0, s) end).
    assert (R3 : run_steps 3 q0 s = Some (fst st, snd st)) by (vm_compute; reflexivity).
    assert (RC : run_steps 10 (fst st) (snd st) = Some (fst st, snd st))
      by (vm_compute; reflexivity).
    destruct (Nat.le_gt_cases fuel 2) as [Hle | Hgt].
    + exact (run_steps_starves 2 q0 s _ R3 fuel Hle).
    + replace fuel with (3 + (fuel - 3)) by lia.
      rewrite (run_steps_loop 3 q0 s _ _ R3).
      exact (cycle_never_returns 9 (fst st) (snd st) RC (fuel - 3)).
Qed.

(** On the four points near the unit circle the pass returns without a
    flip, and leaves an internal edge on which [in_circle] answers INSIDE:
    each edge is tested from one side only, and the rounded test does not
    answer the same from both sides.  The apex is inside the circle in
    exact arithmetic too, where the pass flips the edge. *)
Theorem float_result_fails_the_test :
  let s := four_on_circle_triangulated in
  let r := enforce_delaunay 100 s in
  (exists sZ, exact_view 60 s = Some sZ /\ complete_triangulation sZ /\
              triangles (snd (enforce_delaunay 100 sZ)) <> triangles sZ) /\
  fst r = Ok tt /\
  triangles (snd r) = triangles s /\
  ~ locally_delaunay (snd r).
Proof.
  intros s r. split; [| split; [| split]].
  - destruct (exact_view 60 s) as [sZ |] eqn:E; [| vm_compute in E; discriminate].
    exists sZ. split; [reflexivity |].
    assert (sZ = match exact_view 60 s with Some z => z | None => sZ end) as ->
      by now rewrite E.
    split; [apply complete_triangulation_b_sound; vm_compute; reflexivity |].
    vm_compute. discriminate.
  - vm_compute. reflexivity.
  - vm_compute. reflexivity.
  - intros H.
    set (T := triangles (snd r)). set (V := vertices (snd r)).
    set (dt := Tri None None None 0 0 0). set (dv := float_point 0 0 0).
    apply (H 2 (nth 2 T dt) 2 (nth 1 T dt) 2
             (nth 2 V dv) (nth 3 V dv) (nth 1 V dv) (nth 0 V dv));
      vm_compute; first [reflexivity | repeat constructor].
Qed.
(** ** Edge cases of [triangulate] and [enforce_delaunay] *)

Section EdgeCases.

Context {N : Number}.

(** With no triangle, [enforce_delaunay] does nothing. *)
Theorem enforce_delaunay_without_triangles (s : Triangulation2) (fuel : nat) :
  triangles s = [] -> enforce_delaunay fuel s = (Ok tt, s).
Proof.
  intros E. unfold enforce_delaunay, seed_queue, get_state, bind. cbv beta iota.
  rewrite E. simpl. destruct fuel; reflexivity.
Qed.

(** With fewer than two vertices, [triangulate] empties the triangle
    array and leaves the vertices, the indices and the segments alone. *)
Theorem triangulate_fewer_than_two_vertices (s : Triangulation2) (fuel : nat) :
  length (vertices s) < 2 ->
  triangulate fuel ARBITRARY VERTICAL s =
    (Ok tt, mkTriangulation2 (vertices s) (indices s) (segments s) []).
Proof.
  intros H. apply Nat.ltb_lt in H.
  unfold triangulate, sort, set_triangles, get_state, put_state, bind, ret.
  cbv beta iota. cbn [vertices]. rewrite H. cbv beta iota. cbn [vertices]. rewrite H.
  reflexivity.
Qed.

End EdgeCases.

Lemma enforce_delaunay_without_triangles_witness :
  triangles (mkTriangulation2 seven_points [] [] []) = [] /\
  enforce_delaunay 0 (mkTriangulation2 seven_points [] [] [])
  = (Ok tt, mkTriangulation2 seven_points [] [] []).
Proof.
  split; [reflexivity |].
  exact (enforce_delaunay_without_triangles (mkTriangulation2 seven_points [] [] []) 0 eq_refl).
Defined.

Lemma triangulate_fewer_than_two_vertices_witness :
  let s := mkTriangulation2 [float_point 0 1 2] [None] [] [Tri None None None 0 0 0] in
  length (vertices s) < 2 /\
  triangulate 0 ARBITRARY VERTICAL s = (Ok tt, mkTriangulation2 [float_point 0 1 2] [None] [] []).
Proof.
  intros s. split; [repeat constructor |].
  apply (triangulate_fewer_than_two_vertices s 0). repeat constructor.
Defined.

(** ** The two predicates on [int] coordinates *)

Definition mirrored (o : Orientation) : Orientation :=
  match o with
  | LEFT => RIGHT
  | RIGHT => LEFT
  | CO_LINEAR => CO_LINEAR
  end.

Lemma side_of_area (a b c : @Vector2 py_int) :
  side a b c = if (0 <? area a b c)%Z then LEFT
               else if (area a b c <? 0)%Z then RIGHT else CO_LINEAR.
Proof. reflexivity. Qed.

(** [side] does not depend on which of the three points comes first, and
    exchanging two of them mirrors the answer; a point is on a line with
    itself. *)
Theorem side_symmetries (a b c : @Vector2 py_int) :
  side b c a = side a b c /\
  side c a b = side a b c /\
  side b a c = mirrored (side a b c) /\
  side a b a = CO_LINEAR /\ side a b b = CO_LINEAR /\ side a a b = CO_LINEAR.
Proof.
  assert (E1 : area b c a = area a b c) by apply area_rot.
  assert (E2 : area c a b = area a b c) by (symmetry; apply area_rot).
  assert (E3 : area b a c = (- area a b c)%Z) by apply area_swap.
  assert (E4 : area a b a = 0%Z) by apply area_flat.
  assert (E5 : area a b b = 0%Z) by (rewrite (area_rot b a b); apply area_flat).
  assert (E6 : area a a b = 0%Z) by (rewrite <- (area_rot a a b); apply area_flat).
  rewrite !side_of_area, E1, E2, E3, E4, E5, E6.
  repeat split; try reflexivity.
  destruct (Z.ltb_spec 0 (area a b c)), (Z.ltb_spec (area a b c) 0),
    (Z.ltb_spec 0 (- area a b c)), (Z.ltb_spec (- area a b c) 0);
    try reflexivity; lia.
Qed.

Lemma in_circle_of_det (a b c d : @Vector2 py_int) :
  in_circle a b c d = if (0 <? in_circle_det a b c d)%Z then INSIDE
                      else if (in_circle_det a b c d =? 0)%Z then ON else OUTSIDE.
Proof. reflexivity. Qed.

(** [in_circle] does not depend on which point of the triangle comes
    first, it answers the same from both sides of an edge (the triangle
    a, b, c against d, and the triangle b, a, d against c), and the corners
    of the triangle are ON its circle. *)
Theorem in_circle_symmetries (a b c d : @Vector2 py_int) :
  in_circle b c a d = in_circle a b c d /\
  in_circle c a b d = in_circle a b c d /\
  in_circle b a d c = in_circle a b c d /\
  in_circle a b c a = ON /\ in_circle a b c b = ON /\ in_circle a b c c = ON.
Proof.
  assert (E1 : in_circle_det b c a d = in_circle_det a b c d) by apply det_rot.
  assert (E2 : in_circle_det c a b d = in_circle_det a b c d) by (symmetry; apply det_rot).
  assert (E3 : in_circle_det b a d c = in_circle_det a b c d) by apply det_sym.
  assert (E4 : in_circle_det a b c a = 0%Z)
    by (rewrite <- (det_rot a b c a); apply det_same).
  assert (E5 : in_circle_det a b c b = 0%Z)
    by (rewrite <- (det_rot a b c b), <- (det_rot b c a b); apply det_same).
  assert (E6 : in_circle_det a b c c = 0%Z) by apply det_same.
  rewrite !in_circle_of_det, E1, E2, E3, E4, E5, E6.
  repeat split; reflexivity.
Qed.
(** ** Flipping twice (vector3.py, plane3.py, bsp3.py) *)

Lemma opp_involutive (a : float) : PrimFloat.opp (PrimFloat.opp a) = a.
Proof.
  apply Prim2SF_inj. rewrite !opp_spec.
  destruct (Prim2SF a); simpl; try reflexivity; now rewrite Bool.negb_involutive.
Qed.

Lemma negated_involutive (a : Vector3.Vector3) :
  Vector3.negated (Vector3.negated a) = a.
Proof. destruct a. unfold Vector3.negated. simpl. now rewrite !opp_involutive. Qed.

Lemma plane_flip_involutive (p : BSP.BSPPlane3) : BSP.plane_flip (BSP.plane_flip p) = p.
Proof.
  destruct p. unfold BSP.plane_flip. simpl.
  now rewrite negated_involutive, opp_involutive.
Qed.

Lemma flipped_involutive (p : BSP.BSPPolygon3) : flipped (flipped p) = p.
Proof.
  destruct p. unfold flipped. simpl.
  now rewrite rev_involutive, plane_flip_involutive.
Qed.

(** [negated] and [Plane3.flipped] undo themselves, on every float: the
    sign of a NaN included. *)
Theorem flipped_twice (v : Vector3.Vector3) (p : Plane3.Plane3) :
  Vector3.negated (Vector3.negated v) = v /\
  Plane3.flipped (Plane3.flipped p) = p.
Proof.
  split; [apply negated_involutive |].
  destruct p. unfold Plane3.flipped. simpl.
  now rewrite negated_involutive, opp_involutive.
Qed.

Lemma polygon_flip_at (h : BSP.heap) (r : BSP.ref) (p : BSP.BSPPolygon3) :
  nth_error h r = Some p -> BSP.polygon_flip r h = (Ok tt, upd h r (flipped p)).
Proof.
  intros E.
  unfold BSP.polygon_flip, BSP.deref, BSP.store, bind, get_state, put_state, need, ret.
  rewrite E. cbv beta iota.
  rewrite (list_set_upd h r _ (nth_error_in_range _ _ _ E)). reflexivity.
Qed.

Lemma flip_cells_length l : forall h, length (flip_cells l h) = length h.
Proof.
  induction l as [| r tl IH]; intros h; simpl; [reflexivity |].
  rewrite IH. destruct (nth_error h r); [apply length_upd | reflexivity].
Qed.

Lemma flip_cells_app l1 l2 : forall h,
  flip_cells (l1 ++ l2) h = flip_cells l2 (flip_cells l1 h).
Proof. induction l1 as [| r tl IH]; intros h; simpl; [reflexivity | apply IH]. Qed.

Lemma valid_refs_app h l1 l2 : valid_refs h (l1 ++ l2) <-> valid_refs h l1 /\ valid_refs h l2.
Proof. unfold valid_refs. apply Forall_app. Qed.

Lemma valid_refs_length h h' l : length h' = length h -> valid_refs h l -> valid_refs h' l.
Proof. unfold valid_refs. intros E. now rewrite E. Qed.

(** [for polygon in l: polygon.flip()]. *)
Lemma flip_each_run l : forall h,
  valid_refs h l -> for_each l BSP.polygon_flip h = (Ok tt, flip_cells l h).
Proof.
  induction l as [| r tl IH]; intros h Hv; [reflexivity |].
  inversion Hv as [| r' tl' Hr Htl]; subst.
  destruct (nth_error h r) as [p |] eqn:E; [| apply nth_error_None in E; lia].
  simpl. rewrite E. rewrite (bind_ok _ _ _ _ _ (polygon_flip_at h r p E)).
  apply IH. apply (valid_refs_length h); [apply length_upd | exact Htl].
Qed.

(** The object behind [r] after the flips: flipped as many times as [r]
    is in the list. *)
Lemma flip_cells_at l : forall h r,
  nth_error (flip_cells l h) r =
  option_map (Nat.iter (count_occ Nat.eq_dec l r) flipped) (nth_error h r).
Proof.
  induction l as [| a tl IH]; intros h r; simpl.
  - now destruct (nth_error h r).
  - rewrite IH. destruct (nth_error h a) as [p |] eqn:E.
    + destruct (Nat.eq_dec a r) as [-> | Ne].
      * rewrite nth_error_upd_eq by exact (nth_error_in_range _ _ _ E).
        rewrite E. simpl. now rewrite Nat.iter_swap.
      * rewrite nth_error_upd_ne by congruence. reflexivity.
    + destruct (Nat.eq_dec a r) as [-> | Ne]; [now rewrite E | reflexivity].
Qed.

Lemma iter_flipped_even c p : Nat.iter (c + c) flipped p = p.
Proof.
  induction c as [| c IH]; [reflexivity |].
  replace (S c + S c) with (S (S (c + c))) by lia.
  simpl. rewrite IH. apply flipped_involutive.
Qed.

Lemma count_all_mirror r : forall nd,
  count_occ Nat.eq_dec (BSP.all_polygons (mirror nd)) r =
  count_occ Nat.eq_dec (BSP.all_polygons nd) r.
Proof.
  apply (BSPNode3_induction (fun nd =>
    count_occ Nat.eq_dec (BSP.all_polygons (mirror nd)) r =
    count_occ Nat.eq_dec (BSP.all_polygons nd) r)).
  intros pl fr bk ps Hf Hb.
  destruct fr as [f |], bk as [k |]; cbn [mirror BSP.all_polygons];
    rewrite ?count_occ_app; unfold BSP.ref in *.
  - rewrite (Hf f eq_refl), (Hb k eq_refl). apply f_equal. apply Nat.add_comm.
  - rewrite (Hf f eq_refl). cbn [BSP.all_polygons count_occ option_map].
    simpl. rewrite ?Nat.add_0_r. reflexivity.
  - rewrite (Hb k eq_refl). simpl. rewrite ?Nat.add_0_r. reflexivity.
  - reflexivity.
Qed.

Lemma mirror_involutive : forall nd, mirror (mirror nd) = nd.
Proof.
  apply (BSPNode3_induction (fun nd => mirror (mirror nd) = nd)).
  intros pl fr bk ps Hf Hb.
  destruct pl as [q |], fr as [f |], bk as [k |]; cbn [mirror option_map];
    rewrite ?plane_flip_involutive;
    try rewrite (Hf _ eq_refl); try rewrite (Hb _ eq_refl); reflexivity.
Qed.

(** [invert] on a tree whose polygons are in the heap. *)
Lemma invert_run : forall nd h,
  valid_refs h (BSP.all_polygons nd) ->
  BSP.invert nd h = (Ok (mirror nd), flip_cells (BSP.all_polygons nd) h).
Proof.
  apply (BSPNode3_induction (fun nd => forall h,
    valid_refs h (BSP.all_polygons nd) ->
    BSP.invert nd h = (Ok (mirror nd), flip_cells (BSP.all_polygons nd) h))).
  intros pl fr bk ps Hf Hb h Hv.
  simpl in Hv. apply valid_refs_app in Hv. destruct Hv as (Hps & Hv).
  apply valid_refs_app in Hv. destruct Hv as (Hfr & Hbk).
  cbn [BSP.invert BSP.all_polygons mirror].
  rewrite (bind_ok _ _ _ _ _ (flip_each_run ps h Hps)).
  rewrite !flip_cells_app.
  set (h1 := flip_cells ps h).
  assert (L1 : length h1 = length h) by apply flip_cells_length.
  destruct fr as [f |].
  - rewrite (bind_ok _ _ _ _ _
      (bind_ok _ _ _ _ _ (Hf f eq_refl h1 (valid_refs_length h h1 _ L1 Hfr)))).
    set (h2 := flip_cells (BSP.all_polygons f) h1).
    assert (L2 : length h2 = length h)
      by (unfold h2; now rewrite flip_cells_length).
    destruct bk as [k |].
    + rewrite (bind_ok _ _ _ _ _
        (bind_ok _ _ _ _ _ (Hb k eq_refl h2 (valid_refs_length h h2 _ L2 Hbk)))).
      reflexivity.
    + reflexivity.
  - destruct bk as [k |].
    + unfold bind at 1. cbn [ret]. cbv beta iota.
      rewrite (bind_ok _ _ _ _ _
        (bind_ok _ _ _ _ _ (Hb k eq_refl h1 (valid_refs_length h h1 _ L1 Hbk)))).
      reflexivity.
    + reflexivity.
Qed.

Lemma in_all_mirror nd r : In r (BSP.all_polygons (mirror nd)) <-> In r (BSP.all_polygons nd).
Proof.
  rewrite !(count_occ_In Nat.eq_dec). now rewrite count_all_mirror.
Qed.

Lemma mirror_valid h nd :
  valid_refs h (BSP.all_polygons nd) -> valid_refs h (BSP.all_polygons (mirror nd)).
Proof.
  unfold valid_refs. rewrite !Forall_forall. intros Hv r Hr.
  apply Hv. now apply in_all_mirror.
Qed.

(** [invert] on the tree that [invert] has left. *)
Lemma invert_mirror_run (h : BSP.heap) (nd : BSP.BSPNode3) :
  valid_refs h (BSP.all_polygons nd) ->
  BSP.invert (mirror nd) (flip_cells (BSP.all_polygons nd) h) = (Ok nd, h).
Proof.
  intros Hv.
  set (h1 := flip_cells (BSP.all_polygons nd) h).
  assert (Hv1 : valid_refs h1 (BSP.all_polygons (mirror nd))).
  { apply (valid_refs_length h); [apply flip_cells_length | now apply mirror_valid]. }
  rewrite (invert_run (mirror nd) h1 Hv1), mirror_involutive. f_equal.
  apply nth_error_ext. intros r. unfold h1.
  rewrite !flip_cells_at, count_all_mirror.
  destruct (nth_error h r) as [p |]; [| reflexivity].
  simpl. f_equal. rewrite <- Nat.iter_add. apply iter_flipped_even.
Qed.

(** Inverting a tree twice gives back the tree and every polygon object:
    vertex order, plane and tag, whatever polygons the nodes share. *)
Theorem invert_twice_restores (h : BSP.heap) (nd : BSP.BSPNode3) :
  valid_refs h (BSP.all_polygons nd) ->
  (nd1 <- BSP.invert nd ;; BSP.invert nd1) h = (Ok nd, h).
Proof.
  intros Hv.
  rewrite (bind_ok _ _ _ _ _ (invert_run nd h Hv)).
  now apply invert_mirror_run.
Qed.

Lemma invert_twice_restores_witness :
  let h := snd (BSP.new_polygon triangle_ring None []) in
  let nd := BSP.Node None (Some (BSP.Node None None None [0])) None [0] in
  valid_refs h (BSP.all_polygons nd) /\
  (nd1 <- BSP.invert nd ;; BSP.invert nd1) h = (Ok nd, h).
Proof.
  intros h nd.
  assert (Hv : valid_refs h (BSP.all_polygons nd)).
  { repeat constructor. }
  split; [exact Hv | exact (invert_twice_restores h nd Hv)].
Defined.




(** ** [split_polygon] (bsp3.py) *)

Lemma lor_small a b : a < 4 -> b < 4 -> Nat.lor a b < 4.
Proof.
  intros Ha Hb.
  do 4 (destruct a as [| a]; [do 4 (destruct b as [| b]; [cbv; lia |]); lia |]).
  lia.
Qed.

Lemma vertex_type_small pl a : BSP.vertex_type pl a < 4.
Proof.
  unfold BSP.vertex_type.
  destruct (PrimFloat.ltb _ _); [cbv; lia |].
  destruct (PrimFloat.ltb _ _); cbv; lia.
Qed.

(** [polygon_type] is one of the four types. *)
Lemma polygon_type_small pl vs :
  fold_left Nat.lor (map (BSP.vertex_type pl) vs) 0 < 4.
Proof.
  assert (G : forall l a, a < 4 -> Forall (fun t => t < 4) l -> fold_left Nat.lor l a < 4).
  { induction l as [| t tl IH]; intros a Ha Hl; simpl; [exact Ha |].
    inversion Hl; subst. apply IH; [apply lor_small; assumption | assumption]. }
  apply G; [lia |]. apply Forall_forall. intros t Ht. apply in_map_iff in Ht.
  destruct Ht as (a & <- & _). apply vertex_type_small.
Qed.

Lemma not_oof_ok {A : Type} (a : A) : not_oof (Ok a).
Proof. discriminate. Qed.

Lemma not_oof_rbind {A B : Type} (r : res A) (k : A -> res B) :
  not_oof r -> (forall a, not_oof (k a)) -> not_oof (rbind r k).
Proof.
  intros Hr Hk. destruct r as [a | e]; simpl; [apply Hk |].
  intros E. apply Hr. congruence.
Qed.

Lemma not_oof_div a b : not_oof (PyFloat.div a b).
Proof. unfold PyFloat.div. destruct (PrimFloat.eqb b 0); discriminate. Qed.

Lemma not_oof_sqrt a : not_oof (PyFloat.sqrt a).
Proof. unfold PyFloat.sqrt. destruct (PrimFloat.ltb a 0); discriminate. Qed.

Lemma not_oof_polygon_plane vs : not_oof (BSP.polygon_plane vs).
Proof.
  unfold BSP.polygon_plane.
  destruct vs as [| v0 [| v1 [| v2 tl]]]; try discriminate.
  unfold BSP.plane_from_points, Vector3.unit, Vector3.length, Vector3.divide.
  repeat (apply not_oof_rbind; [| intros ?]);
    first [apply not_oof_sqrt | apply not_oof_div | apply not_oof_ok].
Qed.

Lemma not_oof_split_edge pl ti tj vi vj : not_oof (BSP.split_edge pl ti tj vi vj).
Proof.
  unfold BSP.split_edge. cbv zeta.
  destruct (Nat.eqb (Nat.lor ti tj) BSP.spanning_type); [| discriminate].
  apply not_oof_rbind; [apply not_oof_div | intros ?; apply not_oof_ok].
Qed.

Lemma not_oof_split_edges pl vs types : forall count i f b,
  not_oof (BSP.split_edges pl vs types count i f b).
Proof.
  induction count as [| c IH]; intros i f b; simpl; [discriminate |].
  destruct (nth_error types i); [| discriminate].
  destruct (nth_error types _); [| discriminate].
  destruct (nth_error vs i); [| discriminate].
  destruct (nth_error vs _); [| discriminate].
  apply not_oof_rbind; [apply not_oof_split_edge | intros ?; apply IH].
Qed.

Lemma new_polygon_cases vs sh h :
  (exists pl, BSP.new_polygon vs sh h = (Ok (length h), h ++ [BSP.mkPolygon vs sh pl])) \/
  (exists e, e <> OutOfFuel /\ BSP.new_polygon vs sh h = (Raise e, h)).
Proof.
  pose proof (not_oof_polygon_plane vs) as Hp.
  unfold BSP.new_polygon, BSP.alloc, lift, bind, get_state, put_state, ret.
  destruct (BSP.polygon_plane vs) as [pl | e]; [left; exists pl | right; exists e].
  - reflexivity.
  - split; [intros ->; now apply Hp | reflexivity].
Qed.

(** [if len(l) >= 3: out.append(BSPPolygon3(l, shared))]. *)
Lemma optional_polygon_cases (c : bool) vs sh h :
  match (if c then r <- BSP.new_polygon vs sh ;; ret [r] else ret []) h with
  | (Ok l, h') =>
      exists ext, h' = h ++ ext /\ l = seq (length h) (length ext) /\
                  length ext <= 1 /\ Forall (fun q => BSP.shared q = sh) ext
  | (Raise e, _) => e <> OutOfFuel
  end.
Proof.
  destruct c.
  - destruct (new_polygon_cases vs sh h) as [(pl & E) | (e & He & E)].
    + rewrite (bind_ok _ _ _ _ _ E). cbv [ret].
      exists [BSP.mkPolygon vs sh pl]. repeat split; simpl; auto.
    + rewrite (bind_raise _ _ _ _ _ E). exact He.
  - cbv [ret]. exists []. rewrite app_nil_r. repeat split; simpl; auto.
Qed.

Lemma deref_run h r p : nth_error h r = Some p -> BSP.deref r h = (Ok p, h).
Proof. intros E. unfold BSP.deref, bind, get_state, need, ret. now rewrite E. Qed.

Lemma deref_fails h r : nth_error h r = None -> BSP.deref r h = (Raise IndexError, h).
Proof. intros E. unfold BSP.deref, bind, get_state, need, raise. now rewrite E. Qed.

Lemma split_polygon_cases pl polygon p h :
  nth_error h polygon = Some p ->
  match BSP.split_polygon pl polygon h with
  | (Ok r, h') =>
      (h' = h /\ routed_all r = [polygon]) \/
      (exists ext, h' = h ++ ext /\
         BSP.to_coplanar_front r = [] /\ BSP.to_coplanar_back r = [] /\
         length (BSP.to_front r) <= 1 /\ length (BSP.to_back r) <= 1 /\
         BSP.to_front r ++ BSP.to_back r = seq (length h) (length ext) /\
         Forall (fun q => BSP.shared q = BSP.shared p) ext)
  | (Raise e, _) => e <> OutOfFuel
  end.
Proof.
  intros E. unfold BSP.split_polygon.
  rewrite (bind_ok _ _ _ _ _ (deref_run h polygon p E)). cbv beta zeta.
  pose proof (polygon_type_small pl (BSP.vertices p)) as Hs.
  set (pt := fold_left Nat.lor (map (BSP.vertex_type pl) (BSP.vertices p)) 0) in *.
  destruct (Nat.eqb pt BSP.coplanar_type) eqn:E0.
  { destruct (PrimFloat.ltb _ _); left; split; reflexivity. }
  destruct (Nat.eqb pt BSP.front_type) eqn:E1; [left; split; reflexivity |].
  destruct (Nat.eqb pt BSP.back_type) eqn:E2; [left; split; reflexivity |].
  destruct (Nat.eqb pt BSP.spanning_type) eqn:E3.
  2: { exfalso. apply Nat.eqb_neq in E0, E1, E2, E3.
       unfold BSP.coplanar_type, BSP.front_type, BSP.back_type, BSP.spanning_type in *.
       lia. }
  pose proof (not_oof_split_edges pl (BSP.vertices p)
                (map (BSP.vertex_type pl) (BSP.vertices p))
                (length (BSP.vertices p)) 0 [] []) as Hse.
  destruct (BSP.split_edges pl (BSP.vertices p) _ _ 0 [] []) as [fb | e].
  2: { unfold bind at 1, lift. intros ->. now apply Hse. }
  unfold bind at 1, lift.
  pose proof (optional_polygon_cases (3 <=? length (fst fb)) (fst fb) (BSP.shared p) h) as H1.
  unfold bind at 1.
  destruct ((if 3 <=? length (fst fb)
             then r <- BSP.new_polygon (fst fb) (BSP.shared p) ;; ret [r]
             else ret []) h) as [[fr | e] h1]; [| exact H1].
  destruct H1 as (ext1 & -> & -> & L1 & F1).
  pose proof (optional_polygon_cases (3 <=? length (snd fb)) (snd fb) (BSP.shared p)
                (h ++ ext1)) as H2.
  unfold bind at 1.
  destruct ((if 3 <=? length (snd fb)
             then r <- BSP.new_polygon (snd fb) (BSP.shared p) ;; ret [r]
             else ret []) (h ++ ext1)) as [[bk | e] h2]; [| exact H2].
  destruct H2 as (ext2 & -> & -> & L2 & F2).
  cbv [ret]. right. exists (ext1 ++ ext2). simpl.
  rewrite <- app_assoc, !length_seq, !length_app.
  repeat split; auto.
  - now rewrite seq_app.
  - apply Forall_app. now split.
Qed.



(** ** The recursion of [build] and the operations (bsp3.py) *)

Lemma valid_refs_mono h h' l :
  length h <= length h' -> valid_refs h l -> valid_refs h' l.
Proof.
  unfold valid_refs. intros L Hv. eapply Forall_impl; [| exact Hv].
  simpl. intros r Hr. lia.
Qed.

Lemma valid_refs_nil h : valid_refs h [].
Proof. constructor. Qed.

Lemma valid_refs_one h r : r < length h -> valid_refs h [r].
Proof. intros Hr. constructor; [exact Hr | constructor]. Qed.

Create HintDb valid.

#[local] Hint Resolve valid_refs_nil valid_refs_one : valid.

Lemma sound_ret {A : Type} h (a : A) (post : BSP.heap -> A -> Prop) :
  post h a -> sound h (ret a) post.
Proof. intros H. unfold sound, ret. split; [lia | exact H]. Qed.

Lemma sound_bind {A B : Type} h (m : BSP.H A) (k : A -> BSP.H B)
    (mid : BSP.heap -> A -> Prop) (post : BSP.heap -> B -> Prop) :
  sound h m mid ->
  (forall a h', length h <= length h' -> mid h' a -> sound h' (k a) post) ->
  sound h (bind m k) post.
Proof.
  unfold sound, bind. intros Hm Hk.
  destruct (m h) as [[a | e] h1]; [| exact Hm].
  destruct Hm as [L Hmid]. specialize (Hk a h1 L Hmid).
  destruct (k a h1) as [[b | e] h2]; [| exact Hk].
  destruct Hk as [L2 Hp]. split; [lia | exact Hp].
Qed.

Lemma sound_weaken {A : Type} h (m : BSP.H A) (P Q : BSP.heap -> A -> Prop) :
  sound h m P -> (forall h' a, length h <= length h' -> P h' a -> Q h' a) -> sound h m Q.
Proof.
  unfold sound. intros Hm HPQ. destruct (m h) as [[a | e] h1]; [| exact Hm].
  destruct Hm as [L HP]. split; [exact L | now apply HPQ].
Qed.

Lemma sound_deref h r :
  sound h (BSP.deref r) (fun h' p => h' = h /\ nth_error h r = Some p).
Proof.
  unfold sound. destruct (nth_error h r) as [p |] eqn:E.
  - rewrite (deref_run h r p E). auto.
  - rewrite (deref_fails h r E). discriminate.
Qed.

Lemma sound_new_polygon h vs sh :
  sound h (BSP.new_polygon vs sh) (fun h' r => r < length h').
Proof.
  unfold sound. destruct (new_polygon_cases vs sh h) as [(pl & E) | (e & He & E)]; rewrite E.
  - rewrite length_app. simpl. lia.
  - exact He.
Qed.

Lemma sound_polygon_clone h r :
  sound h (BSP.polygon_clone r) (fun h' r' => r' < length h').
Proof.
  unfold BSP.polygon_clone.
  eapply sound_bind; [apply sound_deref |]. intros p h' _ _. apply sound_new_polygon.
Qed.

Lemma sound_clone : forall (self : BSP.BSP3) h,
  sound h (BSP.clone self) (fun h' ca => valid_refs h' ca).
Proof.
  unfold BSP.clone.
  induction self as [| r tl IH]; intros h; simpl; [apply sound_ret; auto with valid |].
  eapply sound_bind; [apply sound_polygon_clone |]. intros r' h1 L1 Hr'.
  eapply sound_bind; [apply IH |]. intros ca h2 L2 Hca.
  cbv beta in *. apply sound_ret. constructor; [lia | exact Hca].
Qed.

Lemma sound_split_polygon pl r h :
  r < length h ->
  sound h (BSP.split_polygon pl r)
    (fun h' rt => valid_refs h' (routed_all rt) /\
                  length (BSP.to_front rt) <= 1 /\ length (BSP.to_back rt) <= 1).
Proof.
  intros Hr. destruct (nth_error h r) as [p |] eqn:E;
    [| apply nth_error_None in E; lia].
  pose proof (split_polygon_cases pl r p h E) as H. unfold sound.
  destruct (BSP.split_polygon pl r h) as [[rt | e] h']; [| exact H].
  destruct H as [(-> & Hall) | (ext & -> & Hcf & Hcb & Lf & Lb & Hfb & _)].
  - split; [lia |]. split; [rewrite Hall; auto with valid |].
    assert (L : length (routed_all rt) = 1) by now rewrite Hall.
    unfold routed_all in L. rewrite !length_app in L. lia.
  - rewrite length_app. split; [lia |]. split; [| lia].
    unfold routed_all. rewrite Hcf, Hcb, Hfb. simpl.
    apply Forall_forall. intros x Hx. apply in_seq in Hx. rewrite length_app. lia.
Qed.

Lemma routed_all_valid h rt :
  valid_refs h (routed_all rt) ->
  valid_refs h (BSP.to_coplanar_front rt) /\ valid_refs h (BSP.to_coplanar_back rt) /\
  valid_refs h (BSP.to_front rt) /\ valid_refs h (BSP.to_back rt).
Proof.
  unfold routed_all. intros H.
  apply valid_refs_app in H. destruct H as [H1 H].
  apply valid_refs_app in H. destruct H as [H2 H].
  apply valid_refs_app in H. destruct H as [H3 H4]. auto.
Qed.

Lemma valid_refs_app_intro h l1 l2 :
  valid_refs h l1 -> valid_refs h l2 -> valid_refs h (l1 ++ l2).
Proof. intros H1 H2. apply valid_refs_app. now split. Qed.

#[local] Hint Resolve valid_refs_app_intro valid_refs_mono : valid.

Lemma sound_clip_split pl : forall ps fr bk h,
  valid_refs h ps -> valid_refs h fr -> valid_refs h bk ->
  sound h (BSP.clip_split pl ps fr bk)
    (fun h' fb => valid_refs h' (fst fb) /\ valid_refs h' (snd fb)).
Proof.
  induction ps as [| p tl IH]; intros fr bk h Hps Hfr Hbk; simpl.
  - apply sound_ret. now split.
  - inversion Hps as [| ? ? Hp Htl]; subst.
    eapply sound_bind; [apply sound_split_polygon; exact Hp |].
    intros rt h1 L1 (Hrt & _). cbv beta.
    apply routed_all_valid in Hrt. destruct Hrt as (V1 & V2 & V3 & V4).
    apply IH; eauto 6 with valid.
Qed.

Lemma sound_build_split pl : forall ps own fr bk h,
  valid_refs h ps -> valid_refs h own -> valid_refs h fr -> valid_refs h bk ->
  sound h (BSP.build_split pl ps own fr bk)
    (fun h' t => valid_refs h' (fst (fst t)) /\ valid_refs h' (snd (fst t)) /\
                 valid_refs h' (snd t) /\
                 length (snd (fst t)) <= length fr + length ps /\
                 length (snd t) <= length bk + length ps).
Proof.
  induction ps as [| p tl IH]; intros own fr bk h Hps Hown Hfr Hbk; simpl.
  - apply sound_ret. simpl. repeat split; auto; lia.
  - inversion Hps as [| ? ? Hp Htl]; subst.
    eapply sound_bind; [apply sound_split_polygon; exact Hp |].
    intros rt h1 L1 (Hrt & Lf & Lb). cbv beta.
    apply routed_all_valid in Hrt. destruct Hrt as (V1 & V2 & V3 & V4).
    eapply sound_weaken; [apply IH; eauto 6 with valid |].
    cbv beta. intros h2 t L2 (W1 & W2 & W3 & W4 & W5).
    rewrite length_app in W4, W5. repeat split; auto; lia.
Qed.

Lemma sound_clip_polygons : forall nd ps h,
  valid_refs h ps -> sound h (BSP.clip_polygons nd ps) (fun h' l => valid_refs h' l).
Proof.
  induction nd as [pl fr bk own IHf IHk] using BSPNode3_induction.
  intros ps h Hps. simpl. destruct pl as [pl |]; [| now apply sound_ret].
  eapply sound_bind; [apply sound_clip_split; auto with valid |].
  intros [f k] h1 L1 [Hf Hk]. simpl in Hf, Hk.
  eapply sound_bind with (mid := fun h' l => valid_refs h' l).
  { destruct fr as [n |]; [now apply (IHf n) | now apply sound_ret]. }
  intros f' h2 L2 Hf'.
  eapply sound_bind with (mid := fun h' l => valid_refs h' l).
  { destruct bk as [n |]; [apply (IHk n); eauto with valid | apply sound_ret; auto with valid]. }
  intros k' h3 L3 Hk'. apply sound_ret. eauto with valid.
Qed.

Definition valid_option (h : BSP.heap) (o : option BSP.BSPNode3) : Prop :=
  valid_refs h (match o with Some n => BSP.all_polygons n | None => [] end).

Lemma sound_optional_node h (f : BSP.BSPNode3 -> BSP.H BSP.BSPNode3) (o : option BSP.BSPNode3) :
  (forall nd, o = Some nd ->
     sound h (f nd) (fun h' nd' => valid_refs h' (BSP.all_polygons nd'))) ->
  sound h (match o with
           | Some n => n' <- f n ;; ret (Some n')
           | None => ret None
           end) valid_option.
Proof.
  intros Hf. destruct o as [n |].
  - eapply sound_bind; [apply Hf; reflexivity |]. intros n' h1 L1 Hn'.
    apply sound_ret. exact Hn'.
  - apply sound_ret. unfold valid_option. auto with valid.
Qed.

Lemma all_polygons_valid h pl fr bk ps :
  valid_refs h (BSP.all_polygons (BSP.Node pl fr bk ps)) <->
  valid_refs h ps /\ valid_option h fr /\ valid_option h bk.
Proof.
  unfold valid_option. simpl. rewrite !valid_refs_app. tauto.
Qed.

Lemma sound_clip_to bsp : forall nd h,
  valid_refs h (BSP.all_polygons nd) ->
  sound h (BSP.clip_to nd bsp) (fun h' nd' => valid_refs h' (BSP.all_polygons nd')).
Proof.
  induction nd as [pl fr bk own IHf IHk] using BSPNode3_induction.
  intros h Hnd. apply all_polygons_valid in Hnd. destruct Hnd as (Hown & Hfr & Hbk).
  simpl.
  eapply sound_bind; [apply sound_clip_polygons; exact Hown |]. intros ps' h1 L1 Hps'.
  eapply sound_bind.
  { apply sound_optional_node. intros nd E. apply IHf; [exact E |].
    subst fr. unfold valid_option in Hfr. eauto with valid. }
  intros fr' h2 L2 Hfr'.
  eapply sound_bind.
  { apply sound_optional_node. intros nd E. apply IHk; [exact E |].
    subst bk. unfold valid_option in Hbk. apply (valid_refs_mono h); [lia | exact Hbk]. }
  intros bk' h3 L3 Hbk'.
  apply sound_ret. apply all_polygons_valid. repeat split.
  - apply (valid_refs_mono h1); [lia | exact Hps'].
  - unfold valid_option in *. apply (valid_refs_mono h2); [lia | exact Hfr'].
  - exact Hbk'.
Qed.

Lemma sound_invert nd h :
  valid_refs h (BSP.all_polygons nd) ->
  sound h (BSP.invert nd) (fun h' nd' => valid_refs h' (BSP.all_polygons nd')).
Proof.
  intros Hv. unfold sound. rewrite (invert_run nd h Hv).
  rewrite flip_cells_length. split; [lia |].
  apply (valid_refs_length h); [apply flip_cells_length | now apply mirror_valid].
Qed.

Lemma sound_build_fuel : forall fuel nd ps h,
  length ps <= fuel ->
  valid_refs h (BSP.all_polygons nd) -> valid_refs h ps ->
  sound h (BSP.build_fuel fuel nd ps) (fun h' nd' => valid_refs h' (BSP.all_polygons nd')).
Proof.
  induction fuel as [| fuel IH]; intros nd ps h Lps Hnd Hps.
  - destruct ps as [| p0 rest]; [| simpl in Lps; lia].
    simpl. now apply sound_ret.
  - destruct ps as [| p0 rest]; [simpl; now apply sound_ret |].
    simpl in Lps. inversion Hps as [| ? ? Hp0 Hrest]; subst.
    destruct nd as [pl fr bk own].
    apply all_polygons_valid in Hnd. destruct Hnd as (Hown & Hfr & Hbk).
    cbn [BSP.build_fuel].
    eapply sound_bind with (mid := fun _ _ => True).
    { destruct pl as [q |]; [now apply sound_ret |].
      eapply sound_bind; [apply sound_deref |]. intros p h' _ _. now apply sound_ret. }
    intros pl' h0 L0 _.
    eapply sound_bind.
    { apply sound_build_split; eauto 6 with valid. }
    intros [[own' f] b] h1 L1 (Vown & Vf & Vb & Lf & Lb). simpl in Vown, Vf, Vb, Lf, Lb.
    eapply sound_bind with (mid := valid_option).
    { destruct f as [| f0 ftl].
      - apply sound_ret. unfold valid_option in *.
        apply (valid_refs_mono h); [lia | exact Hfr].
      - eapply sound_bind.
        + apply IH; [lia | | exact Vf].
          destruct fr as [n |]; [| simpl; auto with valid].
          unfold valid_option in Hfr. apply (valid_refs_mono h); [lia | exact Hfr].
        + intros n' h2 L2 Hn'. apply sound_ret. exact Hn'. }
    intros fr' h2 L2 Hfr'.
    eapply sound_bind with (mid := valid_option).
    { destruct b as [| b0 btl].
      - apply sound_ret. unfold valid_option in *.
        apply (valid_refs_mono h); [lia | exact Hbk].
      - eapply sound_bind.
        + apply IH; [lia | | apply (valid_refs_mono h1); [lia | exact Vb]].
          destruct bk as [n |]; [| simpl; auto with valid].
          unfold valid_option in Hbk. apply (valid_refs_mono h); [lia | exact Hbk].
        + intros n' h3 L3 Hn'. apply sound_ret. exact Hn'. }
    intros bk' h3 L3 Hbk'.
    apply sound_ret. apply all_polygons_valid. repeat split.
    + apply (valid_refs_mono h1); [lia | exact Vown].
    + unfold valid_option in *. apply (valid_refs_mono h2); [lia | exact Hfr'].
    + exact Hbk'.
Qed.

Lemma sound_build nd ps h :
  valid_refs h (BSP.all_polygons nd) -> valid_refs h ps ->
  sound h (BSP.build nd ps) (fun h' nd' => valid_refs h' (BSP.all_polygons nd')).
Proof. intros Hnd Hps. unfold BSP.build. now apply sound_build_fuel. Qed.

Lemma sound_new_node ps h :
  valid_refs h ps ->
  sound h (BSP.new_node ps) (fun h' nd' => valid_refs h' (BSP.all_polygons nd')).
Proof.
  intros Hps. unfold BSP.new_node. apply sound_build; [simpl; auto with valid | exact Hps].
Qed.

(** [build] returns or raises as Python does: a list of [k] polygons
    never needs more than [k] nested calls, so the bound of the model is
    not reached, and the tree that is built holds polygons of the heap
    only. *)
Theorem build_recursion_is_bounded (fuel : nat) (nd : BSP.BSPNode3) (ps : list BSP.ref)
    (h : BSP.heap) :
  valid_refs h (BSP.all_polygons nd) -> valid_refs h ps -> length ps <= fuel ->
  match BSP.build_fuel fuel nd ps h with
  | (Ok nd', h') => length h <= length h' /\ valid_refs h' (BSP.all_polygons nd')
  | (Raise e, _) => e <> OutOfFuel
  end.
Proof.
  intros Hnd Hps L. exact (sound_build_fuel fuel nd ps h L Hnd Hps).
Qed.

Lemma build_recursion_is_bounded_witness :
  let h := snd (BSP.new_polygon flat_end_ring None
             (snd (BSP.new_polygon triangle_ring None []))) in
  let nd := BSP.empty_node in
  (valid_refs h (BSP.all_polygons nd) /\ valid_refs h [0; 1] /\ length [0; 1] <= 2) /\
  match BSP.build_fuel 2 nd [0; 1] h with
  | (Ok nd', h') => length h <= length h' /\ valid_refs h' (BSP.all_polygons nd')
  | (Raise e, _) => e <> OutOfFuel
  end.
Proof.
  intros h nd.
  assert (H1 : valid_refs h (BSP.all_polygons nd)) by constructor.
  assert (H2 : valid_refs h [0; 1]).
  { assert (L : length h = 2) by reflexivity.
    unfold valid_refs. rewrite L. repeat constructor. }
  assert (H3 : length [0; 1] <= 2) by (simpl; lia).
  split; [auto | exact (build_recursion_is_bounded 2 nd [0; 1] h H1 H2 H3)].
Defined.

Ltac sound_step :=
  match goal with
  | |- sound _ (bind (BSP.clone _) _) _ =>
      eapply sound_bind; [apply sound_clone | intros ? ? ? ?]
  | |- sound _ (bind (BSP.new_node _) _) _ =>
      eapply sound_bind; [apply sound_new_node; eauto with valid | intros ? ? ? ?]
  | |- sound _ (bind (BSP.clip_to _ _) _) _ =>
      eapply sound_bind; [apply sound_clip_to; eauto with valid | intros ? ? ? ?]
  | |- sound _ (bind (BSP.invert _) _) _ =>
      eapply sound_bind; [apply sound_invert; eauto with valid | intros ? ? ? ?]
  | |- sound _ (bind (BSP.build _ _) _) _ =>
      eapply sound_bind; [apply sound_build; eauto with valid | intros ? ? ? ?]
  | |- sound _ (ret _) _ => apply sound_ret
  end.

Lemma valid_refs_trans (h1 h2 h3 : BSP.heap) l :
  length h1 <= length h2 -> length h2 <= length h3 -> valid_refs h1 l -> valid_refs h3 l.
Proof. intros L1 L2. apply valid_refs_mono. lia. Qed.

Lemma sound_union self bsp h : sound h (BSP.union self bsp) (fun h' r => valid_refs h' r).
Proof.
  unfold BSP.union, BSP.from_polygons.
  sound_step. sound_step. sound_step. sound_step.
  sound_step. sound_step. sound_step. sound_step. sound_step. sound_step.
  sound_step. assumption.
  all: eauto using valid_refs_trans with valid.
Qed.

Lemma sound_subtract self bsp h : sound h (BSP.subtract self bsp) (fun h' r => valid_refs h' r).
Proof.
  unfold BSP.subtract, BSP.from_polygons.
  sound_step. sound_step. sound_step. sound_step.
  sound_step. sound_step. sound_step. sound_step. sound_step. sound_step.
  sound_step. sound_step. sound_step. assumption.
  all: eauto using valid_refs_trans with valid.
Qed.

Lemma sound_intersect self bsp h : sound h (BSP.intersect self bsp) (fun h' r => valid_refs h' r).
Proof.
  unfold BSP.intersect, BSP.from_polygons.
  sound_step. sound_step. sound_step. sound_step.
  sound_step. sound_step. sound_step. sound_step. sound_step. sound_step.
  sound_step. sound_step. assumption.
  all: eauto using valid_refs_trans with valid.
Qed.

(** [union], [subtract] and [intersect] return or raise as Python does,
    whatever the operands: the recursion of [build] never reaches the bound
    of the model.  What they return holds polygon objects of the heap, and
    no object has been removed. *)
Theorem operations_recursion_is_bounded (self bsp : BSP.BSP3) (h : BSP.heap) :
  sound h (BSP.union self bsp) (fun h' r => valid_refs h' r) /\
  sound h (BSP.subtract self bsp) (fun h' r => valid_refs h' r) /\
  sound h (BSP.intersect self bsp) (fun h' r => valid_refs h' r).
Proof.
  split; [apply sound_union |]. split; [apply sound_subtract | apply sound_intersect].
Qed.

(** ** An operand without polygons (bsp3.py) *)












(** ** [__sort] (triangulation2.py) *)

Lemma enumerate_from_fst {A : Type} (l : list A) : forall i,
  map fst (enumerate_from i l) = seq i (length l).
Proof. induction l as [| a tl IH]; intros i; simpl; [reflexivity | now rewrite IH]. Qed.

Lemma enumerate_from_snd {A : Type} (l : list A) : forall i,
  map snd (enumerate_from i l) = l.
Proof. induction l as [| a tl IH]; intros i; simpl; [reflexivity | now rewrite IH]. Qed.

Lemma enumerate_from_nth {A : Type} (l : list A) : forall i k (a : A),
  In (k, a) (enumerate_from i l) -> i <= k /\ nth_error l (k - i) = Some a.
Proof.
  induction l as [| h tl IH]; intros i k a Hin; simpl in Hin; [contradiction |].
  destruct Hin as [E | Hin].
  - inversion E; subst. rewrite Nat.sub_diag. split; [lia | reflexivity].
  - apply IH in Hin. destruct Hin as [L E]. split; [lia |].
    replace (k - i) with (S (k - S i)) by lia. exact E.
Qed.

Lemma strongly_sorted_before {A : Type} (R : A -> A -> Prop) (l1 l2 : list A) (a : A) :
  StronglySorted R (l1 ++ a :: l2) -> Forall (fun b => R b a) l1.
Proof.
  induction l1 as [| h tl IH]; intros H; [constructor |].
  simpl in H. inversion H as [| ? ? Hs Hf]; subst. constructor.
  - rewrite Forall_forall in Hf. apply Hf. apply in_or_app. right. now left.
  - now apply IH.
Qed.

Lemma strongly_sorted_snoc {A : Type} (R : A -> A -> Prop) (l : list A) (a : A) :
  StronglySorted R l -> Forall (fun b => R b a) l -> StronglySorted R (l ++ [a]).
Proof.
  induction l as [| h tl IH]; intros Hs Hf; simpl.
  - constructor; constructor.
  - inversion Hs as [| ? ? Hs' Hh]; subst. inversion Hf as [| ? ? Ha Hf']; subst.
    constructor; [now apply IH |].
    apply Forall_app. split; [exact Hh | constructor; [exact Ha | constructor]].
Qed.

Section Sorting.

Context {N : Number}.

Lemma insert_stable_perm c e l : Permutation (insert_stable c e l) (e :: l).
Proof.
  induction l as [| h tl IH]; simpl; [reflexivity |].
  destruct (key_ltb _ _); [reflexivity |].
  eapply perm_trans; [apply perm_skip; exact IH | apply perm_swap].
Qed.

Lemma sorted_enumerated_perm c l :
  Permutation (sorted_enumerated c l) (enumerate_from 0 l).
Proof.
  unfold sorted_enumerated.
  assert (G : forall es acc,
    Permutation (fold_left (fun acc e => insert_stable c e acc) es acc) (es ++ acc)).
  { induction es as [| e tl IH]; intros acc; simpl; [reflexivity |].
    eapply perm_trans; [apply IH |].
    eapply perm_trans; [apply Permutation_app_head; apply insert_stable_perm |].
    apply Permutation_sym, Permutation_middle. }
  specialize (G (enumerate_from 0 l) []). now rewrite app_nil_r in G.
Qed.

Lemma sorted_enumerated_length c l : length (sorted_enumerated c l) = length l.
Proof.
  rewrite (Permutation_length (sorted_enumerated_perm c l)).
  rewrite <- (length_map fst), enumerate_from_fst. apply length_seq.
Qed.

Lemma sorted_enumerated_nodup c l : NoDup (map fst (sorted_enumerated c l)).
Proof.
  eapply Permutation_NoDup.
  - apply Permutation_sym, Permutation_map, sorted_enumerated_perm.
  - rewrite enumerate_from_fst. apply seq_NoDup.
Qed.

Lemma sorted_enumerated_in c l k a :
  In (k, a) (sorted_enumerated c l) <-> nth_error l k = Some a.
Proof.
  split; intros H.
  - apply (Permutation_in _ (sorted_enumerated_perm c l)) in H.
    apply enumerate_from_nth in H. destruct H as [_ H]. now rewrite Nat.sub_0_r in H.
  - apply (Permutation_in _ (Permutation_sym (sorted_enumerated_perm c l))).
    apply (in_enumerate_from l 0 k a H).
Qed.

Lemma dedup_step_run (s : Triangulation2) (index : nat) (vertex last : Vector2) :
  nth_error (vertices s) (length (vertices s) - 1) = Some last ->
  index < length (indices s) ->
  dedup_step (index, vertex) s =
    (Ok tt,
     if py_eq last vertex
     then mkTriangulation2 (vertices s)
            (upd (indices s) index (Some (length (vertices s) - 1)))
            (segments s) (triangles s)
     else mkTriangulation2 (vertices s ++ [vertex])
            (upd (indices s) index (Some (length (vertices s))))
            (segments s) (triangles s)).
Proof.
  intros El Hi. unfold dedup_step, bind, get_state, need, ret, set_indices, set_vertices.
  rewrite El. destruct (py_eq last vertex).
  - rewrite (list_set_upd _ _ _ Hi). reflexivity.
  - rewrite (list_set_upd _ _ _ Hi). reflexivity.
Qed.

Lemma last_vertex (l : list Vector2) :
  1 <= length l -> exists a, nth_error l (length l - 1) = Some a.
Proof.
  intros L. destruct (nth_error l (length l - 1)) as [a |] eqn:E; [now exists a |].
  apply nth_error_None in E. lia.
Qed.

Lemma dedup_loop (R : Vector2 -> Vector2 -> Prop) (n : nat) : forall rest P s,
  NoDup (map fst (P ++ rest)) ->
  Forall (fun e => fst e < n) rest ->
  StronglySorted (fun a b => R (snd a) (snd b)) (P ++ rest) ->
  dedup_inv R n P s ->
  exists s',
    for_each rest dedup_step s = (Ok tt, s') /\
    dedup_inv R n (P ++ rest) s' /\
    segments s' = segments s /\ triangles s' = triangles s.
Proof.
  induction rest as [| [index vertex] tl IH]; intros P s Hnd Hlt Hss Hinv.
  - exists s. rewrite app_nil_r. auto.
  - destruct Hinv as (Hlen & Hv & Hidx & Hin & Hsorted).
    destruct (last_vertex (vertices s) (proj1 Hv)) as (last & El).
    pose proof (Forall_inv Hlt) as Hi. pose proof (Forall_inv_tail Hlt) as Hlt'.
    simpl in Hi.
    assert (Hfresh : forall i u, In (i, u) P -> i <> index).
    { intros i u HP ->. rewrite map_app in Hnd. simpl in Hnd.
      apply NoDup_remove_2 in Hnd. apply Hnd. apply in_or_app. left.
      apply in_map_iff. exists (index, u). auto. }
    assert (Hbefore : Forall (fun q => R q vertex) (vertices s)).
    { apply strongly_sorted_before in Hss. rewrite Forall_forall in *.
      intros q Hq. apply Hin in Hq. apply in_map_iff in Hq.
      destruct Hq as ([i q'] & <- & HP). exact (Hss _ HP). }
    assert (Hi' : index < length (indices s)) by (rewrite Hlen; exact Hi).
    simpl. rewrite (bind_ok _ _ _ _ _ (dedup_step_run s index vertex last El Hi')).
    replace (P ++ (index, vertex) :: tl) with ((P ++ [(index, vertex)]) ++ tl) in *
      by (rewrite <- app_assoc; reflexivity).
    set (s1 := if py_eq last vertex then _ else _).
    assert (Hs1 : dedup_inv R n (P ++ [(index, vertex)]) s1 /\
                  segments s1 = segments s /\ triangles s1 = triangles s).
    { subst s1. destruct (py_eq last vertex) eqn:Eq.
      - split; [| split; reflexivity].
        unfold dedup_inv. cbn [vertices indices]. rewrite length_upd, length_app. simpl.
        split; [exact Hlen |]. split; [lia |]. split; [| split].
        + intros i u Hiu. apply in_app_or in Hiu. destruct Hiu as [HP | [E | []]].
          * destruct (Hidx i u HP) as (j & q & E1 & E2 & E3). exists j, q.
            rewrite nth_error_upd_ne by (exact (Hfresh i u HP)). auto.
          * injection E as Ei Eu. subst i u. exists (length (vertices s) - 1), last.
            rewrite nth_error_upd_eq by exact Hi'. auto.
        + intros q Hq. rewrite map_app. apply in_or_app. left. now apply Hin.
        + exact Hsorted.
      - split; [| split; reflexivity].
        unfold dedup_inv. cbn [vertices indices]. rewrite length_upd, !length_app. simpl.
        split; [exact Hlen |]. split; [lia |]. split; [| split].
        + intros i u Hiu. apply in_app_or in Hiu. destruct Hiu as [HP | [E | []]].
          * destruct (Hidx i u HP) as (j & q & E1 & E2 & E3). exists j, q.
            rewrite nth_error_upd_ne by (exact (Hfresh i u HP)).
            split; [exact E1 |]. split; [| exact E3].
            rewrite nth_error_app1; [exact E2 |]. eapply nth_error_in_range; eassumption.
          * injection E as Ei Eu. subst i u. exists (length (vertices s)), vertex.
            rewrite nth_error_upd_eq by exact Hi'.
            split; [reflexivity |]. split.
            -- rewrite nth_error_app2 by lia. now rewrite Nat.sub_diag.
            -- apply Nat.eqb_refl.
        + intros q Hq. rewrite map_app. apply in_or_app.
          apply in_app_or in Hq. destruct Hq as [Hq | [<- | []]].
          * left. now apply Hin.
          * right. now left.
        + now apply strongly_sorted_snoc. }
    destruct Hs1 as (Hinv1 & Hsg1 & Htr1).
    destruct (IH (P ++ [(index, vertex)]) s1 Hnd Hlt' Hss Hinv1) as (s' & Hrun & Hinv' & Hsg & Htr).
    exists s'. rewrite Hrun. repeat split; try apply Hinv'; congruence.
Qed.

(** No vertex is dropped when the objects are pairwise distinct. *)
Lemma dedup_loop_distinct : forall rest P (s s' : Triangulation2),
  NoDup (map (fun e => ident (snd e)) (P ++ rest)) ->
  vertices s = map snd P ->
  for_each rest dedup_step s = (Ok tt, s') ->
  vertices s' = map snd (P ++ rest).
Proof.
  induction rest as [| [index vertex] tl IH]; intros P s s' Hnd Hv Hrun.
  - simpl in Hrun. inversion Hrun; subst. now rewrite app_nil_r.
  - cbn [for_each] in Hrun.
    destruct (dedup_step (index, vertex) s) as [[u | e] s1] eqn:Es.
    2: { rewrite (bind_raise _ _ _ _ _ Es) in Hrun. discriminate. }
    rewrite (bind_ok _ _ _ _ _ Es) in Hrun.
    replace (P ++ (index, vertex) :: tl) with ((P ++ [(index, vertex)]) ++ tl) in *
      by (rewrite <- app_assoc; reflexivity).
    apply (IH (P ++ [(index, vertex)]) s1 s' Hnd); [| exact Hrun].
    unfold dedup_step, bind, get_state, need, ret, raise, set_indices, set_vertices in Es.
    destruct (nth_error (vertices s) (length (vertices s) - 1)) as [last |] eqn:El;
      [| discriminate].
    destruct (py_eq last vertex) eqn:Eq.
    + exfalso. apply Nat.eqb_eq in Eq.
      apply nth_error_In in El. rewrite Hv in El. apply in_map_iff in El.
      destruct El as ([i l'] & El1 & El2). simpl in El1. subst l'.
      rewrite <- app_assoc in Hnd. simpl in Hnd. rewrite map_app in Hnd. simpl in Hnd.
      apply NoDup_remove_2 in Hnd. apply Hnd. apply in_or_app. left.
      apply in_map_iff. exists (i, last). auto.
    + destruct (list_set (indices s) index (Some (length (vertices s)))); [| discriminate].
      inversion Es; subst. cbn [vertices]. rewrite Hv, map_app. reflexivity.
Qed.

Lemma adjust_segment_run (s : Triangulation2) (old : nat * nat) (a b : nat) :
  nth_error (indices s) (fst old) = Some (Some a) ->
  nth_error (indices s) (snd old) = Some (Some b) ->
  adjust_segment old s =
    (Ok tt, mkTriangulation2 (vertices s) (indices s)
              (segments s ++ [(Nat.min a b, Nat.max a b)]) (triangles s)).
Proof.
  intros Ea Eb. unfold adjust_segment, bind, get_state, need, ret, set_segments.
  now rewrite Ea, Eb.
Qed.

Lemma adjust_loop : forall olds (s : Triangulation2),
  (forall old, In old olds ->
     exists a b, nth_error (indices s) (fst old) = Some (Some a) /\
                 nth_error (indices s) (snd old) = Some (Some b)) ->
  exists news,
    for_each olds adjust_segment s =
      (Ok tt, mkTriangulation2 (vertices s) (indices s) (segments s ++ news) (triangles s)) /\
    Forall2 (adjusted (indices s)) olds news.
Proof.
  induction olds as [| old tl IH]; intros s Hall.
  - exists []. rewrite app_nil_r. destruct s. split; [reflexivity | constructor].
  - destruct (Hall old (or_introl eq_refl)) as (a & b & Ea & Eb).
    simpl. rewrite (bind_ok _ _ _ _ _ (adjust_segment_run s old a b Ea Eb)).
    destruct (IH (mkTriangulation2 (vertices s) (indices s)
                    (segments s ++ [(Nat.min a b, Nat.max a b)]) (triangles s)))
      as (news & Hrun & Hall').
    { intros o Ho. apply Hall. now right. }
    cbn [vertices indices segments triangles] in Hrun, Hall'.
    exists ((Nat.min a b, Nat.max a b) :: news).
    rewrite Hrun, <- app_assoc. split; [reflexivity |].
    constructor; [exists a, b; auto | exact Hall'].
Qed.

(** [__sort] with an order [R] that the sorted list follows. *)
Lemma sort_run (R : Vector2 -> Vector2 -> Prop) (c : CutMethod) (s : Triangulation2) :
  c <> ALTERNATING ->
  2 <= length (vertices s) ->
  Forall (fun sg => fst sg < length (vertices s) /\ snd sg < length (vertices s))
         (segments s) ->
  StronglySorted (fun a b => R (snd a) (snd b)) (sorted_enumerated c (vertices s)) ->
  exists s',
    sort c s = (Ok tt, s') /\
    triangles s' = triangles s /\
    dedup_inv R (length (vertices s)) (sorted_enumerated c (vertices s)) s' /\
    Forall2 (adjusted (indices s')) (segments s) (segments s') /\
    (NoDup (map ident (vertices s)) ->
     vertices s' = map snd (sorted_enumerated c (vertices s))).
Proof.
  intros Hc Hn Hsg Hss.
  pose proof (sorted_enumerated_length c (vertices s)) as HL.
  pose proof (sorted_enumerated_nodup c (vertices s)) as Hnd.
  assert (Hlt : Forall (fun e => fst e < length (vertices s))
                       (sorted_enumerated c (vertices s))).
  { apply Forall_forall. intros [k a] Hk. simpl.
    apply sorted_enumerated_in in Hk. eapply nth_error_in_range; eassumption. }
  unfold sort. unfold bind at 1, get_state at 1.
  destruct (length (vertices s) <? 2) eqn:E2; [apply Nat.ltb_lt in E2; lia |].
  cbv zeta.
  destruct (sorted_enumerated c (vertices s)) as [| [i0 v0] rest] eqn:EE;
    [simpl in HL; lia |].
  pose proof (Forall_inv Hlt) as Hi0. pose proof (Forall_inv_tail Hlt) as Hrest.
  simpl in Hi0.
  set (s1 := mkTriangulation2 [v0]
               (upd (repeat None (length ((i0, v0) :: rest))) i0 (Some 0))
               (segments s) (triangles s)).
  assert (Hinit : forall (k : unit -> T2 unit),
    (set_vertices [] ;;
     set_indices (repeat None (length ((i0, v0) :: rest))) ;;
     set_vertices [v0] ;;
     s1 <- get_state ;;
     ind <- need IndexError (list_set (indices s1) i0 (Some 0)) ;;
     set_indices ind ;; k tt) s = k tt s1).
  { intros k. unfold bind, set_vertices, set_indices, get_state, need, ret.
    cbn [indices vertices segments triangles].
    rewrite (list_set_upd (repeat None (length ((i0, v0) :: rest))) i0 (Some 0))
      by (rewrite repeat_length, HL; exact Hi0).
    reflexivity. }
  assert (Hinv1 : dedup_inv R (length (vertices s)) [(i0, v0)] s1).
  { unfold dedup_inv, s1. cbn [vertices indices].
    rewrite length_upd, repeat_length. split; [exact HL |].
    split; [simpl; lia |]. split; [| split].
    - intros i u [E | []]. injection E as Ei Eu. subst i u. exists 0, v0.
      rewrite nth_error_upd_eq by (rewrite repeat_length, HL; exact Hi0).
      repeat split. apply Nat.eqb_refl.
    - intros q [<- | []]. now left.
    - repeat constructor. }
  destruct (dedup_loop R (length (vertices s)) rest [(i0, v0)] s1 Hnd Hrest Hss Hinv1)
    as (s2 & Hrun & Hinv2 & Hsg2 & Htr2).
  simpl app in Hinv2.
  assert (Hall : forall old, In old (segments s) ->
    exists a b, nth_error (indices s2) (fst old) = Some (Some a) /\
                nth_error (indices s2) (snd old) = Some (Some b)).
  { intros old Hold. rewrite Forall_forall in Hsg. destruct (Hsg old Hold) as [Ha Hb].
    destruct Hinv2 as (_ & _ & Hidx & _).
    destruct (nth_error (vertices s) (fst old)) as [pa |] eqn:Ea;
      [| apply nth_error_None in Ea; lia].
    destruct (nth_error (vertices s) (snd old)) as [pb |] eqn:Eb;
      [| apply nth_error_None in Eb; lia].
    rewrite <- EE in Hidx.
    destruct (Hidx _ _ (proj2 (sorted_enumerated_in c _ _ _) Ea)) as (a & _ & Ha' & _).
    destruct (Hidx _ _ (proj2 (sorted_enumerated_in c _ _ _) Eb)) as (b & _ & Hb' & _).
    exists a, b. auto. }
  destruct (adjust_loop (segments s)
              (mkTriangulation2 (vertices s2) (indices s2) [] (triangles s2)) Hall)
    as (news & Hadj & Hnews).
  cbn [vertices indices segments triangles app] in Hadj, Hnews.
  exists (mkTriangulation2 (vertices s2) (indices s2) news (triangles s2)).
  split.
  - assert (Htail : (for_each rest dedup_step ;;
                     match c with
                     | ALTERNATING => raise NotImplementedExc
                     | _ => s2 <- get_state ;; set_segments [] ;;
                            for_each (segments s2) adjust_segment
                     end) s1 =
                    (Ok tt, mkTriangulation2 (vertices s2) (indices s2) news (triangles s2))).
    { rewrite (bind_ok _ _ _ _ _ Hrun).
      destruct c; [| | congruence];
        unfold bind at 1, get_state at 1; unfold bind at 1, set_segments at 1;
        cbn [vertices indices segments triangles]; rewrite Hsg2; exact Hadj. }
    rewrite <- Htail.
    exact (Hinit (fun _ => for_each rest dedup_step ;;
                           match c with
                           | ALTERNATING => raise NotImplementedExc
                           | _ => s2 <- get_state ;; set_segments [] ;;
                                  for_each (segments s2) adjust_segment
                           end)).
  - cbn [vertices indices segments triangles].
    split; [rewrite Htr2; reflexivity |]. split; [| split; [exact Hnews |]].
    + destruct Hinv2 as (H1 & H2 & H3 & H4 & H5). unfold dedup_inv.
      cbn [vertices indices]. auto.
    + intros Hid.
      apply (dedup_loop_distinct rest [(i0, v0)] s1 s2); [| reflexivity | exact Hrun].
      simpl app. rewrite <- EE, <- map_map.
      eapply Permutation_NoDup; [| exact Hid].
      apply Permutation_map. apply Permutation_sym.
      rewrite <- (enumerate_from_snd (vertices s) 0) at 2.
      apply Permutation_map, sorted_enumerated_perm.
Qed.

(** After [__sort], [indices] has one entry for each vertex that was given,
    and the entry of the vertex [k] is the place of the same object in the
    new vertex list; the new list holds no other vertices; the segments
    are the old ones read through [indices], smaller end first; the
    triangles are not touched. *)
Theorem sort_indices_follow_vertices (c : CutMethod) (s : Triangulation2) :
  c <> ALTERNATING ->
  2 <= length (vertices s) ->
  Forall (fun sg => fst sg < length (vertices s) /\ snd sg < length (vertices s))
         (segments s) ->
  exists s',
    sort c s = (Ok tt, s') /\
    triangles s' = triangles s /\
    length (indices s') = length (vertices s) /\
    1 <= length (vertices s') <= length (vertices s) /\
    (forall k p, nth_error (vertices s) k = Some p ->
       exists j q, nth_error (indices s') k = Some (Some j) /\
                   nth_error (vertices s') j = Some q /\ py_eq q p = true) /\
    (forall q, In q (vertices s') -> In q (vertices s)) /\
    Forall2 (adjusted (indices s')) (segments s) (segments s').
Proof.
  intros Hc Hn Hsg.
  destruct (sort_run (fun _ _ => True) c s Hc Hn Hsg) as (s' & Hrun & Htr & Hinv & Hadj & _).
  { clear. induction (sorted_enumerated c (vertices s)) as [| e tl IH];
      constructor; [exact IH | apply Forall_forall; auto]. }
  destruct Hinv as (H1 & H2 & H3 & H4 & _).
  exists s'. split; [exact Hrun |]. split; [exact Htr |]. split; [exact H1 |].
  split; [now rewrite (sorted_enumerated_length c) in H2 |].
  split; [| split; [| exact Hadj]].
  - intros k p Hk. apply H3. now apply sorted_enumerated_in.
  - intros q Hq. apply H4 in Hq. apply in_map_iff in Hq.
    destruct Hq as ([k q'] & <- & Hk). apply sorted_enumerated_in in Hk.
    eapply nth_error_In. exact Hk.
Qed.

End Sorting.

Lemma sort_indices_follow_vertices_witness :
  let s := mkTriangulation2 [mkVector2 0 5 1; mkVector2 1 2 2; mkVector2 0 5 1; mkVector2 3 2 0]
             [] [(0, 3); (2, 1)] [] in
  (VERTICAL <> ALTERNATING /\ 2 <= length (vertices s) /\
   Forall (fun sg => fst sg < length (vertices s) /\ snd sg < length (vertices s))
          (segments s)) /\
  exists s',
    sort VERTICAL s = (Ok tt, s') /\
    triangles s' = triangles s /\
    length (indices s') = length (vertices s) /\
    1 <= length (vertices s') <= length (vertices s) /\
    (forall k p, nth_error (vertices s) k = Some p ->
       exists j q, nth_error (indices s') k = Some (Some j) /\
                   nth_error (vertices s') j = Some q /\ py_eq q p = true) /\
    (forall q, In q (vertices s') -> In q (vertices s)) /\
    Forall2 (adjusted (indices s')) (segments s) (segments s').
Proof.
  intros s.
  assert (H1 : VERTICAL <> ALTERNATING) by discriminate.
  assert (H2 : 2 <= length (vertices s)) by (simpl; lia).
  assert (H3 : Forall (fun sg => fst sg < length (vertices s) /\ snd sg < length (vertices s))
                      (segments s)).
  { simpl. repeat constructor. }
  split; [auto | exact (sort_indices_follow_vertices VERTICAL s H1 H2 H3)].
Defined.

(** *** The order of the stored vertices, on [int] coordinates *)

Lemma key_ltb_false c (e h : nat * Vector2) :
  key_ltb (sort_key c e) (sort_key c h) = false -> key_le c (snd h) (snd e).
Proof.
  unfold key_le, key_ltb. cbv zeta.
  replace (sort_key c (0, snd h)) with (sort_key c h) by (destruct c; reflexivity).
  replace (sort_key c (0, snd e)) with (sort_key c e) by (destruct c; reflexivity).
  generalize (sort_key c e) (sort_key c h). intros [a1 a2] [b1 b2]. simpl. int_ops.
  destruct (Z.ltb_spec a1 b1), (Z.eqb_spec a1 b1), (Z.ltb_spec a2 b2); simpl;
    intros Hkey; try discriminate; lia.
Qed.

Lemma key_ltb_true c (e h : nat * Vector2) :
  key_ltb (sort_key c e) (sort_key c h) = true -> key_le c (snd e) (snd h).
Proof.
  unfold key_le, key_ltb. cbv zeta.
  replace (sort_key c (0, snd h)) with (sort_key c h) by (destruct c; reflexivity).
  replace (sort_key c (0, snd e)) with (sort_key c e) by (destruct c; reflexivity).
  generalize (sort_key c e) (sort_key c h). intros [a1 a2] [b1 b2]. simpl. int_ops.
  destruct (Z.ltb_spec a1 b1), (Z.eqb_spec a1 b1), (Z.ltb_spec a2 b2); simpl;
    intros Hkey; try discriminate; lia.
Qed.

Lemma key_le_trans c p q r : key_le c p q -> key_le c q r -> key_le c p r.
Proof.
  unfold key_le. cbv zeta.
  generalize (sort_key c (0, p)) (sort_key c (0, q)) (sort_key c (0, r)).
  intros [a1 a2] [b1 b2] [c1 c2]. simpl. int_ops. lia.
Qed.

Lemma insert_stable_sorted c e l :
  StronglySorted (fun a b => key_le c (snd a) (snd b)) l ->
  StronglySorted (fun a b => key_le c (snd a) (snd b)) (insert_stable c e l).
Proof.
  induction l as [| h tl IH]; intros Hs; simpl.
  - repeat constructor.
  - inversion Hs as [| ? ? Hs' Hh]; subst.
    destruct (key_ltb (sort_key c e) (sort_key c h)) eqn:E.
    + apply key_ltb_true in E. constructor; [exact Hs |].
      constructor; [exact E |].
      eapply Forall_impl; [| exact Hh]. intros x Hx. simpl in Hx.
      eapply key_le_trans; eassumption.
    + apply key_ltb_false in E. constructor; [now apply IH |].
      apply Forall_forall. intros x Hx.
      apply (Permutation_in _ (insert_stable_perm c e tl)) in Hx.
      destruct Hx as [<- | Hx]; [exact E |].
      rewrite Forall_forall in Hh. now apply Hh.
Qed.

Lemma sorted_enumerated_sorted c l :
  StronglySorted (fun a b => key_le c (snd a) (snd b)) (sorted_enumerated c l).
Proof.
  unfold sorted_enumerated.
  assert (G : forall es acc,
    StronglySorted (fun a b => key_le c (snd a) (snd b)) acc ->
    StronglySorted (fun a b => key_le c (snd a) (snd b))
      (fold_left (fun acc e => insert_stable c e acc) es acc)).
  { induction es as [| e tl IH]; intros acc Hacc; simpl; [exact Hacc |].
    apply IH. now apply insert_stable_sorted. }
  apply G. constructor.
Qed.

Lemma strongly_sorted_nth {A : Type} (R : A -> A -> Prop) (l : list A) :
  StronglySorted R l ->
  forall j1 j2 p q, j1 < j2 -> nth_error l j1 = Some p -> nth_error l j2 = Some q -> R p q.
Proof.
  induction 1 as [| a tl Hs IH Hf]; intros j1 j2 p q Hj E1 E2.
  - destruct j1; discriminate.
  - destruct j2 as [| j2]; [lia |]. simpl in E2. destruct j1 as [| j1]; simpl in E1.
    + inversion E1; subst. rewrite Forall_forall in Hf. apply Hf.
      eapply nth_error_In. exact E2.
    + apply (IH j1 j2); [lia | assumption | assumption].
Qed.

(** With [int] coordinates the vertex list that [__sort] leaves is in the
    order of the sort keys: by [x], then by [y], for a vertical cut.
    Vertices with equal keys may follow each other (a second object with
    the same coordinates is not removed). *)
Theorem sort_orders_vertices (c : CutMethod) (s : Triangulation2) :
  c <> ALTERNATING ->
  2 <= length (vertices s) ->
  Forall (fun sg => fst sg < length (vertices s) /\ snd sg < length (vertices s))
         (segments s) ->
  exists s',
    sort c s = (Ok tt, s') /\
    forall j1 j2 p q,
      j1 < j2 -> nth_error (vertices s') j1 = Some p -> nth_error (vertices s') j2 = Some q ->
      key_le c p q.
Proof.
  intros Hc Hn Hsg.
  destruct (sort_run (key_le c) c s Hc Hn Hsg (sorted_enumerated_sorted c (vertices s)))
    as (s' & Hrun & _ & Hinv & _ & _).
  exists s'. split; [exact Hrun |].
  destruct Hinv as (_ & _ & _ & _ & Hs). now apply strongly_sorted_nth.
Qed.

Lemma sort_orders_vertices_witness :
  let s := mkTriangulation2 [mkVector2 0 5 1; mkVector2 1 2 2; mkVector2 2 5 1; mkVector2 3 2 0]
             [] [(0, 3)] [] in
  (VERTICAL <> ALTERNATING /\ 2 <= length (vertices s) /\
   Forall (fun sg => fst sg < length (vertices s) /\ snd sg < length (vertices s))
          (segments s)) /\
  exists s',
    sort VERTICAL s = (Ok tt, s') /\
    forall j1 j2 p q,
      j1 < j2 -> nth_error (vertices s') j1 = Some p -> nth_error (vertices s') j2 = Some q ->
      key_le VERTICAL p q.
Proof.
  intros s.
  assert (H1 : VERTICAL <> ALTERNATING) by discriminate.
  assert (H2 : 2 <= length (vertices s)) by (simpl; lia).
  assert (H3 : Forall (fun sg => fst sg < length (vertices s) /\ snd sg < length (vertices s))
                      (segments s)).
  { simpl. repeat constructor. }
  split; [auto | exact (sort_orders_vertices VERTICAL s H1 H2 H3)].
Defined.

(** ** Two and three points, whatever the coordinates *)

Lemma nodup_map_injective {A B : Type} (f : A -> B) (l : list A) :
  NoDup (map f l) -> forall a b, In a l -> In b l -> f a = f b -> a = b.
Proof.
  induction l as [| h tl IH]; intros Hnd a b Ha Hb E; [contradiction |].
  simpl in Hnd. inversion Hnd as [| ? ? Hn Hnd']; subst.
  destruct Ha as [<- | Ha], Hb as [<- | Hb].
  - reflexivity.
  - exfalso. apply Hn. rewrite E. now apply in_map.
  - exfalso. apply Hn. rewrite <- E. now apply in_map.
  - now apply IH.
Qed.

Section Distinct.

Context {N : Number}.

(** When the vertices that are given are pairwise distinct objects,
    [__sort] removes none of them, whatever their coordinates: the new
    list is the old one in another order, and [indices[k]] is the new
    place of the vertex [k]. *)
Theorem sort_keeps_distinct_objects (c : CutMethod) (s : Triangulation2) :
  c <> ALTERNATING ->
  2 <= length (vertices s) ->
  Forall (fun sg => fst sg < length (vertices s) /\ snd sg < length (vertices s))
         (segments s) ->
  NoDup (map ident (vertices s)) ->
  exists s',
    sort c s = (Ok tt, s') /\
    Permutation (vertices s') (vertices s) /\
    length (vertices s') = length (vertices s) /\
    (forall k p, nth_error (vertices s) k = Some p ->
       exists j, nth_error (indices s') k = Some (Some j) /\
                 nth_error (vertices s') j = Some p).
Proof.
  intros Hc Hn Hsg Hid.
  destruct (sort_run (fun _ _ => True) c s Hc Hn Hsg) as (s' & Hrun & _ & Hinv & _ & Hd).
  { clear. induction (sorted_enumerated c (vertices s)) as [| e tl IH];
      constructor; [exact IH | apply Forall_forall; auto]. }
  specialize (Hd Hid).
  assert (HP : Permutation (vertices s') (vertices s)).
  { rewrite Hd. rewrite <- (enumerate_from_snd (vertices s) 0) at 2.
    apply Permutation_map, sorted_enumerated_perm. }
  exists s'. split; [exact Hrun |]. split; [exact HP |].
  split; [exact (Permutation_length HP) |].
  intros k p Hk. destruct Hinv as (_ & _ & Hidx & _).
  destruct (Hidx k p (proj2 (sorted_enumerated_in c _ _ _) Hk)) as (j & q & E1 & E2 & E3).
  exists j. split; [exact E1 |]. rewrite E2. f_equal.
  apply (nodup_map_injective ident (vertices s) Hid).
  - apply (Permutation_in _ HP). eapply nth_error_In. exact E2.
  - eapply nth_error_In. exact Hk.
  - now apply Nat.eqb_eq.
Qed.

(** [triangulate] once the vertices are sorted, for two or three of them. *)
Lemma triangulate_small_run (fuel : nat) (s s2 : Triangulation2) :
  sort VERTICAL (with_triangles s []) = (Ok tt, s2) ->
  2 <= length (vertices s2) < 4 ->
  triangulate (S fuel) ARBITRARY VERTICAL s =
    (trivial_triangulation 0 (length (vertices s2)) ;; ret tt) s2.
Proof.
  intros Hsort Hlen. unfold triangulate.
  unfold bind at 1, set_triangles at 1. fold (with_triangles s []).
  rewrite (bind_ok _ _ _ _ _ Hsort).
  unfold bind at 1, get_state at 1.
  destruct (length (vertices s2) <? 2) eqn:E2; [apply Nat.ltb_lt in E2; lia |].
  cbn [divide_and_conquer]. rewrite Nat.sub_0_r.
  destruct (length (vertices s2) <? 4) eqn:E4; [reflexivity |].
  apply Nat.ltb_ge in E4. lia.
Qed.


Lemma trivial_three_run (s : Triangulation2) (q0 q1 q2 : Vector2) :
  vertices s = [q0; q1; q2] -> triangles s = [] ->
  exists r, trivial_triangulation 0 3 s = (Ok r, with_triangles s (three_points q0 q1 q2)).
Proof.
  intros Ev E. destruct s as [V I SG T]. simpl in Ev, E. subst V T.
  unfold three_points, trivial_triangulation.
  unfold bind at 1, num_triangles at 1. unfold bind at 1, get_state at 1. cbv [ret].
  cbn [triangles length Nat.sub Nat.ltb Nat.leb].
  assert (Hs : side_idx (Some 0) (Some 1) (Some 2) (mkTriangulation2 [q0; q1; q2] I SG [])
               = (Ok (side q0 q1 q2), mkTriangulation2 [q0; q1; q2] I SG [])) by reflexivity.
  rewrite (bind_ok _ _ _ _ _ Hs).
  destruct (side q0 q1 q2); eexists; reflexivity.
Qed.


End Distinct.

Lemma sort_keeps_distinct_objects_witness :
  let s := mkTriangulation2 [mkVector2 0 5 1; mkVector2 1 2 2; mkVector2 2 5 1] [] [(0, 2)] [] in
  (VERTICAL <> ALTERNATING /\ 2 <= length (vertices s) /\
   Forall (fun sg => fst sg < length (vertices s) /\ snd sg < length (vertices s))
          (segments s) /\
   NoDup (map ident (vertices s))) /\
  exists s',
    sort VERTICAL s = (Ok tt, s') /\
    Permutation (vertices s') (vertices s) /\
    length (vertices s') = length (vertices s) /\
    (forall k p, nth_error (vertices s) k = Some p ->
       exists j, nth_error (indices s') k = Some (Some j) /\
                 nth_error (vertices s') j = Some p).
Proof.
  intros s.
  assert (H1 : VERTICAL <> ALTERNATING) by discriminate.
  assert (H2 : 2 <= length (vertices s)) by (simpl; lia).
  assert (H3 : Forall (fun sg => fst sg < length (vertices s) /\ snd sg < length (vertices s))
                      (segments s)).
  { simpl. repeat constructor. }
  assert (H4 : NoDup (map ident (vertices s))).
  { simpl. repeat constructor; simpl; intuition discriminate. }
  split; [auto | exact (sort_keeps_distinct_objects VERTICAL s H1 H2 H3 H4)].
Defined.


(** *** Three points with [int] coordinates *)

Lemma nodup3 {A : Type} (a b c : A) : NoDup [a; b; c] -> a <> b /\ a <> c /\ b <> c.
Proof.
  intros H. inversion H as [| ? ? H1 H']; subst. inversion H' as [| ? ? H2 _]; subst.
  simpl in H1, H2. intuition.
Qed.

(** The order of three points changes the sign of [area] at most. *)
Lemma area_permuted (p0 p1 p2 q0 q1 q2 : Vector2) :
  NoDup [q0; q1; q2] -> Permutation [q0; q1; q2] [p0; p1; p2] ->
  area q0 q1 q2 = area p0 p1 p2 \/ area q0 q1 q2 = (- area p0 p1 p2)%Z.
Proof.
  intros Hnd HP. apply nodup3 in Hnd. destruct Hnd as (N01 & N02 & N12).
  assert (H0 : In q0 [p0; p1; p2]) by (apply (Permutation_in _ HP); simpl; auto).
  assert (H1 : In q1 [p0; p1; p2]) by (apply (Permutation_in _ HP); simpl; auto).
  assert (H2 : In q2 [p0; p1; p2]) by (apply (Permutation_in _ HP); simpl; auto).
  simpl in H0, H1, H2.
  destruct H0 as [<- | [<- | [<- | []]]], H1 as [<- | [<- | [<- | []]]],
    H2 as [<- | [<- | [<- | []]]];
    try congruence;
    first [left; unfold area; int_ops; ring | right; unfold area; int_ops; ring].
Qed.

Ltac area_leaf :=
  first [ reflexivity
        | apply Z.ltb_lt; unfold area in *; int_ops; lia
        | apply Z.leb_le; unfold area in *; int_ops; lia ].

Lemma three_left_complete (s : Triangulation2) (q0 q1 q2 : Vector2) :
  vertices s = [q0; q1; q2] -> (0 < area q0 q1 q2)%Z ->
  complete_triangulation (with_triangles s three_left).
Proof.
  intros Ev Ha. apply complete_triangulation_b_sound.
  unfold complete_triangulation_b, triangulation_b, edges_once_b, with_triangles.
  cbn [vertices triangles]. rewrite Ev.
  apply andb_true_intro. split; [| reflexivity].
  unfold three_left. cbn [enumerate_from forallb].
  unfold triangle_b. cbn [is_ghost Tri v n s0 s1 s2]. cbv iota beta.
  unfold hull_b, ccw_b. cbn [point vtx Tri v n s0 s1 s2 Nat.modulo Nat.divmod fst snd Nat.sub nth_error forallb].
  repeat (apply andb_true_intro; split); area_leaf.
Qed.

Lemma three_right_complete (s : Triangulation2) (q0 q1 q2 : Vector2) :
  vertices s = [q0; q1; q2] -> (area q0 q1 q2 < 0)%Z ->
  complete_triangulation (with_triangles s three_right).
Proof.
  intros Ev Ha. apply complete_triangulation_b_sound.
  unfold complete_triangulation_b, triangulation_b, edges_once_b, with_triangles.
  cbn [vertices triangles]. rewrite Ev.
  apply andb_true_intro. split; [| reflexivity].
  unfold three_right. cbn [enumerate_from forallb].
  unfold triangle_b. cbn [is_ghost Tri v n s0 s1 s2]. cbv iota beta.
  unfold hull_b, ccw_b. cbn [point vtx Tri v n s0 s1 s2 Nat.modulo Nat.divmod fst snd Nat.sub nth_error forallb].
  repeat (apply andb_true_intro; split); area_leaf.
Qed.

(** Three distinct objects with [int] coordinates.  When they are not
    co-linear [triangulate] leaves one existent triangle, counter-clockwise
    whatever the order in which the points were given, and three ghosts: a
    complete triangulation, which the flip pass leaves as it is.  When they
    are co-linear it leaves four ghosts and no triangle. *)
Theorem three_points_triangulated (fuel : nat) (s : Triangulation2) (p0 p1 p2 : Vector2) :
  vertices s = [p0; p1; p2] ->
  NoDup [ident p0; ident p1; ident p2] ->
  Forall (fun sg => fst sg < 3 /\ snd sg < 3) (segments s) ->
  exists s',
    triangulate (S fuel) ARBITRARY VERTICAL s = (Ok tt, s') /\
    Permutation (vertices s') [p0; p1; p2] /\
    length (triangles s') = 4 /\
    (area p0 p1 p2 = 0%Z ->
       count_existent (triangles s') = 0 /\ count_ghosts (triangles s') = 4) /\
    (area p0 p1 p2 <> 0%Z ->
       count_existent (triangles s') = 1 /\ count_ghosts (triangles s') = 3 /\
       complete_triangulation s' /\
       forall fuel', enforce_delaunay fuel' s' = (Ok tt, s')).
Proof.
  intros Ev Hid Hsg.
  destruct (sort_run (fun _ _ => True) VERTICAL (with_triangles s []))
    as (s2 & Hrun & Htr & _ & _ & Hd).
  - discriminate.
  - cbn [with_triangles vertices]. rewrite Ev. simpl. lia.
  - cbn [with_triangles vertices segments]. rewrite Ev. exact Hsg.
  - clear. induction (sorted_enumerated VERTICAL _) as [| e tl IH];
      constructor; [exact IH | apply Forall_forall; auto].
  - cbn [with_triangles vertices triangles] in Htr, Hd.
    assert (Hid' : NoDup (map ident (vertices s))) by (rewrite Ev; exact Hid).
    specialize (Hd Hid').
    assert (HP : Permutation (vertices s2) [p0; p1; p2]).
    { rewrite Hd, <- Ev. rewrite <- (enumerate_from_snd (vertices s) 0) at 2.
      apply Permutation_map, sorted_enumerated_perm. }
    pose proof (Permutation_length HP) as HL. simpl in HL.
    destruct (vertices s2) as [| q0 [| q1 [| q2 [| ? ?]]]] eqn:Ev2; try discriminate.
    assert (Hq : NoDup [q0; q1; q2]).
    { apply (NoDup_map_inv ident). eapply Permutation_NoDup; [| exact Hid].
      apply Permutation_sym. exact (Permutation_map ident HP). }
    destruct (trivial_three_run s2 q0 q1 q2 Ev2 Htr) as (r & Htriv).
    exists (with_triangles s2 (three_points q0 q1 q2)).
    split.
    { rewrite (triangulate_small_run fuel s s2 Hrun) by (rewrite Ev2; simpl; lia).
      rewrite Ev2. cbn [length]. rewrite (bind_ok _ _ _ _ _ Htriv). reflexivity. }
    split; [cbn [with_triangles vertices]; rewrite Ev2; exact HP |].
    pose proof (side_of_area q0 q1 q2) as Hside.
    pose proof (area_permuted p0 p1 p2 q0 q1 q2 Hq HP) as Harea.
    unfold three_points. cbn [with_triangles triangles].
    destruct (Z.ltb_spec 0 (area q0 q1 q2)) as [Hpos | Hnp].
    + rewrite Hside. split; [reflexivity |]. split; [intros E0; lia |].
      intros _. split; [reflexivity |]. split; [reflexivity |]. split.
      * apply (three_left_complete s2 q0 q1 q2 Ev2 Hpos).
      * intros fuel'. destruct s2 as [V I SG T]. destruct fuel'; reflexivity.
    + destruct (Z.ltb_spec (area q0 q1 q2) 0) as [Hneg | Hnn].
      * rewrite Hside. split; [reflexivity |]. split; [intros E0; lia |].
        intros _. split; [reflexivity |]. split; [reflexivity |]. split.
        -- apply (three_right_complete s2 q0 q1 q2 Ev2 Hneg).
        -- intros fuel'. destruct s2 as [V I SG T]. destruct fuel'; reflexivity.
      * rewrite Hside. split; [reflexivity |].
        split; [intros _; split; reflexivity | intros Hne; lia].
Qed.

Lemma three_points_triangulated_witness :
  let p0 := mkVector2 0 4 1 in
  let p1 := mkVector2 1 (-3) 0 in
  let p2 := mkVector2 2 0 7 in
  let s := mkTriangulation2 [p0; p1; p2] [] [(2, 0)] [] in
  (vertices s = [p0; p1; p2] /\ NoDup [ident p0; ident p1; ident p2] /\
   Forall (fun sg => fst sg < 3 /\ snd sg < 3) (segments s)) /\
  exists s',
    triangulate 1 ARBITRARY VERTICAL s = (Ok tt, s') /\
    Permutation (vertices s') [p0; p1; p2] /\
    length (triangles s') = 4 /\
    (area p0 p1 p2 = 0%Z ->
       count_existent (triangles s') = 0 /\ count_ghosts (triangles s') = 4) /\
    (area p0 p1 p2 <> 0%Z ->
       count_existent (triangles s') = 1 /\ count_ghosts (triangles s') = 3 /\
       complete_triangulation s' /\
       forall fuel', enforce_delaunay fuel' s' = (Ok tt, s')).
Proof.
  intros p0 p1 p2 s.
  assert (H1 : vertices s = [p0; p1; p2]) by reflexivity.
  assert (H2 : NoDup [ident p0; ident p1; ident p2]).
  { simpl. repeat constructor; simpl; intuition discriminate. }
  assert (H3 : Forall (fun sg => fst sg < 3 /\ snd sg < 3) (segments s)).
  { simpl. repeat constructor. }
  split; [auto | exact (three_points_triangulated 0 s p0 p1 p2 H1 H2 H3)].
Defined.

(** ** What [in_circle] decides (predicates.py) *)

Lemma det_by_circle (a b c d : Vector2) (k ox oy R : Z) :
  (k * k * in_circle_det a b c d =
   (scaled_dist2 k ox oy a - R) * area b c d +
   (scaled_dist2 k ox oy b - R) * area c a d +
   (scaled_dist2 k ox oy c - R) * area a b d -
   (scaled_dist2 k ox oy d - R) * area a b c)%Z.
Proof. unfold in_circle_det, scaled_dist2, area. int_ops. ring. Qed.

(** For three points with [int] coordinates on a circle, of any centre
    with rational coordinates, [in_circle(a, b, c, d)] is the position of
    [d] for this circle when [a], [b], [c] are in counter-clockwise order,
    and the opposite position when they are in clockwise order, as the
    docstring says. *)
Theorem in_circle_is_the_circle_test (a b c d : Vector2) (k ox oy R : Z) :
  (0 < k)%Z ->
  scaled_dist2 k ox oy a = R -> scaled_dist2 k ox oy b = R -> scaled_dist2 k ox oy c = R ->
  ((0 < area a b c)%Z ->
   in_circle a b c d = position_of (scaled_dist2 k ox oy d) R) /\
  ((area a b c < 0)%Z ->
   in_circle a b c d = opposite (position_of (scaled_dist2 k ox oy d) R)).
Proof.
  intros Hk Ea Eb Ec.
  pose proof (det_by_circle a b c d k ox oy R) as Hd.
  rewrite Ea, Eb, Ec, !Z.sub_diag, !Z.mul_0_l, !Z.add_0_l in Hd.
  rewrite in_circle_of_det. unfold position_of.
  set (D := in_circle_det a b c d) in *. set (A := area a b c) in *.
  set (dd := scaled_dist2 k ox oy d) in *.
  assert (Hkk : (0 < k * k)%Z) by nia.
  split; intros HA.
  - destruct (Z.ltb_spec dd R) as [L | L].
    + assert (0 < D)%Z by nia.
      destruct (Z.ltb_spec 0 D); [reflexivity | lia].
    + destruct (Z.eqb_spec dd R) as [E | E].
      * assert (D = 0)%Z by nia.
        destruct (Z.ltb_spec 0 D); [lia |]. destruct (Z.eqb_spec D 0); [reflexivity | lia].
      * assert (D < 0)%Z by nia.
        destruct (Z.ltb_spec 0 D); [lia |]. destruct (Z.eqb_spec D 0); [lia | reflexivity].
  - destruct (Z.ltb_spec dd R) as [L | L].
    + assert (D < 0)%Z by nia.
      destruct (Z.ltb_spec 0 D); [lia |]. destruct (Z.eqb_spec D 0); [lia | reflexivity].
    + destruct (Z.eqb_spec dd R) as [E | E].
      * assert (D = 0)%Z by nia.
        destruct (Z.ltb_spec 0 D); [lia |]. destruct (Z.eqb_spec D 0); [reflexivity | lia].
      * assert (0 < D)%Z by nia.
        destruct (Z.ltb_spec 0 D); [reflexivity | lia].
Qed.

Lemma in_circle_is_the_circle_test_witness :
  let a := mkVector2 0 0 0 in
  let b := mkVector2 1 3 0 in
  let c := mkVector2 2 0 1 in
  let d := mkVector2 3 2 1 in
  ((0 < 2)%Z /\ scaled_dist2 2 3 1 a = 10%Z /\ scaled_dist2 2 3 1 b = 10%Z /\
   scaled_dist2 2 3 1 c = 10%Z /\ (0 < area a b c)%Z) /\
  in_circle a b c d = position_of (scaled_dist2 2 3 1 d) 10 /\
  in_circle a b c d = INSIDE.
Proof.
  intros a b c d.
  assert (H0 : (0 < 2)%Z) by lia.
  assert (Ha : scaled_dist2 2 3 1 a = 10%Z) by reflexivity.
  assert (Hb : scaled_dist2 2 3 1 b = 10%Z) by reflexivity.
  assert (Hc : scaled_dist2 2 3 1 c = 10%Z) by reflexivity.
  assert (HA : (0 < area a b c)%Z) by reflexivity.
  split; [auto 6 |]. split; [| reflexivity].
  exact (proj1 (in_circle_is_the_circle_test a b c d 2 3 1 10 H0 Ha Hb Hc) HA).
Defined.

